(** * MinHash / LSH similarity pipeline: a shallow embedding and its properties

    The development follows the three modules of the pipeline:
    - [src/minhash.py]: [generate_hash_functions], [compute_minhash_signatures];
    - [src/lsh.py]: [_band_key_to_bytes], [lsh_candidate_pairs];
    - [src/jaccard.py]: [jaccard_similarity_csr], [verify_candidates_and_write];
    together with [get_user_movies] of [src/sparse_utils.py].

    Modelling conventions.
    - Python [int]s are [Z]; loop counters produced by [range] are [nat].
    - numpy [int64]/[int32] arithmetic is [Z] arithmetic followed by an explicit
      two's-complement wrap ([wrap64], [wrap32]).
    - A Python [float] is the rational number it denotes ([Q]); the quotient of
      two integers is the exact quotient rounded to a float by [fl], an
      interface of which only monotonicity and the exactness of [0] and [1] are
      used.
    - Exceptions are values of [exn]; a call that may raise returns [result].
    - A [dict] is an association list in insertion order (the order
      [dict.items()] uses); a [set] is the duplicate-free list of its elements in
      order of first insertion.
    - The output file is the list of the lines it holds. *)

From Stdlib Require Import ZArith QArith Znumtheory Sorting.Sorted.
From stdpp Require Import base list gmap sets sorting strings pretty.

Local Open Scope Z_scope.
Set Warnings "-clear-no-such-hyp".

(** ** Exceptions *)

Inductive exn : Type :=
| TypeError
| ValueError
| IndexError.

Inductive result (A : Type) : Type :=
| Ok (a : A)
| Err (e : exn).
Arguments Ok {A} a.
Arguments Err {A} e.

#[global] Instance result_bind : MBind result :=
  λ A B k r, match r with
             | Ok a => k a
             | Err e => Err e
             end.

Fixpoint mapM {A B : Type} (f : A → result B) (l : list A) : result (list B) :=
  match l with
  | [] => Ok []
  | x :: l' => y ← f x; ys ← mapM f l'; Ok (y :: ys)
  end.

(** ** numpy arrays: indexing and slicing *)

(** [arr[i]] for a one-dimensional array and a Python integer [i]: a negative
    index counts from the end, an index outside [-len, len) raises. *)
Definition np_index (arr : list Z) (i : Z) : result Z :=
  let len := Z.of_nat (length arr) in
  if (0 <=? i) && (i <? len) then Ok (nth (Z.to_nat i) arr 0)
  else if (- len <=? i) && (i <? 0) then Ok (nth (Z.to_nat (i + len)) arr 0)
  else Err IndexError.

(** A slice bound, normalised as Python does: negative bounds count from the
    end, and every bound is clamped to [0, len]. *)
Definition slice_bound (len i : Z) : Z :=
  if i <? 0 then Z.max 0 (i + len) else Z.min i len.

(** [arr[start:stop]]; never raises. *)
Definition np_slice {A : Type} (arr : list A) (start stop : Z) : list A :=
  let len := Z.of_nat (length arr) in
  let s := slice_bound len start in
  let e := slice_bound len stop in
  take (Z.to_nat (e - s)) (drop (Z.to_nat s) arr).

(** ** The CSR incidence matrix *)

(** A [scipy.sparse.csr_matrix]: [shape = (n_rows, n_cols)], row pointer array
    [indptr] and column index array [indices].  The [data] array is never read
    by the pipeline. *)
Record csr_matrix : Type := mk_csr {
  n_rows : nat;
  n_cols : nat;
  indptr : list Z;
  indices : list Z
}.

(** The argument of a function that checks [isinstance(R, csr_matrix)]. *)
Inductive pyobj : Type :=
| Csr (R : csr_matrix)
| NotCsr.

(** [get_user_movies] of [src/sparse_utils.py]: the active columns of a row. *)
Definition get_user_movies (R : pyobj) (user_index : Z) : result (list Z) :=
  match R with
  | NotCsr => Err TypeError
  | Csr R =>
      if (user_index <? 0) || (Z.of_nat (n_rows R) <=? user_index) then Err IndexError
      else
        start ← np_index (indptr R) user_index;
        stop ← np_index (indptr R) (user_index + 1);
        Ok (np_slice (indices R) start stop)
  end.

(** Strictly increasing sequence of column indices. *)
Fixpoint strictly_increasing (l : list Z) : bool :=
  match l with
  | [] => true
  | x :: l' =>
      match l' with
      | [] => true
      | y :: _ => (x <? y) && strictly_increasing l'
      end
  end.

(** What every [csr_matrix] satisfies: [indptr] has [n_rows + 1] entries,
    and for every row the stored segment [indices[indptr[u] : indptr[u+1]]] is
    well delimited and within [0, n_cols). *)
Definition csr_row_bounds (R : csr_matrix) (u : nat) : bool :=
  let s := nth u (indptr R) 0 in
  let e := nth (S u) (indptr R) 0 in
  (0 <=? s) && (s <=? e) && (e <=? Z.of_nat (length (indices R))) &&
  forallb (λ c, (0 <=? c) && (c <? Z.of_nat (n_cols R))) (np_slice (indices R) s e).

Definition csr_bounds (R : csr_matrix) : bool :=
  (length (indptr R) =? S (n_rows R))%nat &&
  forallb (csr_row_bounds R) (seq 0 (n_rows R)).

(** The representation invariant of an incidence matrix (a CSR matrix in
    canonical form): in addition every row is strictly increasing, so it lists
    a set of columns without duplicates. *)
Definition csr_row_ok (R : csr_matrix) (u : nat) : bool :=
  csr_row_bounds R u &&
  strictly_increasing
    (np_slice (indices R) (nth u (indptr R) 0) (nth (S u) (indptr R) 0)).

Definition csr_wf (R : csr_matrix) : bool :=
  (length (indptr R) =? S (n_rows R))%nat &&
  forallb (csr_row_ok R) (seq 0 (n_rows R)).

(** ** Floating point *)

(** [fl q] is the float that the rational [q] rounds to, as a rational. *)
Class Rounding : Type := fl : Q → Q.

(** What is used of the rounding: it depends on the value only, it is
    monotone, and [0] and [1] are floats. *)
Class RoundingSound {rnd : Rounding} : Prop := {
  fl_value : ∀ x y, (x == y)%Q → (fl x == fl y)%Q;
  fl_monotone : ∀ x y, (x <= y)%Q → (fl x <= fl y)%Q;
  fl_zero : (fl 0 == 0)%Q;
  fl_one : (fl 1 == 1)%Q
}.

(** The rounding that rounds nothing, used to run the functions on concrete
    inputs. *)
Definition exact_rounding : Rounding := λ q, q.

(** ** [src/jaccard.py] *)

(** The [while] loop of [jaccard_similarity_csr]: the two-pointer walk over
    the two column arrays.  Every iteration advances [i] or [j], so
    [len1 + len2] iterations always suffice; [fuel] bounds the iterations. *)
Fixpoint two_pointer (fuel : nat) (cols1 cols2 : list Z) (i j : nat) (intersection : Z) : Z :=
  match fuel with
  | O => intersection
  | S fuel' =>
      if (i <? length cols1)%nat && (j <? length cols2)%nat then
        let c1 := nth i cols1 0 in
        let c2 := nth j cols2 0 in
        if c1 =? c2 then two_pointer fuel' cols1 cols2 (S i) (S j) (intersection + 1)
        else if c1 <? c2 then two_pointer fuel' cols1 cols2 (S i) j intersection
        else two_pointer fuel' cols1 cols2 i (S j) intersection
      else intersection
  end.

Definition jaccard_similarity_csr {rnd : Rounding} (R : pyobj) (u1 u2 : Z) : result Q :=
  match R with
  | NotCsr => Err TypeError
  | Csr R =>
      if u1 =? u2 then Ok 1%Q
      else
        let '(u1, u2) := if u2 <? u1 then (u2, u1) else (u1, u2) in
        start1 ← np_index (indptr R) u1;
        end1 ← np_index (indptr R) (u1 + 1);
        start2 ← np_index (indptr R) u2;
        end2 ← np_index (indptr R) (u2 + 1);
        let cols1 := np_slice (indices R) start1 end1 in
        let cols2 := np_slice (indices R) start2 end2 in
        let len1 := length cols1 in
        let len2 := length cols2 in
        let intersection := two_pointer (len1 + len2) cols1 cols2 0 0 0 in
        if intersection =? 0 then Ok 0%Q
        else
          let union_size := Z.of_nat len1 + Z.of_nat len2 - intersection in
          if union_size =? 0 then Ok 0%Q
          else Ok (fl (inject_Z intersection / inject_Z union_size))%Q
  end.

(** One line [f"{uid1},{uid2}\n"] of the output file, kept as the two
    identifiers it prints. *)
Record line : Type := mk_line { uid1 : Z; uid2 : Z }.

(** The text of a line and of the whole file. *)
Definition line_text (l : line) : string :=
  pretty (uid1 l) +:+ "," +:+ pretty (uid2 l) +:+ String (Ascii.ascii_of_nat 10) EmptyString.

Definition file_text (file : list line) : string :=
  foldr (λ l text, line_text l +:+ text) EmptyString file.

(** The [for] loop of [verify_candidates_and_write].  The state threaded
    through the loop is the file content and [num_written]; an exception raised
    by [jaccard_similarity_csr] leaves the lines already appended in the file. *)
Fixpoint verify_loop {rnd : Rounding} (R : pyobj) (candidates : list (Z * Z)) (threshold : Q)
    (file : list line) (num_written : Z) : list line * result Z :=
  match candidates with
  | [] => (file, Ok num_written)
  | (u1, u2) :: rest =>
      match jaccard_similarity_csr R u1 u2 with
      | Err e => (file, Err e)
      | Ok jacc =>
          if Qle_bool threshold jacc then
            let uid1 := u1 + 1 in
            let uid2 := u2 + 1 in
            let '(uid1, uid2) := if uid2 <? uid1 then (uid2, uid1) else (uid1, uid2) in
            verify_loop R rest threshold (file ++ [mk_line uid1 uid2]) (num_written + 1)
          else verify_loop R rest threshold file num_written
      end
  end.

(** [verify_candidates_and_write]: the file is opened in append mode, so the
    lines are added after the content [file] already there.  With
    [close_each_write] set or not the same lines are appended, and [verbose]
    only prints progress; neither is a parameter here. *)
Definition verify_candidates_and_write {rnd : Rounding} (R : pyobj) (candidates : list (Z * Z))
    (threshold : Q) (file : list line) : list line * result Z :=
  verify_loop R candidates threshold file 0.

(** ** The set-level reading of the similarity *)

(** The active columns of row [u] as a finite set, read through
    [get_user_movies]. *)
Definition active_columns (R : csr_matrix) (u : Z) : gset Z :=
  match get_user_movies (Csr R) u with
  | Ok cols => list_to_set cols
  | Err _ => ∅
  end.

(** Jaccard similarity of two finite sets, as the specification words it:
    intersection size over union size, the union size being
    [|S1| + |S2| - |S1 ∩ S2|], and [0] when the union is empty.  This is the
    exact quotient; the function returns it rounded. *)
Definition jaccard_of_sets (S1 S2 : gset Z) : Q :=
  if decide (S1 ∪ S2 = ∅) then 0%Q
  else (inject_Z (Z.of_nat (size (S1 ∩ S2))) /
        inject_Z (Z.of_nat (size S1) + Z.of_nat (size S2) - Z.of_nat (size (S1 ∩ S2))))%Q.

(** The value [verify_candidates_and_write] compares with the threshold. *)
Definition similarity {rnd : Rounding} (R : csr_matrix) (c : Z * Z) : Q :=
  match jaccard_similarity_csr (Csr R) c.1 c.2 with
  | Ok q => q
  | Err _ => 0%Q
  end.

Definition accepted {rnd : Rounding} (R : csr_matrix) (threshold : Q) (c : Z * Z) : bool :=
  Qle_bool threshold (similarity R c).

(** The line of a pair: 1-based identifiers, the smaller one first. *)
Definition line_of_pair (c : Z * Z) : line :=
  mk_line (Z.min c.1 c.2 + 1) (Z.max c.1 c.2 + 1).

(** Lines in ascending order of the pair [(uid1, uid2)]. *)
Definition line_le (l1 l2 : line) : Prop :=
  uid1 l1 < uid1 l2 ∨ (uid1 l1 = uid1 l2 ∧ uid2 l1 ≤ uid2 l2).

Definition ascending (file : list line) : Prop := StronglySorted line_le file.

Definition in_range (R : csr_matrix) (u : Z) : Prop :=
  0 ≤ u < Z.of_nat (n_rows R).

(** The stored segment of row [u]. *)
Definition row_cols (R : csr_matrix) (u : nat) : list Z :=
  np_slice (indices R) (nth u (indptr R) 0) (nth (S u) (indptr R) 0).

Definition pair_in_range (R : csr_matrix) (c : Z * Z) : Prop :=
  in_range R c.1 ∧ in_range R c.2.


(** ** Fixed-width integers *)

(** Two's-complement wrap of an integer to 64 and to 32 bits. *)
Definition wrap64 (x : Z) : Z := (x + 2 ^ 63) mod 2 ^ 64 - 2 ^ 63.
Definition wrap32 (x : Z) : Z := (x + 2 ^ 31) mod 2 ^ 32 - 2 ^ 31.

Definition int32_range (x : Z) : Prop := - 2 ^ 31 ≤ x < 2 ^ 31.

(** ** The two-dimensional array returned by [compute_minhash_signatures]
    and read by [lsh_candidate_pairs] *)

(** A numpy array is either two-dimensional, with [shape = (rows, columns)]
    and its rows, or of another dimension ([ndim ≠ 2]). *)
Inductive ndarray : Type :=
| Array2 (shape0 shape1 : nat) (rows : list (list Z))
| ArrayOther (ndim : nat).

(** ** The random generator *)

(** [numpy.random.Generator] is a library object.  Its interface here: a
    state seeded from an integer, and one bounded draw from [low, high) that
    returns the next state. *)
Class Generator (G : Type) : Type := {
  seed_state : Z → G;
  next_integer : G → Z → Z → Z * G
}.

(** The contract of the library: a draw from [low, high) lies in it. *)
Class GeneratorSound (G : Type) `{Generator G} : Prop :=
  next_integer_range :
    ∀ (g : G) (low high : Z), low < high → low ≤ (next_integer g low high).1 < high.

(** [np.random.default_rng(seed)]; a negative seed is refused. *)
Definition default_rng {G : Type} `{Generator G} (seed : Z) : result G :=
  if seed <? 0 then Err ValueError else Ok (seed_state seed).

Fixpoint draw_integers {G : Type} `{Generator G} (n : nat) (g : G) (low high : Z) : list Z * G :=
  match n with
  | O => ([], g)
  | S n' =>
      let '(x, g1) := next_integer g low high in
      let '(xs, g2) := draw_integers n' g1 low high in
      (x :: xs, g2)
  end.

(** [rng.integers(low, high, size=size)]: [size] draws from [low, high); a
    negative [size] is refused. *)
Definition integers {G : Type} `{Generator G} (g : G) (low high size : Z) : result (list Z * G) :=
  if size <? 0 then Err ValueError else Ok (draw_integers (Z.to_nat size) g low high).

(** A linear congruential generator, used to run the functions on concrete
    inputs. *)
Definition lcg_next (g low high : Z) : Z * Z :=
  (low + g mod (high - low), (6364136223846793005 * g + 1442695040888963407) mod 2 ^ 64).

#[global] Instance lcg_generator : Generator Z :=
  {| seed_state := λ seed, seed; next_integer := lcg_next |}.

(** ** [src/minhash.py] *)

Definition hash_family : Type := list Z * list Z * Z.

Definition generate_hash_functions {G : Type} `{Generator G}
    (num_hashes : Z) (max_value : Z) (rng : G) : result (hash_family * G) :=
  let p := 2000003 in
  '(a, rng1) ← integers rng 1 p num_hashes;
  '(b, rng2) ← integers rng1 0 p num_hashes;
  Ok ((a, b, p), rng2).

(** One entry of the table [h_vals], computed in [int64]. *)
Definition h_val (p a b m : Z) : Z := wrap64 (wrap64 (a * m) + b) mod p.

(** [h_vals = (a[:, None] * movie_ids[None, :] + b[:, None]) % p]. *)
Definition hash_table (p : Z) (a b : list Z) (movie_ids : list Z) : list (list Z) :=
  zip_with (λ ai bi, map (h_val p ai bi) movie_ids) a b.

(** An index of an index array used on an axis of length [n]. *)
Definition axis_index (n : nat) (c : Z) : result nat :=
  let len := Z.of_nat n in
  if (0 <=? c) && (c <? len) then Ok (Z.to_nat c)
  else if (- len <=? c) && (c <? 0) then Ok (Z.to_nat (c + len))
  else Err IndexError.

(** The minimum of a non-empty row of [user_hashes]. *)
Definition row_min (l : list Z) : Z :=
  match l with
  | [] => 0
  | x :: l' => fold_left Z.min l' x
  end.

(** [h_vals[:, user_movies].min(axis=1)], in [int64]. *)
Definition minhash_values (h_vals : list (list Z)) (cols : list nat) : list Z :=
  map (λ h_row, row_min (map (λ c, nth c h_row 0) cols)) h_vals.

(** The body of the loop over the users: row [u] of [signatures]. *)
Definition signature_row (R : csr_matrix) (num_hashes p : Z) (h_vals : list (list Z))
    (u : nat) : result (list Z) :=
  start ← np_index (indptr R) (Z.of_nat u);
  stop ← np_index (indptr R) (Z.of_nat u + 1);
  let user_movies := np_slice (indices R) start stop in
  if (length user_movies =? 0)%nat then Ok (replicate (Z.to_nat num_hashes) (wrap32 (p + 1)))
  else
    cols ← mapM (axis_index (n_cols R)) user_movies;
    Ok (map wrap32 (minhash_values h_vals cols)).

(** [compute_minhash_signatures]; [verbose] only prints and is not a
    parameter here. *)
Definition compute_minhash_signatures {G : Type} `{Generator G}
    (R : pyobj) (num_hashes : Z) (seed : Z) : result ndarray :=
  match R with
  | NotCsr => Err TypeError
  | Csr R =>
      let n_users := n_rows R in
      let n_movies := n_cols R in
      rng ← default_rng seed;
      '((a, b, p), _) ← generate_hash_functions num_hashes (Z.of_nat n_movies) rng;
      let movie_ids := map Z.of_nat (seq 0 n_movies) in
      let h_vals := hash_table p a b movie_ids in
      signatures ← mapM (signature_row R num_hashes p h_vals) (seq 0 n_users);
      Ok (Array2 n_users (Z.to_nat num_hashes) signatures)
  end.

(** The row the loop body stores for user [u], written without the
    [int32] conversion. *)
Definition stored_row (R : csr_matrix) (num_hashes p : Z) (h_vals : list (list Z))
    (u : nat) : list Z :=
  if decide (row_cols R u = []) then replicate (Z.to_nat num_hashes) (p + 1)
  else minhash_values h_vals (map Z.to_nat (row_cols R u)).


(** Trial division by [d, d+1, ...], [fuel] divisors in all. *)
Fixpoint no_divisor_from (n d : Z) (fuel : nat) : bool :=
  match fuel with
  | O => true
  | S fuel' => negb (n mod d =? 0) && no_divisor_from n (d + 1) fuel'
  end.


(** ** [src/lsh.py] *)

(** The four bytes of a 32-bit integer, least significant first. *)
Definition int32_bytes (x : Z) : list Z :=
  let w0 := x mod 2 ^ 32 in
  let w1 := w0 / 256 in
  let w2 := w1 / 256 in
  let w3 := w2 / 256 in
  [w0 mod 256; w1 mod 256; w2 mod 256; w3 mod 256].

(** [_band_key_to_bytes]: the band converted to [int32], then its raw bytes
    (four per value). *)
Definition _band_key_to_bytes (band : list Z) : list Z :=
  flat_map int32_bytes (map wrap32 band).

Definition bucket_key : Type := nat * list Z.

(** The dictionary [buckets], in insertion order. *)
Definition bucket_dict : Type := list (bucket_key * list nat).

(** [if bucket_key not in buckets: buckets[bucket_key] = []] followed by
    [buckets[bucket_key].append(u)]. *)
Fixpoint bucket_append (buckets : bucket_dict) (key : bucket_key) (u : nat) : bucket_dict :=
  match buckets with
  | [] => [(key, [u])]
  | (k, users) :: rest =>
      if decide (k = key) then (k, users ++ [u]) :: rest
      else (k, users) :: bucket_append rest key u
  end.

(** [signatures[u, start:end]]. *)
Definition band_of (rows : list (list Z)) (rows_per_band : Z) (band_idx u : nat) : list Z :=
  let start := Z.of_nat band_idx * rows_per_band in
  let stop := start + rows_per_band in
  np_slice (nth u rows []) start stop.

(** The inner loop [for u in range(n_users)] for one band. *)
Definition fill_band (rows : list (list Z)) (n_users : nat) (rows_per_band : Z)
    (buckets : bucket_dict) (band_idx : nat) : bucket_dict :=
  fold_left
    (λ buckets u,
       let band := band_of rows rows_per_band band_idx u in
       let key_bytes := _band_key_to_bytes band in
       let bucket_key := (band_idx, key_bytes) in
       bucket_append buckets bucket_key u)
    (seq 0 n_users) buckets.

(** The outer loop [for band_idx in range(num_bands)]. *)
Definition build_buckets (rows : list (list Z)) (n_users : nat) (rows_per_band : Z)
    (num_bands : nat) : bucket_dict :=
  fold_left (fill_band rows n_users rows_per_band) (seq 0 num_bands) [].

(** [candidates.add(pair)] on a set kept in first-insertion order. *)
Definition set_add (candidates : list (nat * nat)) (pair : nat * nat) : list (nat * nat) :=
  if decide (pair ∈ candidates) then candidates else candidates ++ [pair].

(** The double loop over one bucket. *)
Definition bucket_pairs (users : list nat) (candidates : list (nat * nat)) : list (nat * nat) :=
  let k := length users in
  fold_left
    (λ candidates i,
       let u1 := nth i users 0%nat in
       fold_left
         (λ candidates j,
            let u2 := nth j users 0%nat in
            let pair := if (u1 <? u2)%nat then (u1, u2) else (u2, u1) in
            set_add candidates pair)
         (seq (i + 1) (k - (i + 1))) candidates)
    (seq 0 k) candidates.

(** The loop over [buckets.items()]. *)
Definition generate_candidates (buckets : bucket_dict) (max_bucket_size : Z) : list (nat * nat) :=
  fold_left
    (λ candidates item,
       let users := item.2 in
       let k := length users in
       if (k <? 2)%nat then candidates
       else if max_bucket_size <? Z.of_nat k then candidates
       else bucket_pairs users candidates)
    buckets [].

(** [lsh_candidate_pairs]; [verbose] only prints and is not a parameter
    here. *)
Definition lsh_candidate_pairs (signatures : ndarray) (rows_per_band : Z)
    (max_bucket_size : Z) : result (list (nat * nat)) :=
  match signatures with
  | ArrayOther _ => Err ValueError
  | Array2 n_users num_hashes rows =>
      if rows_per_band <=? 0 then Err ValueError
      else
        let num_bands := Z.of_nat num_hashes / rows_per_band in
        if num_bands =? 0 then Err ValueError
        else
          let buckets := build_buckets rows n_users rows_per_band (Z.to_nat num_bands) in
          Ok (generate_candidates buckets max_bucket_size)
  end.

(** ** The set-level reading of the banding *)

(** [buckets.get(key)]. *)
Fixpoint bucket_lookup (buckets : bucket_dict) (key : bucket_key) : option (list nat) :=
  match buckets with
  | [] => None
  | (k, users) :: rest => if decide (k = key) then Some users else bucket_lookup rest key
  end.

(** The key under which row [u] is filed in band [band_idx]. *)
Definition key_of (rows : list (list Z)) (rows_per_band : Z) (band_idx u : nat) : bucket_key :=
  (band_idx, _band_key_to_bytes (band_of rows rows_per_band band_idx u)).

(** The sequence of [(key, u)] insertions made by the two nested loops. *)
Definition insertions (rows : list (list Z)) (n_users : nat) (rows_per_band : Z)
    (bands : list nat) : list (bucket_key * nat) :=
  band_idx ← bands; (λ u, (key_of rows rows_per_band band_idx u, u)) <$> seq 0 n_users.

(** The rows whose slice [signatures[u, start:end]] in band [b] is
    [sub_signature]. *)
Definition bucket_members (rows : list (list Z)) (n_users : nat) (rows_per_band : Z)
    (b : nat) (sub_signature : list Z) : list nat :=
  filter (λ u, band_of rows rows_per_band b u = sub_signature) (seq 0 n_users).

(** ** The banding in the words of the specification

    These two definitions do not use the slice of the code: they name the
    columns of a band one by one, and are compared with [band_of] below. *)

(** The sub-signature of row [u] in band [b]: the [rows_per_band] consecutive
    signature values of the row, columns [b * rows_per_band] to
    [b * rows_per_band + rows_per_band - 1]. *)
Definition spec_sub_signature (rows : list (list Z)) (rows_per_band : Z) (b u : nat) : list Z :=
  (λ j, nth (b * Z.to_nat rows_per_band + j) (nth u rows []) 0)
    <$> seq 0 (Z.to_nat rows_per_band).

(** The bucket of [(b, s)]: the rows whose sub-signature in band [b] is
    [s]. *)
Definition spec_bucket (rows : list (list Z)) (n_users : nat) (rows_per_band : Z)
    (b : nat) (s : list Z) : list nat :=
  filter (λ u, spec_sub_signature rows rows_per_band b u = s) (seq 0 n_users).

(** The unordered pair [{u1, u2}] as the set stores it. *)
Definition unordered_pair (u1 u2 : nat) : nat * nat := (u1 `min` u2, u1 `max` u2)%nat.

(** The pair the double loop adds for positions [i] and [j] of a bucket. *)
Definition pair_at (users : list nat) (i j : nat) : nat * nat :=
  let u1 := nth i users 0%nat in
  let u2 := nth j users 0%nat in
  if (u1 <? u2)%nat then (u1, u2) else (u2, u1).

(** A signature matrix as [compute_minhash_signatures] builds it: [shape0]
    rows of [shape1] entries, every entry an [int32]. *)
Definition signature_matrix (shape0 shape1 : nat) (rows : list (list Z)) : Prop :=
  length rows = shape0 ∧
  Forall (λ row, length row = shape1) rows ∧
  Forall (Forall int32_range) rows.

(** The users filed under [key] by a sequence of insertions. *)
Definition filed_under (key : bucket_key) (items : list (bucket_key * nat)) : list nat :=
  (filter (λ item, item.1 = key) items).*2.


(** ** The pipeline of [run_full.py] and [main.py] *)

(** [main]: signatures, candidates, verification.  The candidate set is
    handed to the verifier, which iterates over it; [set_iteration] is the
    order in which a Python [set] with the given insertion history is
    iterated.  The scripts pass [max_bucket_size = 500]. *)
Definition pipeline {G : Type} `{Generator G} {rnd : Rounding}
    (set_iteration : list (nat * nat) → list (nat * nat))
    (R : pyobj) (seed num_hashes rows_per_band max_bucket_size : Z) (threshold : Q)
    (file : list line) : list line * result Z :=
  match compute_minhash_signatures R num_hashes seed with
  | Err e => (file, Err e)
  | Ok signatures =>
      match lsh_candidate_pairs signatures rows_per_band max_bucket_size with
      | Err e => (file, Err e)
      | Ok candidates =>
          verify_candidates_and_write R
            (map (λ c, (Z.of_nat c.1, Z.of_nat c.2)) (set_iteration candidates))
            threshold file
      end
  end.

Definition main {G : Type} `{Generator G} {rnd : Rounding}
    (set_iteration : list (nat * nat) → list (nat * nat))
    (R : pyobj) (seed num_hashes rows_per_band : Z) (threshold : Q)
    (file : list line) : list line * result Z :=
  pipeline set_iteration R seed num_hashes rows_per_band 500 threshold file.

(** ** Further readings of the code *)

(** The arithmetic of [jaccard_similarity_csr] once the two column arrays
    are sliced out: the loop, the two guards and the quotient. *)
Definition similarity_of_columns {rnd : Rounding} (cols1 cols2 : list Z) : Q :=
  let len1 := length cols1 in
  let len2 := length cols2 in
  let intersection := two_pointer (len1 + len2) cols1 cols2 0 0 0 in
  if intersection =? 0 then 0%Q
  else
    let union_size := Z.of_nat len1 + Z.of_nat len2 - intersection in
    if union_size =? 0 then 0%Q
    else fl (inject_Z intersection / inject_Z union_size)%Q.

(** A row index that [indptr[u]] or [indptr[u + 1]] refuses: beyond the last
    row, or too negative to count from the end. *)
Definition index_refused (R : csr_matrix) (u : Z) : Prop :=
  u < - (Z.of_nat (n_rows R) + 1) ∨ Z.of_nat (n_rows R) ≤ u.

(** ** [src/sparse_utils.py]: [user_movie_counts] *)

(** Two's-complement wrap to [w] bits. *)
Definition wrap_bits (w : Z) (x : Z) : Z := (x + 2 ^ (w - 1)) mod 2 ^ w - 2 ^ (w - 1).

(** [np.diff(arr)] on a one-dimensional array of [w]-bit integers:
    [arr[1:] - arr[:-1]], computed in the array's type. *)
Definition np_diff (w : Z) (arr : list Z) : list Z :=
  zip_with (λ a b, wrap_bits w (b - a)) arr (tail arr).

(** [user_movie_counts]; [index_bits] is the width of the integer type of
    [R.indptr] (32 or 64). *)
Definition user_movie_counts (index_bits : Z) (R : pyobj) : result (list Z) :=
  match R with
  | NotCsr => Err TypeError
  | Csr R => Ok (np_diff index_bits (indptr R))
  end.

(** ** [src/data_loader.py] *)

(** [csr_matrix((data, (row_indices, col_indices)), shape=(n_users, n_movies))]
    is the constructor of the sparse library.  Its interface here: the two
    index arrays and the shape; the [data] array (all ones) has no influence on
    the stored structure. *)
Class SparseConstructor : Type :=
  csr_from_coo : list Z → list Z → Z → Z → result csr_matrix.

(** The contract of the library: an index outside the shape is refused with
    [ValueError]; otherwise the matrix has the given shape, is in canonical
    form, and row [u] holds exactly the columns paired with [u]. *)
Class SparseConstructorSound {ctor : SparseConstructor} : Prop := {
  csr_from_coo_refused :
    ∀ rows cols n m,
      Exists (λ r, r < 0 ∨ n ≤ r) rows ∨ Exists (λ c, c < 0 ∨ m ≤ c) cols →
      csr_from_coo rows cols n m = Err ValueError;
  csr_from_coo_built :
    ∀ rows cols n m,
      length rows = length cols → 0 ≤ n → 0 ≤ m →
      Forall (λ r, 0 ≤ r < n) rows → Forall (λ c, 0 ≤ c < m) cols →
      ∃ R, csr_from_coo rows cols n m = Ok R ∧
           n_rows R = Z.to_nat n ∧ n_cols R = Z.to_nat m ∧ csr_wf R = true ∧
           ∀ u c, (u < n_rows R)%nat →
                  c ∈ row_cols R u ↔ (Z.of_nat u, c) ∈ zip rows cols
}.

(** [load_ratings_npy], applied to the array that [np.load(path)] returns:
    the shape check and the conversion to [int32]. *)
Definition load_ratings_npy (loaded : ndarray) : result ndarray :=
  match loaded with
  | ArrayOther _ => Err ValueError
  | Array2 n columns rows =>
      if (columns =? 3)%nat then Ok (Array2 n columns (map (map wrap32) rows))
      else Err ValueError
  end.

(** [ratings[:, j]]. *)
Definition column (ratings : ndarray) (j : nat) : result (list Z) :=
  match ratings with
  | ArrayOther _ => Err IndexError
  | Array2 n columns rows =>
      if (j <? columns)%nat then Ok (map (λ row, nth j row 0) rows) else Err IndexError
  end.

(** [arr.max()]: the maximum of a one-dimensional array, refused when the
    array is empty. *)
Definition np_max (arr : list Z) : result Z :=
  match arr with
  | [] => Err ValueError
  | x :: arr' => Ok (fold_left Z.max arr' x)
  end.

Definition infer_num_users_movies (ratings : ndarray) : result (Z * Z) :=
  user_ids ← column ratings 0;
  movie_ids ← column ratings 1;
  n_users ← np_max user_ids;
  n_movies ← np_max movie_ids;
  Ok (n_users, n_movies).

(** [build_user_movie_matrix], on [int32] identifiers. *)
Definition build_user_movie_matrix {ctor : SparseConstructor}
    (ratings : ndarray) (n_users n_movies : Z) : result csr_matrix :=
  user_ids ← column ratings 0;
  movie_ids ← column ratings 1;
  let row_indices := map (λ x, wrap32 (x - 1)) user_ids in
  let col_indices := map (λ x, wrap32 (x - 1)) movie_ids in
  csr_from_coo row_indices col_indices n_users n_movies.

Definition load_user_movie_matrix {ctor : SparseConstructor}
    (loaded : ndarray) : result (csr_matrix * Z * Z) :=
  ratings ← load_ratings_npy loaded;
  '(n_users, n_movies) ← infer_num_users_movies ratings;
  R ← build_user_movie_matrix ratings n_users n_movies;
  Ok (R, n_users, n_movies).

(** *** A constructor to run the loader on concrete inputs *)

(** Insertion into a strictly increasing list, without repetition. *)
Fixpoint insert_column (c : Z) (l : list Z) : list Z :=
  match l with
  | [] => [c]
  | x :: l' =>
      if c <? x then c :: l
      else if c =? x then l
      else x :: insert_column c l'
  end.

(** The columns paired with row [u], increasing and without repetition. *)
Definition coo_row (rows cols : list Z) (u : Z) : list Z :=
  foldr insert_column [] (List.filter (λ rc, rc.1 =? u) (zip rows cols)).*2.

(** The row pointers of consecutive rows stored from position [start]. *)
Fixpoint offsets (start : Z) (rs : list (list Z)) : list Z :=
  start ::
  match rs with
  | [] => []
  | r :: rs' => offsets (start + Z.of_nat (length r)) rs'
  end.

Definition index_outside (n : Z) (r : Z) : bool := (r <? 0) || (n <=? r).

Definition coo_builder : SparseConstructor :=
  λ rows cols n m,
    if existsb (index_outside n) rows || existsb (index_outside m) cols then Err ValueError
    else
      let rs := map (λ u, coo_row rows cols (Z.of_nat u)) (seq 0 (Z.to_nat n)) in
      Ok (mk_csr (Z.to_nat n) (Z.to_nat m) (offsets 0 rs) (concat rs)).

(** ** Concrete inputs *)

(** Two rows, [{1,2,3,4}] and [{3,4,5,6}], over seven columns. *)
Definition rows_A_B : csr_matrix :=
  mk_csr 2 7 [0; 4; 8] [1; 2; 3; 4; 3; 4; 5; 6].

(** Two rows without any active column. *)
Definition two_empty_rows : csr_matrix :=
  mk_csr 2 1 [0; 0; 0] [].

(** An empty row followed by the row [{0}]. *)
Definition empty_then_single : csr_matrix :=
  mk_csr 2 1 [0; 0; 1] [0].

(** Three rows with the same single active column. *)
Definition three_equal_rows : csr_matrix :=
  mk_csr 3 1 [0; 1; 2; 3] [0; 0; 0].

(** Four rows of two signature values; rows 0, 1 and 3 are equal. *)
Definition four_signatures : list (list Z) := [[1; 2]; [1; 2]; [3; 2]; [1; 2]].

(** Two signature rows that differ in the first column and agree in the
    second. *)
Definition later_band_signatures : list (list Z) := [[1; 5]; [2; 5]].

(** Two rows of three signature values that differ in the last one only. *)
Definition leftover_signatures : list (list Z) := [[1; 2; 7]; [1; 2; 8]].
Definition leftover_signatures' : list (list Z) := [[1; 2; 0]; [1; 2; 0]].

(** Rows [{0, 2}] twice, the second time with the columns stored in another
    order, over three columns. *)
Definition same_set_rows : csr_matrix :=
  mk_csr 2 3 [0; 2; 4] [0; 2; 2; 0].

(** Four ratings [(user, movie, rating)] of two users and three movies. *)
Definition four_ratings : ndarray :=
  Array2 4 3 [[1; 3; 5]; [2; 1; 4]; [1; 1; 2]; [2; 3; 3]].
(** * Properties of [src/jaccard.py] *)

Section TwoPointer.

Lemma strictly_increasing_lookup (l : list Z) :
  strictly_increasing l = true →
  ∀ i j x y, l !! i = Some x → l !! j = Some y → (i < j)%nat → x < y.
Proof.
  induction l as [|a l IH]; intros Hs i j x y Hi Hj Hij; [done|].
  assert (Htl : strictly_increasing l = true).
  { simpl in Hs. destruct l; [done|]. by apply andb_true_iff in Hs as [_ ?]. }
  assert (Hhd : ∀ k z, l !! k = Some z → a < z).
  { clear i j x y Hi Hj Hij. intros k. induction k as [|k IHk]; intros z Hz.
    - destruct l as [|b l]; [done|]. simpl in Hs, Hz.
      apply andb_true_iff in Hs as [Hab _]. inversion Hz; subst. lia.
    - destruct l as [|b l]; [done|].
      assert (Hb : a < b).
      { simpl in Hs. apply andb_true_iff in Hs as [Hab _]. lia. }
      assert (b < z); [|lia].
      apply (IH Htl 0%nat (S k) b z); [done|done|lia]. }
  destruct j as [|j]; [lia|]. destruct i as [|i].
  - simpl in Hi. inversion Hi; subst. by apply (Hhd j).
  - apply (IH Htl i j); [done|done|lia].
Qed.

Lemma list_to_set_drop_lookup (l : list Z) (k : nat) (x : Z) :
  x ∈ (list_to_set (drop k l) : gset Z) ↔ ∃ m, (k ≤ m)%nat ∧ l !! m = Some x.
Proof.
  rewrite elem_of_list_to_set, list_elem_of_lookup. split.
  - intros [m Hm]. rewrite lookup_drop in Hm. exists (k + m)%nat. split; [lia|done].
  - intros (m & Hkm & Hm). exists (m - k)%nat. rewrite lookup_drop.
    by replace (k + (m - k))%nat with m by lia.
Qed.

Lemma list_to_set_drop_S (l : list Z) (k : nat) (x : Z) :
  l !! k = Some x →
  (list_to_set (drop k l) : gset Z) = {[ x ]} ∪ list_to_set (drop (S k) l).
Proof. intros Hk. by rewrite (drop_S l x k Hk). Qed.

Lemma list_to_set_drop_ge (l : list Z) (k : nat) :
  (length l ≤ k)%nat → (list_to_set (drop k l) : gset Z) = ∅.
Proof. intros Hk. by rewrite drop_ge. Qed.

Variables cols1 cols2 : list Z.
Hypothesis sorted1 : strictly_increasing cols1 = true.
Hypothesis sorted2 : strictly_increasing cols2 = true.

(** Loop invariant of the two-pointer walk: what is still to be counted is
    the intersection of the two unread suffixes. *)
Lemma two_pointer_suffix (fuel i j : nat) (acc : Z) :
  ((length cols1 - i) + (length cols2 - j) ≤ fuel)%nat →
  two_pointer fuel cols1 cols2 i j acc =
  acc + Z.of_nat (size ((list_to_set (drop i cols1) : gset Z) ∩ list_to_set (drop j cols2))).
Proof.
  revert i j acc. induction fuel as [|fuel IH]; intros i j acc Hfuel.
  - simpl. assert (length cols1 ≤ i ∨ length cols2 ≤ j)%nat as [H|H] by lia.
    + rewrite (list_to_set_drop_ge _ _ H), intersection_empty_l_L, size_empty. lia.
    + rewrite (list_to_set_drop_ge _ _ H), intersection_empty_r_L, size_empty. lia.
  - simpl. destruct (Nat.ltb_spec i (length cols1)) as [Hi|Hi]; simpl; cycle 1.
    { rewrite (list_to_set_drop_ge _ _ Hi), intersection_empty_l_L, size_empty. lia. }
    destruct (Nat.ltb_spec j (length cols2)) as [Hj|Hj]; simpl; cycle 1.
    { rewrite (list_to_set_drop_ge _ _ Hj), intersection_empty_r_L, size_empty. lia. }
    destruct (lookup_lt_is_Some_2 _ _ Hi) as [c1 Hc1].
    destruct (lookup_lt_is_Some_2 _ _ Hj) as [c2 Hc2].
    rewrite !nth_lookup, Hc1, Hc2. simpl.
    pose proof (strictly_increasing_lookup _ sorted1) as Hs1.
    pose proof (strictly_increasing_lookup _ sorted2) as Hs2.
    assert (Hgt1 : ∀ x, x ∈ (list_to_set (drop (S i) cols1) : gset Z) → c1 < x).
    { intros x (m & Hm & Hx)%list_to_set_drop_lookup. apply (Hs1 i m); [done|done|lia]. }
    assert (Hgt2 : ∀ x, x ∈ (list_to_set (drop (S j) cols2) : gset Z) → c2 < x).
    { intros x (m & Hm & Hx)%list_to_set_drop_lookup. apply (Hs2 j m); [done|done|lia]. }
    rewrite (list_to_set_drop_S _ _ _ Hc1), (list_to_set_drop_S _ _ _ Hc2).
    set (A := list_to_set (drop (S i) cols1) : gset Z) in *.
    set (B := list_to_set (drop (S j) cols2) : gset Z) in *.
    destruct (Z.eqb_spec c1 c2) as [->|Hne].
    + rewrite IH by lia. fold A B.
      assert (c2 ∉ A ∩ B).
      { intros [HA _]%elem_of_intersection. apply Hgt1 in HA. lia. }
      replace (({[c2]} ∪ A) ∩ ({[c2]} ∪ B)) with ({[c2]} ∪ (A ∩ B)); cycle 1.
      { apply set_eq. intros x.
        rewrite !elem_of_intersection, !elem_of_union, !elem_of_intersection, !elem_of_singleton.
        tauto. }
      rewrite (size_union (C:=gset Z) {[c2]} (A ∩ B)).
      * rewrite size_singleton. lia.
      * intros x ->%elem_of_singleton. done.
    + destruct (Z.ltb_spec c1 c2) as [Hlt|Hge].
      * rewrite IH by lia. fold A. rewrite (list_to_set_drop_S _ _ _ Hc2). fold B.
        replace (({[c1]} ∪ A) ∩ ({[c2]} ∪ B)) with (A ∩ ({[c2]} ∪ B)); [done|].
        apply set_eq. intros x. rewrite !elem_of_intersection, !elem_of_union, !elem_of_singleton.
        split; [tauto|]. intros [[->|HA] [->|HB]]; try tauto. apply Hgt2 in HB. lia.
      * rewrite IH by lia. fold B. rewrite (list_to_set_drop_S _ _ _ Hc1). fold A.
        replace (({[c1]} ∪ A) ∩ ({[c2]} ∪ B)) with (({[c1]} ∪ A) ∩ B); [done|].
        apply set_eq. intros x. rewrite !elem_of_intersection, !elem_of_union, !elem_of_singleton.
        split; [tauto|]. intros [[->|HA] [->|HB]]; try tauto. apply Hgt1 in HA. lia.
Qed.

(** The loop counts the common elements of the two arrays. *)
Lemma two_pointer_counts_intersection :
  two_pointer (length cols1 + length cols2) cols1 cols2 0 0 0 =
  Z.of_nat (size ((list_to_set cols1 : gset Z) ∩ list_to_set cols2)).
Proof. rewrite two_pointer_suffix by lia. by rewrite !drop_0. Qed.

Lemma size_list_to_set_sorted (l : list Z) :
  strictly_increasing l = true → size (list_to_set l : gset Z) = length l.
Proof.
  intros Hs. apply size_list_to_set, NoDup_alt. intros i j x Hi Hj.
  pose proof (strictly_increasing_lookup _ Hs) as H.
  destruct (Nat.lt_total i j) as [Hlt|[Heq|Hgt]]; [|done|].
  - specialize (H i j x x Hi Hj Hlt). lia.
  - specialize (H j i x x Hj Hi Hgt). lia.
Qed.

End TwoPointer.

Lemma exact_rounding_sound : RoundingSound (rnd := exact_rounding).
Proof. split; unfold fl, exact_rounding; [done|done|reflexivity|reflexivity]. Qed.

Section Similarity.
Context {rnd : Rounding} {rnd_sound : RoundingSound}.

Lemma np_index_nat (arr : list Z) (i : nat) :
  (i < length arr)%nat → np_index arr (Z.of_nat i) = Ok (nth i arr 0).
Proof.
  intros Hi. unfold np_index.
  destruct (Z.leb_spec 0 (Z.of_nat i)); [|lia].
  destruct (Z.ltb_spec (Z.of_nat i) (Z.of_nat (length arr))); [|lia].
  simpl. by rewrite Nat2Z.id.
Qed.

Lemma csr_wf_bounds (R : csr_matrix) : csr_wf R = true → csr_bounds R = true.
Proof.
  unfold csr_wf, csr_bounds. intros [Hl Hr]%andb_true_iff.
  apply andb_true_iff. split; [done|].
  rewrite forallb_forall in Hr |- *. intros u Hu. specialize (Hr u Hu).
  unfold csr_row_ok in Hr. by apply andb_true_iff in Hr as [? _].
Qed.

Lemma csr_bounds_length (R : csr_matrix) :
  csr_bounds R = true → length (indptr R) = S (n_rows R).
Proof. intros [H _]%andb_true_iff. by apply Nat.eqb_eq in H. Qed.

Lemma csr_bounds_row_columns (R : csr_matrix) (u : nat) (c : Z) :
  csr_bounds R = true → (u < n_rows R)%nat → c ∈ row_cols R u →
  0 ≤ c < Z.of_nat (n_cols R).
Proof.
  intros [_ H]%andb_true_iff Hu Hc. rewrite forallb_forall in H.
  specialize (H u ltac:(apply in_seq; lia)). unfold csr_row_bounds in H.
  apply andb_true_iff in H as [_ H]. rewrite forallb_forall in H.
  apply list_elem_of_In, H in Hc. lia.
Qed.

Lemma indptr_lookup_bounds (R : csr_matrix) (u : Z) :
  csr_bounds R = true → in_range R u →
  np_index (indptr R) u = Ok (nth (Z.to_nat u) (indptr R) 0) ∧
  np_index (indptr R) (u + 1) = Ok (nth (S (Z.to_nat u)) (indptr R) 0).
Proof.
  intros Hb [Hu0 Hu1]. pose proof (csr_bounds_length R Hb) as Hlen. split.
  - rewrite <- (Z2Nat.id u) at 1 by lia. apply np_index_nat. lia.
  - replace (u + 1) with (Z.of_nat (S (Z.to_nat u))) by lia. apply np_index_nat. lia.
Qed.

Lemma csr_wf_row (R : csr_matrix) (u : nat) :
  csr_wf R = true → (u < n_rows R)%nat → csr_row_ok R u = true.
Proof.
  intros [_ H]%andb_true_iff Hu. rewrite forallb_forall in H.
  apply H, in_seq. lia.
Qed.

Lemma csr_wf_row_sorted (R : csr_matrix) (u : nat) :
  csr_wf R = true → (u < n_rows R)%nat → strictly_increasing (row_cols R u) = true.
Proof.
  intros Hwf Hu. pose proof (csr_wf_row R u Hwf Hu) as H. unfold csr_row_ok in H.
  by apply andb_true_iff in H as [_ H].
Qed.

Lemma indptr_lookup (R : csr_matrix) (u : Z) :
  csr_wf R = true → in_range R u →
  np_index (indptr R) u = Ok (nth (Z.to_nat u) (indptr R) 0) ∧
  np_index (indptr R) (u + 1) = Ok (nth (S (Z.to_nat u)) (indptr R) 0).
Proof.
  intros Hwf Hu. by apply indptr_lookup_bounds; [apply csr_wf_bounds|].
Qed.

Lemma get_user_movies_in_range (R : csr_matrix) (u : Z) :
  csr_wf R = true → in_range R u →
  get_user_movies (Csr R) u = Ok (row_cols R (Z.to_nat u)).
Proof.
  intros Hwf Hu. destruct (indptr_lookup R u Hwf Hu) as [H1 H2].
  unfold get_user_movies. destruct Hu as [Hu0 Hu1].
  destruct (Z.ltb_spec u 0); [lia|]. destruct (Z.leb_spec (Z.of_nat (n_rows R)) u); [lia|].
  simpl. rewrite H1. simpl. rewrite H2. done.
Qed.

Lemma active_columns_in_range (R : csr_matrix) (u : Z) :
  csr_wf R = true → in_range R u →
  active_columns R u = list_to_set (row_cols R (Z.to_nat u)).
Proof. intros Hwf Hu. unfold active_columns. by rewrite get_user_movies_in_range. Qed.

Lemma jaccard_of_sets_comm (S1 S2 : gset Z) :
  jaccard_of_sets S1 S2 = jaccard_of_sets S2 S1.
Proof.
  unfold jaccard_of_sets.
  rewrite (comm_L (∪) S1 S2), (comm_L (∩) S1 S2), (Z.add_comm (Z.of_nat (size S1))). done.
Qed.

Lemma jaccard_of_sets_bounds (S1 S2 : gset Z) :
  (0 <= jaccard_of_sets S1 S2 <= 1)%Q.
Proof.
  unfold jaccard_of_sets. destruct (decide (S1 ∪ S2 = ∅)) as [|Hne]; [done|].
  assert (H1 : (size (S1 ∩ S2) ≤ size S1)%nat) by (apply subseteq_size; set_solver).
  assert (H2 : (size (S1 ∩ S2) ≤ size S2)%nat) by (apply subseteq_size; set_solver).
  assert (H3 : (size S1 + size S2 ≠ 0)%nat).
  { intros H. apply Hne. assert (size S1 = 0%nat ∧ size S2 = 0%nat) as [Ha Hb] by lia.
    apply size_empty_inv in Ha, Hb. set_solver. }
  set (I := Z.of_nat (size (S1 ∩ S2))) in *.
  set (U := Z.of_nat (size S1) + Z.of_nat (size S2) - I).
  assert (HI : 0 ≤ I) by lia. assert (HU : 0 < U) by lia. assert (HIU : I ≤ U) by lia.
  clearbody I U. clear -HI HU HIU.
  assert (HUq : (0 < inject_Z U)%Q) by (unfold Qlt; simpl; lia).
  split.
  - apply Qle_shift_div_l; [done|]. rewrite Qmult_0_l. unfold Qle. simpl. lia.
  - apply Qle_shift_div_r; [done|]. rewrite Qmult_1_l. unfold Qle. simpl. lia.
Qed.

(** The arithmetic after the loop agrees with the set-level quotient. *)
Lemma jaccard_tail_spec (cols1 cols2 : list Z) :
  strictly_increasing cols1 = true → strictly_increasing cols2 = true →
  let intersection := two_pointer (length cols1 + length cols2) cols1 cols2 0 0 0 in
  let union_size := Z.of_nat (length cols1) + Z.of_nat (length cols2) - intersection in
  ((if intersection =? 0 then 0
    else if union_size =? 0 then 0
    else fl (inject_Z intersection / inject_Z union_size))
   == fl (jaccard_of_sets (list_to_set cols1) (list_to_set cols2)))%Q.
Proof.
  intros Hs1 Hs2. simpl.
  rewrite (two_pointer_counts_intersection _ _ Hs1 Hs2).
  unfold jaccard_of_sets.
  rewrite <- (size_list_to_set_sorted _ Hs1), <- (size_list_to_set_sorted _ Hs2).
  set (S1 := list_to_set cols1 : gset Z). set (S2 := list_to_set cols2 : gset Z).
  destruct (Z.eqb_spec (Z.of_nat (size (S1 ∩ S2))) 0) as [H0|H0].
  - rewrite <- fl_zero at 1. apply fl_value.
    destruct (decide (S1 ∪ S2 = ∅)); [done|]. rewrite H0.
    unfold Qdiv. by rewrite Qmult_0_l.
  - assert (H1 : (size (S1 ∩ S2) ≤ size S1)%nat) by (apply subseteq_size; set_solver).
    assert (H2 : (size (S1 ∩ S2) ≤ size S2)%nat) by (apply subseteq_size; set_solver).
    destruct (Z.eqb_spec (Z.of_nat (size S1) + Z.of_nat (size S2) - Z.of_nat (size (S1 ∩ S2))) 0);
      [lia|].
    destruct (decide (S1 ∪ S2 = ∅)) as [He|]; [|done].
    exfalso. apply H0. replace (S1 ∩ S2) with (∅ : gset Z) by set_solver.
    by rewrite size_empty.
Qed.

(** What [jaccard_similarity_csr] returns on two distinct rows of a
    well-formed matrix. *)
Lemma jaccard_similarity_csr_sets (R : csr_matrix) (u1 u2 : Z) :
  csr_wf R = true → in_range R u1 → in_range R u2 → u1 ≠ u2 →
  ∃ q, jaccard_similarity_csr (Csr R) u1 u2 = Ok q ∧
       (q == fl (jaccard_of_sets (active_columns R u1) (active_columns R u2)))%Q.
Proof.
  intros Hwf Hu1 Hu2 Hne.
  rewrite !active_columns_in_range by done.
  destruct (indptr_lookup R u1 Hwf Hu1) as [Ha1 Hb1].
  destruct (indptr_lookup R u2 Hwf Hu2) as [Ha2 Hb2].
  assert (Hs1 : strictly_increasing (row_cols R (Z.to_nat u1)) = true).
  { apply csr_wf_row_sorted; [done|]. unfold in_range in Hu1. lia. }
  assert (Hs2 : strictly_increasing (row_cols R (Z.to_nat u2)) = true).
  { apply csr_wf_row_sorted; [done|]. unfold in_range in Hu2. lia. }
  unfold jaccard_similarity_csr.
  destruct (Z.eqb_spec u1 u2) as [|_]; [done|].
  destruct (u2 <? u1).
  - rewrite Ha2. simpl. rewrite Hb2. simpl. rewrite Ha1. simpl. rewrite Hb1. simpl.
    fold (row_cols R (Z.to_nat u1)) (row_cols R (Z.to_nat u2)).
    pose proof (jaccard_tail_spec _ _ Hs2 Hs1) as Ht. simpl in Ht.
    rewrite jaccard_of_sets_comm.
    repeat case_match; eexists; (split; [reflexivity|]); done.
  - rewrite Ha1. simpl. rewrite Hb1. simpl. rewrite Ha2. simpl. rewrite Hb2. simpl.
    fold (row_cols R (Z.to_nat u1)) (row_cols R (Z.to_nat u2)).
    pose proof (jaccard_tail_spec _ _ Hs1 Hs2) as Ht. simpl in Ht.
    repeat case_match; eexists; (split; [reflexivity|]); done.
Qed.

Lemma jaccard_similarity_csr_self (R : csr_matrix) (u : Z) :
  jaccard_similarity_csr (Csr R) u u = Ok 1%Q.
Proof. unfold jaccard_similarity_csr. by rewrite Z.eqb_refl. Qed.

(** On in-range rows of a well-formed matrix the similarity is computed (no
    exception) and lies in [0, 1]. *)
Lemma jaccard_similarity_csr_total (R : csr_matrix) (u1 u2 : Z) :
  csr_wf R = true → in_range R u1 → in_range R u2 →
  ∃ q, jaccard_similarity_csr (Csr R) u1 u2 = Ok q ∧ (0 <= q <= 1)%Q.
Proof.
  intros Hwf Hu1 Hu2. destruct (decide (u1 = u2)) as [->|Hne].
  - exists 1%Q. split; [apply jaccard_similarity_csr_self|]. split; by unfold Qle.
  - destruct (jaccard_similarity_csr_sets R u1 u2 Hwf Hu1 Hu2 Hne) as (q & Hq & Heq).
    exists q. split; [done|]. rewrite Heq.
    destruct (jaccard_of_sets_bounds (active_columns R u1) (active_columns R u2)) as [H0 H1].
    split.
    + rewrite <- fl_zero. by apply fl_monotone.
    + rewrite <- fl_one. by apply fl_monotone.
Qed.

Lemma line_normalised (u1 u2 : Z) :
  (let '(a, b) := if u2 + 1 <? u1 + 1 then (u2 + 1, u1 + 1) else (u1 + 1, u2 + 1) in
   mk_line a b) = line_of_pair (u1, u2).
Proof.
  unfold line_of_pair. simpl. destruct (Z.ltb_spec (u2 + 1) (u1 + 1)); f_equal; lia.
Qed.

(** The loop appends, in iteration order, the line of every accepted
    candidate and counts them. *)
Lemma verify_loop_spec (R : csr_matrix) (candidates : list (Z * Z)) (threshold : Q) :
  csr_wf R = true → Forall (pair_in_range R) candidates →
  ∀ file num_written,
    verify_loop (Csr R) candidates threshold file num_written =
    (file ++ map line_of_pair (List.filter (accepted R threshold) candidates),
     Ok (num_written + Z.of_nat (length (List.filter (accepted R threshold) candidates)))).
Proof.
  intros Hwf Hall. induction Hall as [|[u1 u2] rest [Hu1 Hu2] _ IH]; intros file n.
  - simpl. by rewrite app_nil_r, Z.add_0_r.
  - destruct (jaccard_similarity_csr_total R u1 u2 Hwf Hu1 Hu2) as (q & Hq & _).
    assert (Hacc : accepted R threshold (u1, u2) = Qle_bool threshold q).
    { unfold accepted, similarity. cbn [fst snd]. by rewrite Hq. }
    cbn [verify_loop List.filter]. rewrite Hq, Hacc.
    destruct (Qle_bool threshold q); [|apply IH].
    pose proof (line_normalised u1 u2) as Hl.
    destruct (u2 + 1 <? u1 + 1); rewrite IH, Hl; cbn [map length];
      rewrite <- app_assoc; cbn [app]; do 2 f_equal; lia.
Qed.

Lemma verify_candidates_and_write_spec (R : csr_matrix) (candidates : list (Z * Z))
    (threshold : Q) (file : list line) :
  csr_wf R = true → Forall (pair_in_range R) candidates →
  verify_candidates_and_write (Csr R) candidates threshold file =
  (file ++ map line_of_pair (List.filter (accepted R threshold) candidates),
   Ok (Z.of_nat (length (List.filter (accepted R threshold) candidates)))).
Proof.
  intros Hwf Hall. unfold verify_candidates_and_write.
  by rewrite (verify_loop_spec R candidates threshold Hwf Hall).
Qed.

Lemma similarity_bounds (R : csr_matrix) (c : Z * Z) :
  csr_wf R = true → pair_in_range R c → (0 <= similarity R c <= 1)%Q.
Proof.
  intros Hwf [H1 H2]. unfold similarity.
  destruct (jaccard_similarity_csr_total R c.1 c.2 Hwf H1 H2) as (q & -> & Hq). done.
Qed.

Lemma filter_accepted_none (R : csr_matrix) (candidates : list (Z * Z)) (threshold : Q) :
  csr_wf R = true → Forall (pair_in_range R) candidates → (1 < threshold)%Q →
  List.filter (accepted R threshold) candidates = [].
Proof.
  intros Hwf Hall Hthr. induction Hall as [|c rest Hc _ IH]; [done|].
  cbn [List.filter]. destruct (accepted R threshold c) eqn:Hacc; [|done].
  exfalso. apply Qle_bool_iff in Hacc.
  destruct (similarity_bounds R c Hwf Hc) as [_ Hle].
  apply (Qlt_not_le _ _ Hthr). by eapply Qle_trans.
Qed.

Lemma filter_accepted_all (R : csr_matrix) (candidates : list (Z * Z)) (threshold : Q) :
  csr_wf R = true → Forall (pair_in_range R) candidates → (threshold < 0)%Q →
  List.filter (accepted R threshold) candidates = candidates.
Proof.
  intros Hwf Hall Hthr. induction Hall as [|c rest Hc _ IH]; [done|].
  cbn [List.filter]. destruct (accepted R threshold c) eqn:Hacc; [by rewrite IH|].
  exfalso. destruct (similarity_bounds R c Hwf Hc) as [Hge _].
  assert (Hle : (threshold <= similarity R c)%Q).
  { apply Qlt_le_weak. by eapply Qlt_le_trans. }
  apply Qle_bool_iff in Hle. unfold accepted in Hacc. congruence.
Qed.

Lemma two_pointer_nil_l (fuel : nat) (cols2 : list Z) (j : nat) (acc : Z) :
  two_pointer fuel [] cols2 0 j acc = acc.
Proof. by destruct fuel. Qed.

Lemma two_pointer_nil_r (fuel : nat) (cols1 : list Z) (i : nat) (acc : Z) :
  two_pointer fuel cols1 [] i 0 acc = acc.
Proof. destruct fuel; [done|]. simpl. by rewrite andb_false_r. Qed.

(** Dropping elements keeps a sequence of lines ascending. *)
Lemma ascending_filter (f : Z * Z → bool) (l : list (Z * Z)) :
  ascending (map line_of_pair l) → ascending (map line_of_pair (List.filter f l)).
Proof.
  unfold ascending. induction l as [|c l IH]; [done|].
  cbn [map List.filter]. rewrite StronglySorted_cons. intros [Hall Hs].
  destruct (f c); [|by apply IH].
  cbn [map]. rewrite StronglySorted_cons. split; [|by apply IH].
  rewrite Forall_forall in Hall |- *. intros x Hx. apply Hall.
  apply list_elem_of_fmap in Hx as (y & -> & Hy).
  apply list_elem_of_fmap. exists y. split; [done|].
  apply list_elem_of_In in Hy. apply filter_In in Hy as [Hy _]. by apply list_elem_of_In.
Qed.

(** *** The file is only appended to *)

(** The lines appended and the outcome do not depend on what the file
    already holds. *)
Lemma verify_loop_frame (R : pyobj) (candidates : list (Z * Z)) (threshold : Q) :
  ∀ file num_written,
    verify_loop R candidates threshold file num_written =
    (file ++ (verify_loop R candidates threshold [] num_written).1,
     (verify_loop R candidates threshold [] num_written).2).
Proof.
  induction candidates as [|[u1 u2] rest IH]; intros file n; cbn [verify_loop].
  - by rewrite app_nil_r.
  - destruct (jaccard_similarity_csr R u1 u2) as [jacc|e]; [|by rewrite app_nil_r].
    destruct (Qle_bool threshold jacc); [|apply IH].
    destruct (u2 + 1 <? u1 + 1); rewrite IH, (IH ([] ++ _)); cbn [fst snd app];
      by rewrite <- app_assoc.
Qed.

(** Only the value of the threshold matters. *)
Lemma verify_loop_threshold (R : pyobj) (candidates : list (Z * Z)) (threshold1 threshold2 : Q) :
  (threshold1 == threshold2)%Q →
  ∀ file num_written,
    verify_loop R candidates threshold1 file num_written =
    verify_loop R candidates threshold2 file num_written.
Proof.
  intros Heq. induction candidates as [|[u1 u2] rest IH]; intros file n; cbn [verify_loop]; [done|].
  destruct (jaccard_similarity_csr R u1 u2) as [jacc|e]; [|done].
  assert (Hle : Qle_bool threshold1 jacc = Qle_bool threshold2 jacc) by (by rewrite Heq).
  rewrite Hle. destruct (Qle_bool threshold2 jacc); [|apply IH].
  destruct (u2 + 1 <? u1 + 1); apply IH.
Qed.

End Similarity.

(** * Properties of [src/minhash.py] *)

Lemma wrap32_id (x : Z) : int32_range x → wrap32 x = x.
Proof.
  unfold int32_range, wrap32. intros Hx.
  rewrite Z.mod_small by lia. lia.
Qed.

#[global] Instance lcg_generator_sound : GeneratorSound Z.
Proof.
  intros g low high Hlt. simpl.
  pose proof (Z.mod_pos_bound g (high - low)). lia.
Qed.

(** *** The modulus is prime *)

Lemma no_divisor_from_sound (n : Z) (fuel : nat) :
  ∀ d, 0 < d → no_divisor_from n d fuel = true →
       ∀ k, d ≤ k < d + Z.of_nat fuel → ¬ (k | n).
Proof.
  induction fuel as [|fuel IH]; intros d Hd Hno k Hk Hdiv; [lia|].
  simpl in Hno. apply andb_true_iff in Hno as [Hhd Htl].
  destruct (decide (k = d)) as [->|Hne].
  - apply Z.mod_divide in Hdiv; [|lia]. rewrite Hdiv in Hhd. done.
  - apply (IH (d + 1) ltac:(lia) Htl k); [lia|done].
Qed.

Lemma prime_by_trial_division (n : Z) (bound : nat) :
  1 < n → n < (2 + Z.of_nat bound) * (2 + Z.of_nat bound) →
  no_divisor_from n 2 bound = true → prime n.
Proof.
  intros Hn Hsq Hno. apply prime_alt. split; [done|].
  intros k Hk [q Hq].
  pose proof (no_divisor_from_sound n bound 2 ltac:(lia) Hno) as Hnd.
  assert (Hq1 : 1 < q < n) by nia.
  destruct (Z.lt_ge_cases k (2 + Z.of_nat bound)) as [Hsmall|Hbig].
  - apply (Hnd k); [lia|]. by exists q.
  - apply (Hnd q); [nia|]. exists k. lia.
Qed.

Lemma prime_2000003 : prime 2000003.
Proof.
  apply (prime_by_trial_division 2000003 1413); [lia | lia | by vm_compute].
Qed.

(** *** The draws *)

Section Draws.
Context {G : Type} `{GeneratorSound G}.

Lemma draw_integers_length (n : nat) (g : G) (low high : Z) :
  length (draw_integers n g low high).1 = n.
Proof.
  revert g. induction n as [|n IH]; intros g; [done|]. simpl.
  destruct (next_integer g low high) as [x g1].
  specialize (IH g1). destruct (draw_integers n g1 low high) as [xs g2].
  simpl in *. by rewrite IH.
Qed.

Lemma draw_integers_range (n : nat) (g : G) (low high : Z) :
  low < high → Forall (λ x, low ≤ x < high) (draw_integers n g low high).1.
Proof.
  intros Hlt. revert g. induction n as [|n IH]; intros g; [by constructor|]. simpl.
  pose proof (next_integer_range g low high Hlt) as Hx.
  destruct (next_integer g low high) as [x g1].
  specialize (IH g1). destruct (draw_integers n g1 low high) as [xs g2].
  simpl in *. by constructor.
Qed.

Lemma generate_hash_functions_ok (num_hashes max_value : Z) (rng : G) :
  0 ≤ num_hashes →
  ∃ a b rng1 rng2,
    generate_hash_functions num_hashes max_value rng = Ok ((a, b, 2000003), rng2) ∧
    (a, rng1) = draw_integers (Z.to_nat num_hashes) rng 1 2000003 ∧
    (b, rng2) = draw_integers (Z.to_nat num_hashes) rng1 0 2000003 ∧
    length a = Z.to_nat num_hashes ∧ length b = Z.to_nat num_hashes ∧
    Forall (λ x, 1 ≤ x ≤ 2000003 - 1) a ∧ Forall (λ x, 0 ≤ x ≤ 2000003 - 1) b.
Proof.
  intros Hn. unfold generate_hash_functions, integers.
  destruct (Z.ltb_spec num_hashes 0) as [|_]; [lia|]. simpl.
  pose proof (draw_integers_length (Z.to_nat num_hashes) rng 1 2000003) as Hla.
  pose proof (draw_integers_range (Z.to_nat num_hashes) rng 1 2000003 ltac:(lia)) as Hra.
  destruct (draw_integers (Z.to_nat num_hashes) rng 1 2000003) as [a rng1] eqn:Ea. simpl.
  pose proof (draw_integers_length (Z.to_nat num_hashes) rng1 0 2000003) as Hlb.
  pose proof (draw_integers_range (Z.to_nat num_hashes) rng1 0 2000003 ltac:(lia)) as Hrb.
  destruct (draw_integers (Z.to_nat num_hashes) rng1 0 2000003) as [b rng2] eqn:Eb. simpl in *.
  exists a, b, rng1, rng2. rewrite Eb. repeat split; try done.
  - eapply Forall_impl; [exact Hra|]. simpl. lia.
  - eapply Forall_impl; [exact Hrb|]. simpl. lia.
Qed.

End Draws.

Lemma generate_hash_functions_negative {G : Type} `{Generator G}
    (num_hashes max_value : Z) (rng : G) :
  num_hashes < 0 → generate_hash_functions num_hashes max_value rng = Err ValueError.
Proof.
  intros Hn. unfold generate_hash_functions, integers.
  destruct (Z.ltb_spec num_hashes 0); [done|lia].
Qed.

(** *** The table of hash values and the row minima *)

Lemma h_val_range (p a b m : Z) : 0 < p → 0 ≤ h_val p a b m ≤ p - 1.
Proof.
  intros Hp. unfold h_val.
  pose proof (Z.mod_pos_bound (wrap64 (wrap64 (a * m) + b)) p). lia.
Qed.

Lemma hash_table_length (p : Z) (a b movie_ids : list Z) :
  length a = length b → length (hash_table p a b movie_ids) = length a.
Proof. intros Hab. unfold hash_table. rewrite length_zip_with. lia. Qed.

Lemma hash_table_range (p : Z) (a b movie_ids : list Z) :
  0 < p →
  Forall (Forall (λ x, 0 ≤ x ≤ p - 1)) (hash_table p a b movie_ids).
Proof.
  intros Hp. unfold hash_table. revert b. induction a as [|ai a IH]; intros [|bi b]; simpl;
    try by constructor.
  constructor; [|apply IH].
  apply Forall_fmap, Forall_true. intros m. simpl. by apply h_val_range.
Qed.

Lemma row_min_range (lo hi : Z) (l : list Z) :
  l ≠ [] → Forall (λ x, lo ≤ x ≤ hi) l → lo ≤ row_min l ≤ hi.
Proof.
  destruct l as [|x l]; [done|]. intros _ Hall. simpl.
  apply Forall_cons in Hall as [Hx Hl]. revert x Hx.
  induction Hl as [|y l Hy _ IH]; intros x Hx; simpl; [done|].
  apply IH. lia.
Qed.

Lemma minhash_values_length (h_vals : list (list Z)) (cols : list nat) :
  length (minhash_values h_vals cols) = length h_vals.
Proof. unfold minhash_values. by rewrite length_map. Qed.

Lemma minhash_values_range (p : Z) (h_vals : list (list Z)) (cols : list nat) :
  0 < p → cols ≠ [] →
  Forall (Forall (λ x, 0 ≤ x ≤ p - 1)) h_vals →
  Forall (λ x, 0 ≤ x ≤ p - 1) (minhash_values h_vals cols).
Proof.
  intros Hp Hcols Hall. unfold minhash_values. apply Forall_fmap.
  eapply Forall_impl; [exact Hall|]. intros h_row Hrow. simpl.
  apply row_min_range; [by destruct cols|].
  apply Forall_fmap, Forall_true. intros c. simpl.
  destruct (nth_in_or_default c h_row 0) as [Hin| ->]; [|lia].
  rewrite Forall_forall in Hrow. by apply Hrow, list_elem_of_In.
Qed.

(** *** [mapM] *)

Lemma mapM_ok {A B : Type} (f : A → result B) (g : A → B) (l : list A) :
  Forall (λ x, f x = Ok (g x)) l → mapM f l = Ok (map g l).
Proof.
  induction 1 as [|x l Hx _ IH]; [done|]. simpl. rewrite Hx. simpl. by rewrite IH.
Qed.

Lemma axis_index_in_range (n : nat) (c : Z) :
  0 ≤ c < Z.of_nat n → axis_index n c = Ok (Z.to_nat c).
Proof.
  intros Hc. unfold axis_index.
  destruct (Z.leb_spec 0 c); [|lia]. destruct (Z.ltb_spec c (Z.of_nat n)); [done|lia].
Qed.

(** *** One row of the signature matrix *)

Lemma signature_row_ok (R : csr_matrix) (num_hashes : Z) (h_vals : list (list Z)) (u : nat) :
  csr_bounds R = true → (u < n_rows R)%nat →
  Forall (Forall (λ x, 0 ≤ x ≤ 2000003 - 1)) h_vals →
  signature_row R num_hashes 2000003 h_vals u = Ok (stored_row R num_hashes 2000003 h_vals u).
Proof.
  intros Hwf Hu Hvals.
  assert (Hr : in_range R (Z.of_nat u)) by (unfold in_range; lia).
  destruct (indptr_lookup_bounds R _ Hwf Hr) as [Ha Hb]. rewrite Nat2Z.id in Ha, Hb.
  unfold signature_row, stored_row. rewrite Ha. simpl. rewrite Hb. simpl.
  fold (row_cols R u). destruct (decide (row_cols R u = [])) as [He|Hne].
  - rewrite He. simpl. done.
  - destruct (Nat.eqb_spec (length (row_cols R u)) 0) as [Hl|_].
    { by apply nil_length_inv in Hl. }
    rewrite (mapM_ok _ Z.to_nat); cycle 1.
    { apply Forall_forall. intros c Hc. apply axis_index_in_range.
      by apply (csr_bounds_row_columns R u c Hwf Hu). }
    simpl. f_equal.
    assert (Hrange : Forall (λ x, 0 ≤ x ≤ 2000003 - 1)
                       (minhash_values h_vals (map Z.to_nat (row_cols R u)))).
    { apply minhash_values_range; [lia| |done]. by destruct (row_cols R u). }
    induction Hrange as [|x l Hx _ IH]; [done|]. simpl. rewrite IH. f_equal.
    apply wrap32_id. unfold int32_range. lia.
Qed.

(** *** The whole signature matrix *)

Lemma compute_minhash_signatures_ok {G : Type} `{GeneratorSound G}
    (R : csr_matrix) (num_hashes seed : Z) :
  csr_bounds R = true → 0 ≤ num_hashes → 0 ≤ seed →
  ∃ a b rng1 rng2,
    (a, rng1) = draw_integers (Z.to_nat num_hashes) (seed_state seed) 1 2000003 ∧
    (b, rng2) = draw_integers (Z.to_nat num_hashes) rng1 0 2000003 ∧
    length a = Z.to_nat num_hashes ∧ length b = Z.to_nat num_hashes ∧
    compute_minhash_signatures (Csr R) num_hashes seed =
    Ok (Array2 (n_rows R) (Z.to_nat num_hashes)
          (map (stored_row R num_hashes 2000003
                  (hash_table 2000003 a b (map Z.of_nat (seq 0 (n_cols R)))))
               (seq 0 (n_rows R)))).
Proof.
  intros Hwf Hn Hseed.
  destruct (generate_hash_functions_ok num_hashes (Z.of_nat (n_cols R)) (seed_state seed) Hn)
    as (a & b & rng1 & rng2 & Hgen & Ha & Hb & Hla & Hlb & _ & _).
  exists a, b, rng1, rng2. repeat split; try done.
  unfold compute_minhash_signatures, default_rng.
  destruct (Z.ltb_spec seed 0) as [|_]; [lia|]. simpl. rewrite Hgen. simpl.
  rewrite (mapM_ok _ (stored_row R num_hashes 2000003
                        (hash_table 2000003 a b (map Z.of_nat (seq 0 (n_cols R)))))); [done|].
  apply Forall_forall. intros u Hu%list_elem_of_In%in_seq.
  apply signature_row_ok; [done|lia|]. by apply hash_table_range.
Qed.

Lemma stored_row_length (R : csr_matrix) (num_hashes p : Z) (h_vals : list (list Z)) (u : nat) :
  length h_vals = Z.to_nat num_hashes →
  length (stored_row R num_hashes p h_vals u) = Z.to_nat num_hashes.
Proof.
  intros Hl. unfold stored_row. destruct (decide (row_cols R u = [])).
  - by rewrite length_replicate.
  - by rewrite minhash_values_length.
Qed.

(** The shape of what [compute_minhash_signatures] returns. *)
Lemma compute_minhash_signatures_shape {G : Type} `{Generator G}
    (R : pyobj) (num_hashes seed : Z) (signatures : ndarray) :
  compute_minhash_signatures R num_hashes seed = Ok signatures →
  ∃ R' rows, R = Csr R' ∧ signatures = Array2 (n_rows R') (Z.to_nat num_hashes) rows.
Proof.
  destruct R as [R'|]; [|done]. unfold compute_minhash_signatures.
  destruct (default_rng seed) as [rng|e]; [|done]. simpl.
  destruct (generate_hash_functions num_hashes (Z.of_nat (n_cols R')) rng)
    as [[[[a b] p] rng']|e]; [|done]. simpl.
  destruct (mapM _ _) as [rows|e]; [|done]. simpl. intros [= <-]. eauto.
Qed.


(** * Properties of [src/lsh.py] *)

(** *** The band key *)

Lemma int32_bytes_inj (x y : Z) :
  int32_range x → int32_range y → int32_bytes x = int32_bytes y → x = y.
Proof.
  unfold int32_range, int32_bytes. intros Hx Hy Heq.
  injection Heq as H0 H1 H2 H3.
  change (2 ^ 32) with 4294967296 in *. change (2 ^ 31) with 2147483648 in *.
  Z.div_mod_to_equations. lia.
Qed.

Lemma int32_bytes_app_inj (x y : Z) (r1 r2 : list Z) :
  int32_bytes x ++ r1 = int32_bytes y ++ r2 → int32_bytes x = int32_bytes y ∧ r1 = r2.
Proof.
  unfold int32_bytes. cbn [app]. intros Heq.
  injection Heq as H0 H1 H2 H3 Hr. by rewrite H0, H1, H2, H3, Hr.
Qed.

(** On [int32] values the key determines the band. *)
Lemma band_key_inj (band1 band2 : list Z) :
  Forall int32_range band1 → Forall int32_range band2 →
  _band_key_to_bytes band1 = _band_key_to_bytes band2 → band1 = band2.
Proof.
  unfold _band_key_to_bytes. intros H1. revert band2.
  induction H1 as [|x band1 Hx _ IH]; intros band2 H2 Heq.
  - destruct H2 as [|y band2 Hy _]; [done|].
    cbn [map flat_map] in Heq. unfold int32_bytes in Heq. discriminate Heq.
  - destruct H2 as [|y band2 Hy H2].
    { cbn [map flat_map] in Heq. unfold int32_bytes in Heq. discriminate Heq. }
    cbn [map flat_map] in Heq.
    apply int32_bytes_app_inj in Heq as [Hxy Hrest].
    rewrite !wrap32_id in Hxy by done.
    f_equal; [by apply int32_bytes_inj | by apply IH].
Qed.

Lemma np_slice_Forall {A : Type} (P : A → Prop) (l : list A) (start stop : Z) :
  Forall P l → Forall P (np_slice l start stop).
Proof. intros H. unfold np_slice. by apply Forall_take, Forall_drop. Qed.

Lemma band_of_int32 (rows : list (list Z)) (rows_per_band : Z) (b u : nat) :
  Forall (Forall int32_range) rows → Forall int32_range (band_of rows rows_per_band b u).
Proof.
  intros Hrows. unfold band_of. apply np_slice_Forall.
  destruct (nth_in_or_default u rows []) as [Hin| ->]; [|by constructor].
  rewrite Forall_forall in Hrows. by apply Hrows, list_elem_of_In.
Qed.

Lemma key_of_eq (rows : list (list Z)) (rows_per_band : Z) (b b' u u' : nat) :
  Forall (Forall int32_range) rows →
  key_of rows rows_per_band b u = key_of rows rows_per_band b' u' ↔
  b = b' ∧ band_of rows rows_per_band b u = band_of rows rows_per_band b' u'.
Proof.
  intros Hrows. unfold key_of. split.
  - intros Heq. injection Heq as -> Hk. split; [done|].
    apply band_key_inj; [by apply band_of_int32..|done].
  - by intros [-> ->].
Qed.

(** *** The dictionary of buckets *)

Lemma bucket_lookup_append (buckets : bucket_dict) (key key' : bucket_key) (u : nat) :
  bucket_lookup (bucket_append buckets key u) key' =
  if decide (key = key') then Some (default [] (bucket_lookup buckets key) ++ [u])
  else bucket_lookup buckets key'.
Proof.
  induction buckets as [|[k users] rest IH]; simpl.
  - destruct (decide (key = key')); done.
  - destruct (decide (k = key)) as [->|Hne]; simpl.
    + destruct (decide (key = key')); done.
    + rewrite IH. destruct (decide (k = key')) as [->|]; [|done].
      by destruct (decide (key = key')).
Qed.

Lemma bucket_append_keys (buckets : bucket_dict) (key : bucket_key) (u : nat) :
  ∀ k, k ∈ (bucket_append buckets key u).*1 ↔ k = key ∨ k ∈ buckets.*1.
Proof.
  induction buckets as [|[k0 users] rest IH]; intros k; simpl.
  - rewrite list_elem_of_singleton. set_solver.
  - destruct (decide (k0 = key)) as [->|Hne]; simpl; [set_solver|].
    rewrite !elem_of_cons, IH. tauto.
Qed.

Lemma bucket_append_NoDup (buckets : bucket_dict) (key : bucket_key) (u : nat) :
  NoDup buckets.*1 → NoDup (bucket_append buckets key u).*1.
Proof.
  induction buckets as [|[k0 users] rest IH]; simpl; intros Hnd.
  - apply NoDup_singleton.
  - apply NoDup_cons in Hnd as [Hnotin Hnd].
    destruct (decide (k0 = key)) as [->|Hne]; simpl.
    + by apply NoDup_cons.
    + apply NoDup_cons. split; [|by apply IH].
      rewrite bucket_append_keys. intros [?|?]; done.
Qed.

Lemma bucket_lookup_elem_of (buckets : bucket_dict) (key : bucket_key) (users : list nat) :
  NoDup buckets.*1 →
  (key, users) ∈ buckets ↔ bucket_lookup buckets key = Some users.
Proof.
  induction buckets as [|[k0 us0] rest IH]; simpl; intros Hnd.
  - split; [by intros ?%elem_of_nil|done].
  - apply NoDup_cons in Hnd as [Hnotin Hnd]. rewrite elem_of_cons.
    destruct (decide (k0 = key)) as [->|Hne].
    + split.
      * intros [Heq|Hin]; [by inversion Heq|].
        exfalso. apply Hnotin. apply list_elem_of_fmap. by exists (key, users).
      * intros Heq. left. by inversion Heq.
    + rewrite <- IH by done. split; [|by right].
      intros [Heq|Hin]; [by inversion Heq|done].
Qed.

Lemma fold_bucket_append_lookup (items : list (bucket_key * nat)) :
  ∀ (buckets : bucket_dict) (key : bucket_key),
    bucket_lookup (fold_left (λ d item, bucket_append d item.1 item.2) items buckets) key =
    match bucket_lookup buckets key with
    | Some users => Some (users ++ filed_under key items)
    | None => if decide (filed_under key items = []) then None
              else Some (filed_under key items)
    end.
Proof.
  unfold filed_under.
  induction items as [|[k u] items IH]; intros buckets key; simpl.
  - destruct (bucket_lookup buckets key); [by rewrite app_nil_r|done].
  - rewrite IH, bucket_lookup_append, filter_cons. simpl.
    destruct (decide (k = key)) as [->|Hne]; simpl.
    + destruct (bucket_lookup buckets key); simpl; [by rewrite <- app_assoc|done].
    + done.
Qed.

Lemma fold_bucket_append_NoDup (items : list (bucket_key * nat)) :
  ∀ buckets : bucket_dict,
    NoDup buckets.*1 →
    NoDup (fold_left (λ d item, bucket_append d item.1 item.2) items buckets).*1.
Proof.
  induction items as [|[k u] items IH]; intros buckets Hnd; simpl; [done|].
  by apply IH, bucket_append_NoDup.
Qed.

Lemma fold_left_fmap_fuse {A B C : Type} (f : C → B → C) (g : A → B) (l : list A) (c : C) :
  fold_left f (g <$> l) c = fold_left (λ c x, f c (g x)) l c.
Proof. revert c. induction l as [|x l IH]; intros c; simpl; [done|]. apply IH. Qed.

(** The two nested loops perform the insertions band by band, row by row. *)
Lemma build_buckets_insertions (rows : list (list Z)) (n_users : nat) (rows_per_band : Z)
    (bands : list nat) (buckets : bucket_dict) :
  fold_left (fill_band rows n_users rows_per_band) bands buckets =
  fold_left (λ d item, bucket_append d item.1 item.2)
            (insertions rows n_users rows_per_band bands) buckets.
Proof.
  unfold insertions. revert buckets.
  induction bands as [|b bands IH]; intros buckets; [done|].
  cbn [fold_left mbind list_bind]. rewrite fold_left_app, <- IH. f_equal.
  unfold fill_band. rewrite fold_left_fmap_fuse. done.
Qed.

Lemma filed_under_fmap (g : nat → bucket_key) (key : bucket_key) (us : list nat) :
  filed_under key ((λ u, (g u, u)) <$> us) = filter (λ u, g u = key) us.
Proof.
  unfold filed_under. induction us as [|u us IH]; [done|].
  rewrite fmap_cons, !filter_cons. cbn [fst].
  destruct (decide (g u = key)); [rewrite fmap_cons; cbn [snd]|]; by rewrite IH.
Qed.

Lemma filed_under_app (key : bucket_key) (l1 l2 : list (bucket_key * nat)) :
  filed_under key (l1 ++ l2) = filed_under key l1 ++ filed_under key l2.
Proof. unfold filed_under. by rewrite filter_app, fmap_app. Qed.

Lemma filter_other_band (rows : list (list Z)) (rows_per_band : Z) (b b' : nat)
    (kb : list Z) (us : list nat) :
  b ≠ b' → filter (λ u, key_of rows rows_per_band b' u = (b, kb)) us = [].
Proof.
  intros Hne. induction us as [|u us IH]; [done|].
  rewrite filter_cons_False; [done|]. unfold key_of. congruence.
Qed.

Lemma filed_under_insertions (rows : list (list Z)) (n_users : nat) (rows_per_band : Z)
    (bands : list nat) (b : nat) (kb : list Z) :
  NoDup bands →
  filed_under (b, kb) (insertions rows n_users rows_per_band bands) =
  if decide (b ∈ bands)
  then filter (λ u, key_of rows rows_per_band b u = (b, kb)) (seq 0 n_users)
  else [].
Proof.
  unfold insertions. induction 1 as [|b' bands Hnotin Hnd IH]; [done|].
  cbn [mbind list_bind]. rewrite filed_under_app, filed_under_fmap, IH.
  destruct (decide (b = b')) as [->|Hne].
  - rewrite (decide_True (P := b' ∈ b' :: bands)) by set_solver.
    rewrite (decide_False (P := b' ∈ bands)) by done. apply app_nil_r.
  - replace (filter (λ u, key_of rows rows_per_band b' u = (b, kb)) (seq 0 n_users))
      with (@nil nat); cycle 1.
    { symmetry. by apply filter_other_band. }
    simpl. destruct (decide (b ∈ bands)).
    + rewrite (decide_True (P := b ∈ b' :: bands)) by set_solver. done.
    + rewrite (decide_False (P := b ∈ b' :: bands)) by set_solver. done.
Qed.

(** What the dictionary holds after the two loops: under a key of band [b],
    the rows filed under it in increasing order, and no empty bucket. *)
Lemma build_buckets_lookup (rows : list (list Z)) (n_users : nat) (rows_per_band : Z)
    (num_bands : nat) (b : nat) (kb : list Z) (users : list nat) :
  bucket_lookup (build_buckets rows n_users rows_per_band num_bands) (b, kb) = Some users ↔
  (b < num_bands)%nat ∧ users ≠ [] ∧
  users = filter (λ u, key_of rows rows_per_band b u = (b, kb)) (seq 0 n_users).
Proof.
  unfold build_buckets.
  rewrite build_buckets_insertions, fold_bucket_append_lookup. simpl.
  rewrite filed_under_insertions by apply NoDup_seq.
  destruct (decide (b ∈ seq 0 num_bands)) as [Hin|Hnotin].
  - apply elem_of_seq in Hin.
    destruct (decide (filter (λ u, key_of rows rows_per_band b u = (b, kb)) (seq 0 n_users) = []))
      as [He|Hne].
    + split; [done|]. intros (_ & Hne & ->). done.
    + split.
      * intros [= <-]. split; [lia|done].
      * intros (_ & _ & ->). done.
  - rewrite decide_True by done. split; [done|].
    intros (Hb & _). exfalso. apply Hnotin, elem_of_seq. lia.
Qed.

Lemma build_buckets_NoDup (rows : list (list Z)) (n_users : nat) (rows_per_band : Z)
    (num_bands : nat) :
  NoDup (build_buckets rows n_users rows_per_band num_bands).*1.
Proof.
  unfold build_buckets. rewrite build_buckets_insertions.
  apply fold_bucket_append_NoDup. constructor.
Qed.

(** *** The candidate set *)

Lemma set_add_elem_of (candidates : list (nat * nat)) (pair p : nat * nat) :
  p ∈ set_add candidates pair ↔ p ∈ candidates ∨ p = pair.
Proof.
  unfold set_add. destruct (decide (pair ∈ candidates)) as [Hin|Hnotin].
  - split; [by left|]. intros [?| ->]; done.
  - rewrite elem_of_app, list_elem_of_singleton. done.
Qed.

Lemma set_add_NoDup (candidates : list (nat * nat)) (pair : nat * nat) :
  NoDup candidates → NoDup (set_add candidates pair).
Proof.
  intros Hnd. unfold set_add. destruct (decide (pair ∈ candidates)) as [Hin|Hnotin]; [done|].
  apply NoDup_app. split; [done|]. split; [|apply NoDup_singleton].
  intros x Hx ->%list_elem_of_singleton. done.
Qed.

Section FoldSet.
Context {A : Type}.
Variable F : list (nat * nat) → A → list (nat * nat).
Variable P : A → nat * nat → Prop.
Hypothesis F_elem_of : ∀ s x p, p ∈ F s x ↔ p ∈ s ∨ P x p.
Hypothesis F_NoDup : ∀ s x, NoDup s → NoDup (F s x).

Lemma fold_left_elem_of (l : list A) :
  ∀ s p, p ∈ fold_left F l s ↔ p ∈ s ∨ ∃ x, x ∈ l ∧ P x p.
Proof.
  induction l as [|x l IH]; intros s p; simpl.
  - split; [by left|]. intros [?|(x & []%elem_of_nil & _)]. done.
  - rewrite IH, F_elem_of. split.
    + intros [[?|?]|(y & Hy & ?)]; [by left| |].
      * right. exists x. split; [left|done].
      * right. exists y. split; [by right|done].
    + intros [?|(y & Hy & HP)]; [by left; left|].
      apply elem_of_cons in Hy as [->|Hy]; [by left; right|].
      right. by exists y.
Qed.

Lemma fold_left_NoDup (l : list A) :
  ∀ s, NoDup s → NoDup (fold_left F l s).
Proof. induction l as [|x l IH]; intros s Hs; simpl; [done|]. by apply IH, F_NoDup. Qed.
End FoldSet.

(** The double loop adds the pair of every two positions [i < j]. *)
Lemma bucket_pairs_elem_of (users : list nat) (candidates : list (nat * nat)) (p : nat * nat) :
  p ∈ bucket_pairs users candidates ↔
  p ∈ candidates ∨ ∃ i j, (i < j < length users)%nat ∧ p = pair_at users i j.
Proof.
  unfold bucket_pairs.
  rewrite (fold_left_elem_of _
             (λ i p, ∃ j, (i < j < length users)%nat ∧ p = pair_at users i j)).
  - split; (intros [?|Hex]; [by left|right]).
    + destruct Hex as (i & Hi & j & Hj & ->). by exists i, j.
    + destruct Hex as (i & j & Hij & ->). exists i. split; [apply elem_of_seq; lia|].
      by exists j.
  - intros s i q.
    rewrite (fold_left_elem_of _ (λ j q, q = pair_at users i j)).
    + split; (intros [?|Hex]; [by left|right]).
      * destruct Hex as (j & Hj%elem_of_seq & ->). exists j. split; [lia|done].
      * destruct Hex as (j & Hj & ->). exists j. split; [apply elem_of_seq; lia|done].
    + intros s' j q'. apply set_add_elem_of.
Qed.

Lemma bucket_pairs_NoDup (users : list nat) (candidates : list (nat * nat)) :
  NoDup candidates → NoDup (bucket_pairs users candidates).
Proof.
  unfold bucket_pairs. apply fold_left_NoDup. intros s i Hs.
  apply fold_left_NoDup; [|done]. intros s' j Hs'. by apply set_add_NoDup.
Qed.

Lemma generate_candidates_elem_of (buckets : bucket_dict) (max_bucket_size : Z) (p : nat * nat) :
  p ∈ generate_candidates buckets max_bucket_size ↔
  ∃ item, item ∈ buckets ∧
          (2 ≤ length item.2)%nat ∧ Z.of_nat (length item.2) ≤ max_bucket_size ∧
          ∃ i j, (i < j < length item.2)%nat ∧ p = pair_at item.2 i j.
Proof.
  unfold generate_candidates.
  rewrite (fold_left_elem_of _
             (λ item p, (2 ≤ length item.2)%nat ∧
                        Z.of_nat (length item.2) ≤ max_bucket_size ∧
                        ∃ i j, (i < j < length item.2)%nat ∧ p = pair_at item.2 i j)).
  - split; [|by right]. intros [[]%elem_of_nil|?]. done.
  - intros s item q. simpl.
    destruct (Nat.ltb_spec (length item.2) 2) as [Hk|Hk].
    { split; [by left|]. intros [?|(? & _)]; [done|lia]. }
    destruct (Z.ltb_spec max_bucket_size (Z.of_nat (length item.2))) as [Hbig|Hsmall].
    { split; [by left|]. intros [?|(_ & ? & _)]; [done|lia]. }
    rewrite bucket_pairs_elem_of. split; (intros [?|?]; [by left|right]); tauto.
Qed.

Lemma generate_candidates_NoDup (buckets : bucket_dict) (max_bucket_size : Z) :
  NoDup (generate_candidates buckets max_bucket_size).
Proof.
  unfold generate_candidates. apply fold_left_NoDup; [|constructor].
  intros s item Hs. simpl. repeat case_match; try done. by apply bucket_pairs_NoDup.
Qed.

(** *** Buckets are increasing sequences of row indices *)

Lemma filter_seq_sorted (P : nat → Prop) `{∀ x, Decision (P x)} (n : nat) :
  ∀ s, StronglySorted lt (filter P (seq s n)) ∧
       Forall (λ x, (s ≤ x < s + n)%nat) (filter P (seq s n)).
Proof.
  induction n as [|n IH]; intros s; [split; constructor|].
  destruct (IH (S s)) as [Hs Hb]. cbn [seq]. rewrite filter_cons.
  assert (Hb' : Forall (λ x, (s ≤ x < s + S n)%nat) (filter P (seq (S s) n))).
  { eapply Forall_impl; [exact Hb|]. simpl. lia. }
  destruct (decide (P s)); [|done]. split.
  - apply StronglySorted_cons. split; [|done].
    eapply Forall_impl; [exact Hb|]. simpl. lia.
  - constructor; [lia|done].
Qed.

Lemma StronglySorted_lt_lookup (l : list nat) :
  StronglySorted lt l →
  ∀ i j x y, l !! i = Some x → l !! j = Some y → (i < j)%nat → (x < y)%nat.
Proof.
  induction 1 as [|a l Hs IH Hall]; intros i j x y Hi Hj Hij; [done|].
  destruct j as [|j]; [lia|]. destruct i as [|i]; simpl in *.
  - injection Hi as <-. rewrite Forall_forall in Hall.
    apply Hall, list_elem_of_lookup. by exists j.
  - apply (IH i j); [done|done|lia].
Qed.

(** In an increasing bucket the double loop adds exactly the pairs
    [(u1, u2)] of members with [u1 < u2]. *)
Lemma sorted_bucket_pairs (users : list nat) (p : nat * nat) :
  StronglySorted lt users →
  (∃ i j, (i < j < length users)%nat ∧ p = pair_at users i j) ↔
  p.1 ∈ users ∧ p.2 ∈ users ∧ (p.1 < p.2)%nat.
Proof.
  intros Hs. pose proof (StronglySorted_lt_lookup users Hs) as Hlt. split.
  - intros (i & j & Hij & ->).
    destruct (lookup_lt_is_Some_2 users i ltac:(lia)) as [x Hx].
    destruct (lookup_lt_is_Some_2 users j ltac:(lia)) as [y Hy].
    unfold pair_at. rewrite !nth_lookup, Hx, Hy. simpl.
    assert (x < y)%nat by (apply (Hlt i j); [done|done|lia]).
    destruct (Nat.ltb_spec x y); [|lia]. simpl.
    split; [|split; [|done]]; apply list_elem_of_lookup; eauto.
  - destruct p as [x y]. simpl. intros (Hx & Hy & Hxy).
    apply list_elem_of_lookup in Hx as [i Hi]. apply list_elem_of_lookup in Hy as [j Hj].
    exists i, j. split.
    + split; [|by eapply lookup_lt_Some].
      destruct (Nat.lt_total i j) as [?|[->|Hji]]; [done| |].
      * rewrite Hi in Hj. injection Hj as ->. lia.
      * specialize (Hlt j i y x Hj Hi Hji). lia.
    + unfold pair_at. rewrite !nth_lookup, Hi, Hj. simpl.
      destruct (Nat.ltb_spec x y); [done|lia].
Qed.

(** *** The candidates of a matrix *)

Lemma lsh_candidate_pairs_ok (n_users num_hashes : nat) (rows : list (list Z))
    (rows_per_band max_bucket_size : Z) :
  1 ≤ rows_per_band → 1 ≤ Z.of_nat num_hashes / rows_per_band →
  lsh_candidate_pairs (Array2 n_users num_hashes rows) rows_per_band max_bucket_size =
  Ok (generate_candidates
        (build_buckets rows n_users rows_per_band
           (Z.to_nat (Z.of_nat num_hashes / rows_per_band)))
        max_bucket_size).
Proof.
  intros Hr Hb. unfold lsh_candidate_pairs.
  destruct (Z.leb_spec rows_per_band 0); [lia|].
  destruct (Z.eqb_spec (Z.of_nat num_hashes / rows_per_band) 0); [lia|done].
Qed.

Lemma lsh_candidate_pairs_inv (n_users num_hashes : nat) (rows : list (list Z))
    (rows_per_band max_bucket_size : Z) (candidates : list (nat * nat)) :
  lsh_candidate_pairs (Array2 n_users num_hashes rows) rows_per_band max_bucket_size =
    Ok candidates →
  candidates =
  generate_candidates
    (build_buckets rows n_users rows_per_band
       (Z.to_nat (Z.of_nat num_hashes / rows_per_band)))
    max_bucket_size.
Proof.
  unfold lsh_candidate_pairs.
  destruct (rows_per_band <=? 0); [done|].
  destruct (Z.of_nat num_hashes / rows_per_band =? 0); [done|]. by intros [= <-].
Qed.

(** Membership in the generated set, in terms of the keys. *)
Lemma generated_candidates_by_key (rows : list (list Z)) (n_users num_bands : nat)
    (rows_per_band max_bucket_size : Z) (p : nat * nat) :
  p ∈ generate_candidates (build_buckets rows n_users rows_per_band num_bands) max_bucket_size ↔
  ∃ b kb,
    (b < num_bands)%nat ∧
    (2 ≤ length (filter (λ u, key_of rows rows_per_band b u = (b, kb)) (seq 0 n_users)))%nat ∧
    Z.of_nat (length (filter (λ u, key_of rows rows_per_band b u = (b, kb)) (seq 0 n_users)))
      ≤ max_bucket_size ∧
    p.1 ∈ filter (λ u, key_of rows rows_per_band b u = (b, kb)) (seq 0 n_users) ∧
    p.2 ∈ filter (λ u, key_of rows rows_per_band b u = (b, kb)) (seq 0 n_users) ∧
    (p.1 < p.2)%nat.
Proof.
  rewrite generate_candidates_elem_of.
  pose proof (build_buckets_NoDup rows n_users rows_per_band num_bands) as Hnd.
  split.
  - intros ([[b kb] users] & Hin & Hk2 & Hmax & Hpair). simpl in *.
    apply (bucket_lookup_elem_of _ _ _ Hnd), build_buckets_lookup in Hin as (Hb & _ & Heq).
    apply sorted_bucket_pairs in Hpair; cycle 1.
    { rewrite Heq. apply filter_seq_sorted; apply _. }
    exists b, kb. rewrite <- Heq. tauto.
  - intros (b & kb & Hb & Hk2 & Hmax & H1 & H2 & Hlt).
    set (users := filter (λ u, key_of rows rows_per_band b u = (b, kb)) (seq 0 n_users)) in *.
    exists ((b, kb), users). simpl. split; [|split; [done|split; [done|]]].
    + apply (bucket_lookup_elem_of _ _ _ Hnd), build_buckets_lookup.
      split; [done|]. split; [|done]. intros He. rewrite He in Hk2. simpl in Hk2. lia.
    + apply sorted_bucket_pairs; [|done]. apply filter_seq_sorted; apply _.
Qed.

(** On [int32] entries, the rows sharing the key of row [u0] in band [b] are
    the rows sharing its sub-signature. *)
Lemma key_bucket_is_band_bucket (rows : list (list Z)) (n_users : nat) (rows_per_band : Z)
    (b u0 : nat) :
  Forall (Forall int32_range) rows →
  filter (λ u, key_of rows rows_per_band b u = key_of rows rows_per_band b u0) (seq 0 n_users) =
  bucket_members rows n_users rows_per_band b (band_of rows rows_per_band b u0).
Proof.
  intros Hrows. unfold bucket_members. apply list_filter_iff. intros u.
  rewrite key_of_eq by done. tauto.
Qed.

Lemma band_of_length (n_users num_hashes : nat) (rows : list (list Z)) (rows_per_band : Z)
    (b u : nat) :
  signature_matrix n_users num_hashes rows → 1 ≤ rows_per_band →
  Z.of_nat b < Z.of_nat num_hashes / rows_per_band → (u < n_users)%nat →
  length (band_of rows rows_per_band b u) = Z.to_nat rows_per_band.
Proof.
  intros (Hlen & Hshape & _) Hr Hb Hu.
  assert (Hrow : length (nth u rows []) = num_hashes).
  { rewrite Forall_forall in Hshape. apply Hshape, list_elem_of_In, nth_In. lia. }
  assert (Hfit : (Z.of_nat b + 1) * rows_per_band ≤ Z.of_nat num_hashes).
  { pose proof (Z.mul_div_le (Z.of_nat num_hashes) rows_per_band ltac:(lia)). nia. }
  unfold band_of, np_slice, slice_bound. rewrite Hrow.
  destruct (Z.ltb_spec (Z.of_nat b * rows_per_band) 0); [nia|].
  destruct (Z.ltb_spec (Z.of_nat b * rows_per_band + rows_per_band) 0); [nia|].
  rewrite length_take, length_drop, Hrow. nia.
Qed.

(** A pair [(x, y)] with [x < y] is generated exactly when a bucket of
    admissible size holds both rows. *)
Lemma ordered_candidate_iff (rows : list (list Z)) (n_users num_bands : nat)
    (rows_per_band max_bucket_size : Z) (p : nat * nat) :
  Forall (Forall int32_range) rows → (p.1 < p.2)%nat →
  p ∈ generate_candidates (build_buckets rows n_users rows_per_band num_bands) max_bucket_size ↔
  ∃ b sub_signature,
    (b < num_bands)%nat ∧
    (2 ≤ length (bucket_members rows n_users rows_per_band b sub_signature))%nat ∧
    Z.of_nat (length (bucket_members rows n_users rows_per_band b sub_signature))
      ≤ max_bucket_size ∧
    p.1 ∈ bucket_members rows n_users rows_per_band b sub_signature ∧
    p.2 ∈ bucket_members rows n_users rows_per_band b sub_signature.
Proof.
  intros Hint Hlt. rewrite generated_candidates_by_key. split.
  - intros (b & kb & Hb & Hk2 & Hk & H1 & H2 & _).
    assert (Hkey : key_of rows rows_per_band b p.1 = (b, kb)).
    { by apply list_elem_of_filter in H1 as [? _]. }
    rewrite <- Hkey, key_bucket_is_band_bucket in * by done.
    by exists b, (band_of rows rows_per_band b p.1).
  - intros (b & sub & Hb & Hk2 & Hk & H1 & H2).
    assert (Hsub : band_of rows rows_per_band b p.1 = sub).
    { unfold bucket_members in H1. by apply list_elem_of_filter in H1 as [? _]. }
    exists b, (_band_key_to_bytes sub). rewrite <- Hsub.
    fold (key_of rows rows_per_band b p.1).
    rewrite key_bucket_is_band_bucket, Hsub by done. done.
Qed.

(** The [int32] hypothesis on the entries cannot be dropped: the key is
    built after the conversion to [int32], so two rows whose values differ by
    [2^32] are filed in the same bucket. *)
Remark wide_entries_share_a_bucket :
  band_of [[0]; [4294967296]] 1 0 0 ≠ band_of [[0]; [4294967296]] 1 0 1 ∧
  lsh_candidate_pairs (Array2 2 1 [[0]; [4294967296]]) 1 100 = Ok [(0, 1)%nat].
Proof. split; [by vm_compute | reflexivity]. Qed.

(** *** The slice of the code against the columns of the specification *)

Lemma filter_ext_elem_of {A : Type} (P Q : A → Prop) `{∀ x, Decision (P x)}
    `{∀ x, Decision (Q x)} (l : list A) :
  (∀ x, x ∈ l → P x ↔ Q x) → filter P l = filter Q l.
Proof.
  induction l as [|x l IH]; intros HPQ; [done|].
  rewrite !filter_cons. rewrite IH by (intros y Hy; apply HPQ; by right).
  pose proof (HPQ x ltac:(left)) as Hx.
  destruct (decide (P x)), (decide (Q x)); tauto.
Qed.

(** On a signature matrix the slice [signatures[u, start:end]] of band [b]
    is the list of the columns [b * rows_per_band + j], [j < rows_per_band],
    of row [u]. *)
Lemma band_of_spec_sub_signature (n_users num_hashes : nat) (rows : list (list Z))
    (rows_per_band : Z) (b u : nat) :
  signature_matrix n_users num_hashes rows → 1 ≤ rows_per_band →
  Z.of_nat b < Z.of_nat num_hashes / rows_per_band → (u < n_users)%nat →
  band_of rows rows_per_band b u = spec_sub_signature rows rows_per_band b u.
Proof.
  intros (Hlen & Hshape & _) Hr Hb Hu.
  assert (Hrow : length (nth u rows []) = num_hashes).
  { rewrite Forall_forall in Hshape. apply Hshape, list_elem_of_In, nth_In. lia. }
  assert (Hfit : (Z.of_nat b + 1) * rows_per_band ≤ Z.of_nat num_hashes).
  { pose proof (Z.mul_div_le (Z.of_nat num_hashes) rows_per_band ltac:(lia)). nia. }
  unfold band_of, np_slice, slice_bound, spec_sub_signature. rewrite Hrow.
  destruct (Z.ltb_spec (Z.of_nat b * rows_per_band) 0); [nia|].
  destruct (Z.ltb_spec (Z.of_nat b * rows_per_band + rows_per_band) 0); [nia|].
  set (row := nth u rows []) in *.
  replace (Z.to_nat (Z.min (Z.of_nat b * rows_per_band + rows_per_band) (Z.of_nat num_hashes)
                     - Z.min (Z.of_nat b * rows_per_band) (Z.of_nat num_hashes)))
    with (Z.to_nat rows_per_band) by nia.
  replace (Z.to_nat (Z.min (Z.of_nat b * rows_per_band) (Z.of_nat num_hashes)))
    with (b * Z.to_nat rows_per_band)%nat by nia.
  apply list_eq. intros j. rewrite list_lookup_fmap.
  destruct (decide (j < Z.to_nat rows_per_band)%nat) as [Hj|Hj].
  - rewrite lookup_take_lt, lookup_drop, lookup_seq_lt by lia. simpl.
    destruct (row !! (b * Z.to_nat rows_per_band + j)%nat) as [x|] eqn:Hx.
    + by rewrite (nth_lookup_Some _ _ _ _ Hx).
    + apply lookup_ge_None in Hx. nia.
  - rewrite lookup_take_ge, lookup_seq_ge by lia. done.
Qed.

(** Hence the bucket of the code's slices is the bucket of the
    specification. *)
Lemma bucket_members_spec_bucket (n_users num_hashes : nat) (rows : list (list Z))
    (rows_per_band : Z) (b : nat) (s : list Z) :
  signature_matrix n_users num_hashes rows → 1 ≤ rows_per_band →
  Z.of_nat b < Z.of_nat num_hashes / rows_per_band →
  bucket_members rows n_users rows_per_band b s = spec_bucket rows n_users rows_per_band b s.
Proof.
  intros Hm Hr Hb. unfold bucket_members, spec_bucket. apply filter_ext_elem_of.
  intros u Hu%elem_of_seq.
  rewrite (band_of_spec_sub_signature n_users num_hashes) by (done || lia). done.
Qed.

Lemma spec_sub_signature_eq_iff (rows : list (list Z)) (rows_per_band : Z) (b u1 u2 : nat) :
  spec_sub_signature rows rows_per_band b u1 = spec_sub_signature rows rows_per_band b u2 ↔
  ∀ j, (j < Z.to_nat rows_per_band)%nat →
       nth (b * Z.to_nat rows_per_band + j) (nth u1 rows []) 0 =
       nth (b * Z.to_nat rows_per_band + j) (nth u2 rows []) 0.
Proof.
  unfold spec_sub_signature. split.
  - intros Heq j Hj. apply (f_equal (λ l, l !! j)) in Heq.
    rewrite !list_lookup_fmap, lookup_seq_lt in Heq by done. simpl in Heq. congruence.
  - intros Heq. apply list_eq. intros j. rewrite !list_lookup_fmap.
    destruct (decide (j < Z.to_nat rows_per_band)%nat) as [Hj|Hj].
    + rewrite lookup_seq_lt by done. simpl. f_equal. by apply Heq.
    + by rewrite lookup_seq_ge by lia.
Qed.

Lemma generated_pair_in_range (rows : list (list Z)) (n_users num_bands : nat)
    (rows_per_band max_bucket_size : Z) (p : nat * nat) :
  p ∈ generate_candidates (build_buckets rows n_users rows_per_band num_bands) max_bucket_size →
  (p.1 < p.2 < n_users)%nat.
Proof.
  intros (b & kb & _ & _ & _ & _ & H2 & Hlt)%generated_candidates_by_key.
  apply list_elem_of_filter in H2 as [_ H2%elem_of_seq]. lia.
Qed.


(** * The claims about [src/jaccard.py] *)

(** C1. On a well-formed CSR matrix, [jaccard_similarity_csr] applied to two
    distinct in-range rows returns the size of the intersection of the two
    rows' (strictly increasing) column sets divided by
    [|S1| + |S2| - |S1 ∩ S2|], and [0] when the union is empty; and
    [verify_candidates_and_write] appends exactly the candidates whose
    similarity reaches the threshold, one line per such candidate, as 1-based
    identifiers with the smaller one first. *)
Theorem jaccard_and_verification_correct {rnd : Rounding} {rnd_sound : RoundingSound}
    (R : csr_matrix) :
  csr_wf R = true →
  (∀ u1 u2, in_range R u1 → in_range R u2 → u1 ≠ u2 →
     ∃ cols1 cols2 q,
       get_user_movies (Csr R) u1 = Ok cols1 ∧
       get_user_movies (Csr R) u2 = Ok cols2 ∧
       strictly_increasing cols1 = true ∧ strictly_increasing cols2 = true ∧
       jaccard_similarity_csr (Csr R) u1 u2 = Ok q ∧
       (q == fl (jaccard_of_sets (list_to_set cols1) (list_to_set cols2)))%Q) ∧
  (∀ candidates threshold file,
     Forall (pair_in_range R) candidates →
     verify_candidates_and_write (Csr R) candidates threshold file =
     (file ++ map line_of_pair (List.filter (accepted R threshold) candidates),
      Ok (Z.of_nat (length (List.filter (accepted R threshold) candidates))))).
Proof.
  intros Hwf. split.
  - intros u1 u2 Hu1 Hu2 Hne.
    destruct (jaccard_similarity_csr_sets R u1 u2 Hwf Hu1 Hu2 Hne) as (q & Hq & Heq).
    rewrite !active_columns_in_range in Heq by done.
    exists (row_cols R (Z.to_nat u1)), (row_cols R (Z.to_nat u2)), q.
    unfold in_range in Hu1, Hu2.
    repeat split; try done.
    + by apply get_user_movies_in_range.
    + by apply get_user_movies_in_range.
    + apply csr_wf_row_sorted; [done|lia].
    + apply csr_wf_row_sorted; [done|lia].
  - intros candidates threshold file Hall. by apply verify_candidates_and_write_spec.
Qed.

Lemma jaccard_and_verification_witness :
  csr_wf rows_A_B = true ∧
  (∃ q, jaccard_similarity_csr (rnd := exact_rounding) (Csr rows_A_B) 0 1 = Ok q ∧ (q == 1 # 3)%Q) ∧
  (verify_candidates_and_write (rnd := exact_rounding)
     (Csr rows_A_B) [(1, 0)] (3 # 10) []).1 = [mk_line 1 2] ∧
  (verify_candidates_and_write (rnd := exact_rounding)
     (Csr rows_A_B) [(1, 0)] (1 # 2) []).1 = [].
Proof.
  pose proof (jaccard_and_verification_correct (rnd_sound := exact_rounding_sound)
                rows_A_B eq_refl) as [H1 H2].
  split; [reflexivity|]. split.
  - destruct (H1 0 1) as (cols1 & cols2 & q & _ & _ & _ & _ & Hq & _);
      [unfold in_range; simpl; lia..|].
    exists q. split; [done|]. vm_compute in Hq. inversion Hq. reflexivity.
  - assert (Hall : Forall (pair_in_range rows_A_B) [(1, 0)]).
    { repeat constructor; simpl; lia. }
    rewrite !(H2 _ _ _ Hall). split; reflexivity.
Defined.

(** C4, as the code has it.  On a well-formed CSR matrix, a row without
    active columns has similarity [0] with every other row, whether that row
    is empty or not, and in both argument orders. *)
Theorem jaccard_empty_row_zero {rnd : Rounding} (R : csr_matrix) (u1 u2 : Z) :
  csr_wf R = true → in_range R u1 → in_range R u2 → u1 ≠ u2 →
  get_user_movies (Csr R) u1 = Ok [] →
  jaccard_similarity_csr (Csr R) u1 u2 = Ok 0%Q ∧
  jaccard_similarity_csr (Csr R) u2 u1 = Ok 0%Q.
Proof.
  intros Hwf Hu1 Hu2 Hne Hempty.
  rewrite (get_user_movies_in_range R u1 Hwf Hu1) in Hempty.
  injection Hempty as Hempty. unfold row_cols in Hempty.
  destruct (indptr_lookup R u1 Hwf Hu1) as [Ha1 Hb1].
  destruct (indptr_lookup R u2 Hwf Hu2) as [Ha2 Hb2].
  unfold jaccard_similarity_csr.
  destruct (Z.eqb_spec u1 u2) as [|_]; [done|].
  destruct (Z.eqb_spec u2 u1) as [|_]; [done|].
  split.
  - destruct (u2 <? u1).
    + rewrite Ha2. simpl. rewrite Hb2. simpl. rewrite Ha1. simpl. rewrite Hb1. simpl.
      by rewrite Hempty, two_pointer_nil_r.
    + rewrite Ha1. simpl. rewrite Hb1. simpl. rewrite Ha2. simpl. rewrite Hb2. simpl.
      by rewrite Hempty, two_pointer_nil_l.
  - destruct (u1 <? u2).
    + rewrite Ha1. simpl. rewrite Hb1. simpl. rewrite Ha2. simpl. rewrite Hb2. simpl.
      by rewrite Hempty, two_pointer_nil_l.
    + rewrite Ha2. simpl. rewrite Hb2. simpl. rewrite Ha1. simpl. rewrite Hb1. simpl.
      by rewrite Hempty, two_pointer_nil_r.
Qed.

Lemma jaccard_empty_row_zero_witness :
  get_user_movies (Csr empty_then_single) 0 = Ok [] ∧
  get_user_movies (Csr empty_then_single) 1 = Ok [0] ∧
  jaccard_similarity_csr (rnd := exact_rounding) (Csr empty_then_single) 0 1 = Ok 0%Q ∧
  jaccard_similarity_csr (rnd := exact_rounding) (Csr empty_then_single) 1 0 = Ok 0%Q.
Proof.
  split; [reflexivity|]. split; [reflexivity|].
  apply (jaccard_empty_row_zero (rnd := exact_rounding) empty_then_single 0 1);
    [reflexivity | unfold in_range; simpl; lia | unfold in_range; simpl; lia | lia | reflexivity].
Defined.

(** C4 as stated fails: two distinct rows that are both empty do not have
    similarity [1]. *)
Lemma jaccard_two_empty_rows_not_one :
  ¬ (∀ (R : csr_matrix) (u1 u2 : Z),
       csr_wf R = true → in_range R u1 → in_range R u2 → u1 ≠ u2 →
       get_user_movies (Csr R) u1 = Ok [] → get_user_movies (Csr R) u2 = Ok [] →
       ∃ q, jaccard_similarity_csr (rnd := exact_rounding) (Csr R) u1 u2 = Ok q ∧ (q == 1)%Q).
Proof.
  intros H.
  destruct (H two_empty_rows 0 1) as (q & Hq & Hone);
    [reflexivity | unfold in_range; simpl; lia | unfold in_range; simpl; lia | lia
    | reflexivity | reflexivity |].
  vm_compute in Hq. inversion Hq; subst. discriminate Hone.
Qed.

(** C5, as the code has it.  The lines are appended in the order in which
    the candidates are iterated: the written lines are the lines of the
    accepted candidates in that order, so they are ascending whenever the
    candidates are presented in ascending order of their lines. *)
Theorem verify_writes_in_iteration_order {rnd : Rounding} {rnd_sound : RoundingSound}
    (R : csr_matrix) (candidates : list (Z * Z))
    (threshold : Q) (file : list line) :
  csr_wf R = true → Forall (pair_in_range R) candidates →
  ∃ written,
    (verify_candidates_and_write (Csr R) candidates threshold file).1 = file ++ written ∧
    written = map line_of_pair (List.filter (accepted R threshold) candidates) ∧
    (ascending (map line_of_pair candidates) → ascending written).
Proof.
  intros Hwf Hall. eexists. split; [|split; [reflexivity|]].
  - by rewrite verify_candidates_and_write_spec.
  - apply ascending_filter.
Qed.

Lemma verify_writes_in_iteration_order_witness :
  ∃ written,
    (verify_candidates_and_write (rnd := exact_rounding)
       (Csr three_equal_rows) [(1, 2); (0, 1)] (1 # 2) []).1 = [] ++ written ∧
    written = map line_of_pair
                (List.filter (accepted (rnd := exact_rounding) three_equal_rows (1 # 2))
                   [(1, 2); (0, 1)]) ∧
    (ascending (map line_of_pair [(1, 2); (0, 1)]) → ascending written).
Proof.
  apply (verify_writes_in_iteration_order (rnd_sound := exact_rounding_sound)
           three_equal_rows); [reflexivity|].
  repeat constructor; simpl; lia.
Defined.

(** C5 as stated fails: the written lines need not be ascending. *)
Lemma verify_output_not_sorted :
  ¬ (∀ (R : csr_matrix) (candidates : list (Z * Z)) (threshold : Q),
       csr_wf R = true → Forall (pair_in_range R) candidates →
       ascending (verify_candidates_and_write (rnd := exact_rounding)
                    (Csr R) candidates threshold []).1).
Proof.
  intros H.
  assert (Hall : Forall (pair_in_range three_equal_rows) [(1, 2); (0, 1)]).
  { repeat constructor; simpl; lia. }
  specialize (H three_equal_rows [(1, 2); (0, 1)] (1 # 2) eq_refl Hall).
  assert (Hout : (verify_candidates_and_write (rnd := exact_rounding) (Csr three_equal_rows)
                    [(1, 2); (0, 1)] (1 # 2) []).1 = [mk_line 2 3; mk_line 1 2])
    by (vm_compute; reflexivity).
  unfold ascending in H. rewrite Hout in H. apply StronglySorted_cons in H as [Hhd _].
  apply Forall_cons in Hhd as [Hle _]. unfold line_le in Hle. simpl in Hle. lia.
Qed.

(** C6, as the code has it.  The threshold is not validated.  On a
    well-formed matrix and in-range candidates no error is raised for a
    threshold outside [0, 1]: above [1] every similarity is computed and nothing
    is written; below [0] every candidate is written. *)
Theorem verify_threshold_not_validated {rnd : Rounding} {rnd_sound : RoundingSound}
    (R : csr_matrix) (candidates : list (Z * Z))
    (threshold : Q) (file : list line) :
  csr_wf R = true → Forall (pair_in_range R) candidates →
  ((1 < threshold)%Q →
     verify_candidates_and_write (Csr R) candidates threshold file = (file, Ok 0)) ∧
  ((threshold < 0)%Q →
     verify_candidates_and_write (Csr R) candidates threshold file =
     (file ++ map line_of_pair candidates, Ok (Z.of_nat (length candidates)))).
Proof.
  intros Hwf Hall. rewrite verify_candidates_and_write_spec by done. split; intros Hthr.
  - rewrite filter_accepted_none by done. by rewrite app_nil_r.
  - by rewrite filter_accepted_all.
Qed.

Lemma verify_threshold_not_validated_witness :
  ((1 < 2)%Q →
     verify_candidates_and_write (rnd := exact_rounding) (Csr rows_A_B) [(0, 1)] 2 []
     = ([], Ok 0)) ∧
  ((-1 < 0)%Q →
     verify_candidates_and_write (rnd := exact_rounding) (Csr rows_A_B) [(0, 1)] (-1) [] =
     ([] ++ map line_of_pair [(0, 1)], Ok (Z.of_nat (length [(0, 1)])))).
Proof.
  split.
  - apply (verify_threshold_not_validated (rnd_sound := exact_rounding_sound)
             rows_A_B [(0, 1)] 2 []); [reflexivity|].
    repeat constructor; simpl; lia.
  - apply (verify_threshold_not_validated (rnd_sound := exact_rounding_sound)
             rows_A_B [(0, 1)] (-1) []); [reflexivity|].
    repeat constructor; simpl; lia.
Defined.

(** C6 as stated fails: a threshold below [0] raises nothing, and the
    candidate is written. *)
Lemma verify_accepts_bad_threshold :
  ¬ (∀ (R : csr_matrix) (candidates : list (Z * Z)) (threshold : Q) (file : list line),
       ¬ (0 <= threshold <= 1)%Q →
       ∃ e, verify_candidates_and_write (rnd := exact_rounding) (Csr R) candidates threshold file
            = (file, Err e)).
Proof.
  intros H.
  destruct (H rows_A_B [(0, 1)] (-1)%Q []) as [e He].
  - intros [Hge _]. by vm_compute in Hge.
  - vm_compute in He. discriminate He.
Qed.

(** * The claims about [src/minhash.py] *)

(** What [generate_hash_functions] returns for [num_hashes >= 1]: the
    modulus [2_000_003], which is prime, and as coefficients [num_hashes]
    successive draws of the generator each, every [a_i] in [1, p-1] and every
    [b_i] in [0, p-1]. *)
Lemma hash_family_fixed_prime {G : Type} `{GeneratorSound G}
    (num_hashes max_value : Z) (rng : G) :
  1 ≤ num_hashes →
  ∃ a b p rng1 rng2,
    generate_hash_functions num_hashes max_value rng = Ok ((a, b, p), rng2) ∧
    p = 2000003 ∧ prime p ∧ (max_value ≤ 2000002 → max_value < p) ∧
    (a, rng1) = draw_integers (Z.to_nat num_hashes) rng 1 p ∧
    (b, rng2) = draw_integers (Z.to_nat num_hashes) rng1 0 p ∧
    length a = Z.to_nat num_hashes ∧ length b = Z.to_nat num_hashes ∧
    Forall (λ x, 1 ≤ x ≤ p - 1) a ∧ Forall (λ x, 0 ≤ x ≤ p - 1) b.
Proof.
  intros Hn.
  destruct (generate_hash_functions_ok num_hashes max_value rng ltac:(lia))
    as (a & b & rng1 & rng2 & Hgen & Ha & Hb & Hla & Hlb & Hra & Hrb).
  exists a, b, 2000003, rng1, rng2. split_and!; try done.
  - apply prime_2000003.
  - lia.
Qed.

(** C3.  The comment in [generate_hash_functions] reads "choose a fixed large
    prime > max_value", and the function takes [max_value] for that, but its
    body never reads it: the call gives the same result for every
    [max_value], with the modulus [2_000_003].  For [num_hashes >= 1] and
    every [max_value >= 2_000_003] the call returns, and the modulus it
    returns is not above [max_value]. *)
Theorem hash_family_prime_at_large_max_value {G : Type} `{GeneratorSound G}
    (num_hashes max_value : Z) (rng : G) :
  1 ≤ num_hashes → 2000003 ≤ max_value →
  ∃ a b p rng',
    generate_hash_functions num_hashes max_value rng = Ok ((a, b, p), rng') ∧
    p = 2000003 ∧ ¬ (max_value < p) ∧
    (∀ max_value',
       generate_hash_functions num_hashes max_value' rng = Ok ((a, b, p), rng')).
Proof.
  intros Hn Hmax.
  destruct (generate_hash_functions_ok num_hashes max_value rng ltac:(lia))
    as (a & b & rng1 & rng2 & Hgen & _).
  exists a, b, 2000003, rng2. split_and!; [done|done|lia|].
  intros max_value'. exact Hgen.
Qed.

Lemma hash_family_prime_at_large_max_value_witness :
  ∃ a b p rng',
    generate_hash_functions 1 2000003 (seed_state 0) = Ok ((a, b, p), rng') ∧
    p = 2000003 ∧ ¬ (2000003 < p) ∧
    (∀ max_value',
       generate_hash_functions 1 max_value' (seed_state 0) = Ok ((a, b, p), rng')).
Proof.
  apply (hash_family_prime_at_large_max_value (G:=Z) 1 2000003 (seed_state 0)); lia.
Defined.

(** C7, as the code has it.  [compute_minhash_signatures] raises
    [TypeError] when its argument is not a [csr_matrix]; on a [csr_matrix] a
    negative [num_hashes] ends in the [ValueError] of the generator;
    [num_hashes = 0] is not refused: on every CSR matrix (and a seed the
    generator accepts) the result is a matrix with [n_rows] rows and no
    column. *)
Theorem compute_minhash_signatures_failures {G : Type} `{Generator G} :
  (∀ num_hashes seed,
     compute_minhash_signatures NotCsr num_hashes seed = Err TypeError) ∧
  (∀ R num_hashes seed,
     num_hashes < 0 →
     compute_minhash_signatures (Csr R) num_hashes seed = Err ValueError) ∧
  (∀ R seed,
     csr_bounds R = true → 0 ≤ seed →
     compute_minhash_signatures (Csr R) 0 seed =
     Ok (Array2 (n_rows R) 0 (replicate (n_rows R) []))).
Proof.
  split; [done|]. split.
  - intros R num_hashes seed Hn. unfold compute_minhash_signatures, default_rng.
    destruct (seed <? 0); [done|]. simpl.
    by rewrite generate_hash_functions_negative.
  - intros R seed Hwf Hseed. unfold compute_minhash_signatures, default_rng.
    destruct (Z.ltb_spec seed 0) as [|_]; [lia|]. simpl.
    rewrite (mapM_ok _ (λ _, [])).
    + simpl. do 2 f_equal. generalize (n_rows R) 0%nat. clear.
      intros n. induction n as [|n IH]; intros s; [done|]. simpl. by rewrite IH.
    + apply Forall_forall. intros u Hu%list_elem_of_In%in_seq.
      rewrite signature_row_ok; [|done|lia|by constructor].
      unfold stored_row. by destruct (decide (row_cols R u = [])).
Qed.

Lemma compute_minhash_signatures_failures_witness :
  compute_minhash_signatures (G:=Z) NotCsr 100 42 = Err TypeError ∧
  compute_minhash_signatures (G:=Z) (Csr rows_A_B) (-1) 42 = Err ValueError ∧
  compute_minhash_signatures (G:=Z) (Csr rows_A_B) 0 42 = Ok (Array2 2 0 [[]; []]).
Proof.
  destruct (compute_minhash_signatures_failures (G:=Z)) as (H1 & H2 & H3).
  split; [apply H1|]. split.
  - apply H2. lia.
  - apply (H3 rows_A_B 42); [reflexivity|lia].
Defined.

(** C7 as stated fails: [num_hashes = 0] raises no error. *)
Lemma compute_minhash_signatures_accepts_zero_hashes :
  ¬ ((∀ num_hashes seed,
        compute_minhash_signatures (G:=Z) NotCsr num_hashes seed = Err TypeError) ∧
     (∀ R num_hashes seed,
        num_hashes ≤ 0 →
        ∃ e, compute_minhash_signatures (G:=Z) R num_hashes seed = Err e)).
Proof.
  intros [_ H]. destruct (H (Csr rows_A_B) 0 42 ltac:(lia)) as [e He].
  vm_compute in He. discriminate He.
Qed.

(** C10.  On every CSR matrix (rows delimited by [indptr], columns within
    [0, n_cols), sorted or not), for [num_hashes >= 1] (and a seed the
    generator accepts), the signature matrix is computed, has [n_rows] rows of
    [num_hashes] entries, and in it: every entry of a row with at least one
    active column lies in [0, p-1] with [p = 2_000_003]; every entry of a row
    with no active column is [p + 1]; and every entry is in the [int32] range,
    the stored row being the [int64] values unchanged by the conversion. *)
Theorem signature_entries_bounded {G : Type} `{GeneratorSound G}
    (R : csr_matrix) (num_hashes seed : Z) :
  csr_bounds R = true → 1 ≤ num_hashes → 0 ≤ seed →
  ∃ a b rows,
    compute_minhash_signatures (Csr R) num_hashes seed =
      Ok (Array2 (n_rows R) (Z.to_nat num_hashes) rows) ∧
    length rows = n_rows R ∧
    ∀ u, (u < n_rows R)%nat →
      ∃ row,
        rows !! u = Some row ∧
        length row = Z.to_nat num_hashes ∧
        (row_cols R u ≠ [] → Forall (λ x, 0 ≤ x ≤ 2000003 - 1) row) ∧
        (row_cols R u = [] → Forall (λ x, x = 2000003 + 1) row) ∧
        Forall int32_range row ∧
        row = stored_row R num_hashes 2000003
                (hash_table 2000003 a b (map Z.of_nat (seq 0 (n_cols R)))) u.
Proof.
  intros Hwf Hn Hseed.
  destruct (compute_minhash_signatures_ok R num_hashes seed Hwf ltac:(lia) Hseed)
    as (a & b & rng1 & rng2 & _ & _ & Hla & Hlb & Hsig).
  set (h_vals := hash_table 2000003 a b (map Z.of_nat (seq 0 (n_cols R)))) in *.
  assert (Hvals : Forall (Forall (λ x, 0 ≤ x ≤ 2000003 - 1)) h_vals)
    by (by apply hash_table_range).
  assert (Hlen : length h_vals = Z.to_nat num_hashes).
  { unfold h_vals. rewrite hash_table_length; lia. }
  exists a, b, (map (stored_row R num_hashes 2000003 h_vals) (seq 0 (n_rows R))).
  split; [done|]. split; [by rewrite length_map, length_seq|].
  intros u Hu. exists (stored_row R num_hashes 2000003 h_vals u).
  assert (Hne : row_cols R u ≠ [] →
                Forall (λ x, 0 ≤ x ≤ 2000003 - 1) (stored_row R num_hashes 2000003 h_vals u)).
  { intros Hne. unfold stored_row. destruct (decide (row_cols R u = [])); [done|].
    apply minhash_values_range; [lia| |done]. by destruct (row_cols R u). }
  assert (He : row_cols R u = [] →
               Forall (λ x, x = 2000003 + 1) (stored_row R num_hashes 2000003 h_vals u)).
  { intros He. unfold stored_row. destruct (decide (row_cols R u = [])); [|done].
    by apply Forall_replicate. }
  split; [|split; [|split; [|split; [|split]]]]; try done.
  - rewrite list_lookup_fmap, lookup_seq_lt by done. done.
  - by apply stored_row_length.
  - destruct (decide (row_cols R u = [])) as [Hempty|Hnonempty].
    + eapply Forall_impl; [exact (He Hempty)|]. unfold int32_range. simpl. lia.
    + eapply Forall_impl; [exact (Hne Hnonempty)|]. unfold int32_range. simpl. lia.
Qed.

Lemma signature_entries_bounded_witness :
  ∃ a b rows,
    compute_minhash_signatures (G:=Z) (Csr empty_then_single) 3 42 =
      Ok (Array2 2 (Z.to_nat 3) rows) ∧
    length rows = 2%nat ∧
    ∀ u, (u < 2)%nat →
      ∃ row,
        rows !! u = Some row ∧
        length row = Z.to_nat 3 ∧
        (row_cols empty_then_single u ≠ [] → Forall (λ x, 0 ≤ x ≤ 2000003 - 1) row) ∧
        (row_cols empty_then_single u = [] → Forall (λ x, x = 2000003 + 1) row) ∧
        Forall int32_range row ∧
        row = stored_row empty_then_single 3 2000003
                (hash_table 2000003 a b (map Z.of_nat (seq 0 1))) u.
Proof.
  apply (signature_entries_bounded (G:=Z) empty_then_single 3 42); [reflexivity|lia|lia].
Defined.

(** * The claims about [src/lsh.py] *)

(** C2.  For a signature matrix ([int32] entries), [rows_per_band >= 1] with
    at least one band and [max_bucket_size >= 1], [lsh_candidate_pairs] returns
    a duplicate-free set that contains the pair [{u1, u2}] exactly when some
    band [b] and sub-signature [s] have a bucket of size [k], [2 <= k <=
    max_bucket_size], holding both [u1] and [u2]; every element of the set is
    such a pair; two rows that only meet in buckets larger than
    [max_bucket_size] are not paired.  The buckets are those of the
    specification, [spec_bucket]: the sub-signature of a row in band [b] is
    the list of its columns [b * rows_per_band + j], [j < rows_per_band], and
    the slice the code takes is that list. *)
Theorem lsh_candidates_characterised (n_users num_hashes : nat) (rows : list (list Z))
    (rows_per_band max_bucket_size : Z) :
  signature_matrix n_users num_hashes rows →
  1 ≤ rows_per_band → 1 ≤ Z.of_nat num_hashes / rows_per_band → 1 ≤ max_bucket_size →
  ∃ candidates,
    lsh_candidate_pairs (Array2 n_users num_hashes rows) rows_per_band max_bucket_size
      = Ok candidates ∧
    NoDup candidates ∧
    (∀ u1 u2, u1 ≠ u2 →
       unordered_pair u1 u2 ∈ candidates ↔
       ∃ b s,
         Z.of_nat b < Z.of_nat num_hashes / rows_per_band ∧
         (2 ≤ length (spec_bucket rows n_users rows_per_band b s))%nat ∧
         Z.of_nat (length (spec_bucket rows n_users rows_per_band b s)) ≤ max_bucket_size ∧
         u1 ∈ spec_bucket rows n_users rows_per_band b s ∧
         u2 ∈ spec_bucket rows n_users rows_per_band b s) ∧
    (∀ p, p ∈ candidates → p.1 ≠ p.2 ∧ p = unordered_pair p.1 p.2) ∧
    (∀ u1 u2, u1 ≠ u2 →
       (∀ b s,
          Z.of_nat b < Z.of_nat num_hashes / rows_per_band →
          u1 ∈ spec_bucket rows n_users rows_per_band b s →
          u2 ∈ spec_bucket rows n_users rows_per_band b s →
          max_bucket_size < Z.of_nat (length (spec_bucket rows n_users rows_per_band b s))) →
       unordered_pair u1 u2 ∉ candidates) ∧
    (∀ b u, Z.of_nat b < Z.of_nat num_hashes / rows_per_band → (u < n_users)%nat →
            band_of rows rows_per_band b u = spec_sub_signature rows rows_per_band b u ∧
            length (band_of rows rows_per_band b u) = Z.to_nat rows_per_band).
Proof.
  intros Hm Hr Hb Hmax. pose proof Hm as (_ & _ & Hint).
  eexists. split; [by apply lsh_candidate_pairs_ok|].
  split; [apply generate_candidates_NoDup|].
  set (num_bands := Z.to_nat (Z.of_nat num_hashes / rows_per_band)).
  assert (Hiff : ∀ u1 u2, u1 ≠ u2 →
    unordered_pair u1 u2 ∈ generate_candidates
                             (build_buckets rows n_users rows_per_band num_bands)
                             max_bucket_size ↔
    ∃ b s,
      Z.of_nat b < Z.of_nat num_hashes / rows_per_band ∧
      (2 ≤ length (spec_bucket rows n_users rows_per_band b s))%nat ∧
      Z.of_nat (length (spec_bucket rows n_users rows_per_band b s)) ≤ max_bucket_size ∧
      u1 ∈ spec_bucket rows n_users rows_per_band b s ∧
      u2 ∈ spec_bucket rows n_users rows_per_band b s).
  { intros u1 u2 Hne.
    rewrite (ordered_candidate_iff rows n_users num_bands rows_per_band max_bucket_size)
      by (done || (unfold unordered_pair; simpl; lia)).
    unfold unordered_pair. simpl.
    assert (Hcases : (u1 `min` u2 = u1 ∧ u1 `max` u2 = u2)%nat ∨
                     (u1 `min` u2 = u2 ∧ u1 `max` u2 = u1)%nat) by lia.
    destruct Hcases as [[-> ->]|[-> ->]].
    - split.
      + intros (b & s & Hlt & Hrest). exists b, s.
        assert (Hlt' : Z.of_nat b < Z.of_nat num_hashes / rows_per_band)
          by (unfold num_bands in *; lia).
        rewrite <- (bucket_members_spec_bucket n_users num_hashes) by done. done.
      + intros (b & s & Hlt & Hrest). exists b, s.
        rewrite <- (bucket_members_spec_bucket n_users num_hashes) in Hrest by done.
        split; [unfold num_bands in *; lia|done].
    - split.
      + intros (b & s & Hlt & ? & ? & ? & ?). exists b, s.
        assert (Hlt' : Z.of_nat b < Z.of_nat num_hashes / rows_per_band)
          by (unfold num_bands in *; lia).
        rewrite <- (bucket_members_spec_bucket n_users num_hashes) by done. done.
      + intros (b & s & Hlt & Hrest). exists b, s.
        rewrite <- (bucket_members_spec_bucket n_users num_hashes) in Hrest by done.
        destruct Hrest as (? & ? & ? & ?).
        split; [unfold num_bands in *; lia|done]. }
  split; [exact Hiff|]. split; [|split].
  - intros p (b & kb & _ & _ & _ & _ & _ & Hlt)%generated_candidates_by_key.
    split; [lia|]. destruct p as [x y]. unfold unordered_pair. simpl in *. f_equal; lia.
  - intros u1 u2 Hne Hbig Hin. apply Hiff in Hin as (b & s & Hlt & _ & Hk & H1 & H2); [|done].
    specialize (Hbig b s Hlt H1 H2). lia.
  - intros b u Hlt Hu. split.
    + by apply (band_of_spec_sub_signature n_users num_hashes).
    + by apply (band_of_length n_users num_hashes).
Qed.

Lemma lsh_candidates_characterised_witness :
  ∃ candidates,
    lsh_candidate_pairs (Array2 2 2 later_band_signatures) 1 3 = Ok candidates ∧
    NoDup candidates ∧
    (∀ u1 u2, u1 ≠ u2 →
       unordered_pair u1 u2 ∈ candidates ↔
       ∃ b s,
         Z.of_nat b < Z.of_nat 2 / 1 ∧
         (2 ≤ length (spec_bucket later_band_signatures 2 1 b s))%nat ∧
         Z.of_nat (length (spec_bucket later_band_signatures 2 1 b s)) ≤ 3 ∧
         u1 ∈ spec_bucket later_band_signatures 2 1 b s ∧
         u2 ∈ spec_bucket later_band_signatures 2 1 b s) ∧
    (∀ p, p ∈ candidates → p.1 ≠ p.2 ∧ p = unordered_pair p.1 p.2) ∧
    (∀ u1 u2, u1 ≠ u2 →
       (∀ b s,
          Z.of_nat b < Z.of_nat 2 / 1 →
          u1 ∈ spec_bucket later_band_signatures 2 1 b s →
          u2 ∈ spec_bucket later_band_signatures 2 1 b s →
          3 < Z.of_nat (length (spec_bucket later_band_signatures 2 1 b s))) →
       unordered_pair u1 u2 ∉ candidates) ∧
    (∀ b u, Z.of_nat b < Z.of_nat 2 / 1 → (u < 2)%nat →
            band_of later_band_signatures 1 b u = spec_sub_signature later_band_signatures 1 b u ∧
            length (band_of later_band_signatures 1 b u) = Z.to_nat 1).
Proof.
  apply (lsh_candidates_characterised 2 2 later_band_signatures 1 3).
  - split; [reflexivity|]. split.
    + repeat constructor.
    + unfold int32_range. repeat constructor; simpl; lia.
  - lia.
  - by vm_compute.
  - lia.
Defined.

(** The two rows of [later_band_signatures] differ in band [0] and agree in
    band [1] only: they are paired, through the bucket of band [1]. *)
Remark later_band_is_read :
  lsh_candidate_pairs (Array2 2 2 later_band_signatures) 1 3 = Ok [(0, 1)%nat] ∧
  spec_bucket later_band_signatures 2 1 0 [1] = [0%nat] ∧
  spec_bucket later_band_signatures 2 1 1 [5] = [0; 1]%nat.
Proof. by vm_compute. Qed.

(** C8.  Every pair [(u1, u2)] of the set returned by [lsh_candidate_pairs]
    has [u1 < u2], so no row is paired with itself, and both are row indices of
    the signature matrix. *)
Theorem lsh_candidates_ordered_in_range (n_users num_hashes : nat) (rows : list (list Z))
    (rows_per_band max_bucket_size : Z) (candidates : list (nat * nat)) :
  lsh_candidate_pairs (Array2 n_users num_hashes rows) rows_per_band max_bucket_size
    = Ok candidates →
  ∀ u1 u2, (u1, u2) ∈ candidates →
           (u1 < u2)%nat ∧ u1 ≠ u2 ∧ (u1 < n_users)%nat ∧ (u2 < n_users)%nat.
Proof.
  intros -> %lsh_candidate_pairs_inv u1 u2
    (b & kb & _ & _ & _ & _ & H2 & Hlt)%generated_candidates_by_key.
  simpl in *. apply list_elem_of_filter in H2 as [_ H2%elem_of_seq]. lia.
Qed.

Lemma lsh_candidates_ordered_in_range_witness :
  lsh_candidate_pairs (Array2 4 2 four_signatures) 1 3 = Ok [(0, 1); (0, 3); (1, 3)]%nat ∧
  ∀ u1 u2, (u1, u2) ∈ [(0, 1); (0, 3); (1, 3)]%nat →
           (u1 < u2)%nat ∧ u1 ≠ u2 ∧ (u1 < 4)%nat ∧ (u2 < 4)%nat.
Proof.
  split; [reflexivity|].
  apply (lsh_candidates_ordered_in_range 4 2 four_signatures 1 3). reflexivity.
Defined.
(** * The claim about the whole pipeline *)









(** The two runs: on an empty file, then on the file the first run left. *)
Remark two_runs_on_one_file :
  pipeline (G:=Z) (rnd := exact_rounding) (λ s, s) (Csr three_equal_rows) 1 4 2 100 (1 # 2) []
    = ([mk_line 1 2; mk_line 1 3; mk_line 2 3], Ok 3) ∧
  pipeline (G:=Z) (rnd := exact_rounding) (λ s, s) (Csr three_equal_rows) 1 4 2 100 (1 # 2)
           [mk_line 1 2; mk_line 1 3; mk_line 2 3]
    = ([mk_line 1 2; mk_line 1 3; mk_line 2 3; mk_line 1 2; mk_line 1 3; mk_line 2 3], Ok 3).
Proof. by vm_compute. Qed.

(** * Further properties of [src/jaccard.py] *)

Lemma np_index_outcome (arr : list Z) (i : Z) :
  (∃ v, np_index arr i = Ok v) ∨ np_index arr i = Err IndexError.
Proof. unfold np_index. repeat case_match; eauto. Qed.

Lemma np_index_refused (arr : list Z) (i : Z) :
  i < - Z.of_nat (length arr) ∨ Z.of_nat (length arr) ≤ i →
  np_index arr i = Err IndexError.
Proof.
  intros Hi. unfold np_index.
  destruct (Z.leb_spec 0 i), (Z.ltb_spec i (Z.of_nat (length arr))),
    (Z.leb_spec (- Z.of_nat (length arr)) i), (Z.ltb_spec i 0); simpl; try done; lia.
Qed.

Lemma jaccard_swap {rnd : Rounding} (R : pyobj) (u1 u2 : Z) :
  jaccard_similarity_csr R u1 u2 = jaccard_similarity_csr R u2 u1.
Proof.
  destruct R as [R|]; [|done]. unfold jaccard_similarity_csr.
  destruct (Z.eqb_spec u1 u2) as [->|Hne]; [by rewrite Z.eqb_refl|].
  destruct (Z.eqb_spec u2 u1) as [->|_]; [done|].
  destruct (Z.ltb_spec u2 u1), (Z.ltb_spec u1 u2); try lia; done.
Qed.

(** X1.  [jaccard_similarity_csr] is symmetric in the two row indices, for
    every argument, errors included: the indices are put in increasing order
    before anything is read. *)
Theorem jaccard_similarity_csr_symmetric {rnd : Rounding} (R : pyobj) (u1 u2 : Z) :
  jaccard_similarity_csr R u1 u2 = jaccard_similarity_csr R u2 u1.
Proof. apply jaccard_swap. Qed.

(** What is returned on two distinct rows whose pointers can be read. *)
Lemma jaccard_similarity_csr_columns {rnd : Rounding} (R : csr_matrix) (u1 u2 : Z) :
  csr_bounds R = true → in_range R u1 → in_range R u2 → u1 < u2 →
  jaccard_similarity_csr (Csr R) u1 u2 =
  Ok (similarity_of_columns (row_cols R (Z.to_nat u1)) (row_cols R (Z.to_nat u2))).
Proof.
  intros Hb Hu1 Hu2 Hlt.
  destruct (indptr_lookup_bounds R u1 Hb Hu1) as [Ha1 Hb1].
  destruct (indptr_lookup_bounds R u2 Hb Hu2) as [Ha2 Hb2].
  unfold jaccard_similarity_csr.
  destruct (Z.eqb_spec u1 u2) as [|_]; [lia|].
  destruct (Z.ltb_spec u2 u1); [lia|].
  rewrite Ha1. simpl. rewrite Hb1. simpl. rewrite Ha2. simpl. rewrite Hb2. simpl.
  fold (row_cols R (Z.to_nat u1)) (row_cols R (Z.to_nat u2)).
  unfold similarity_of_columns. by repeat case_match.
Qed.

(** X2.  On a well-formed matrix the similarity of two in-range rows is
    computed without error and lies in [0, 1]. *)
Theorem jaccard_similarity_in_unit_interval {rnd : Rounding} {rnd_sound : RoundingSound}
    (R : csr_matrix) (u1 u2 : Z) :
  csr_wf R = true → in_range R u1 → in_range R u2 →
  ∃ q, jaccard_similarity_csr (Csr R) u1 u2 = Ok q ∧ (0 <= q)%Q ∧ (q <= 1)%Q.
Proof.
  intros Hwf Hu1 Hu2.
  destruct (jaccard_similarity_csr_total R u1 u2 Hwf Hu1 Hu2) as (q & Hq & H0 & H1).
  by exists q.
Qed.

Lemma jaccard_similarity_in_unit_interval_witness :
  ∃ q, jaccard_similarity_csr (rnd := exact_rounding) (Csr rows_A_B) 1 0 = Ok q ∧
       (0 <= q)%Q ∧ (q <= 1)%Q.
Proof.
  apply (jaccard_similarity_in_unit_interval (rnd_sound := exact_rounding_sound) rows_A_B 1 0);
    [reflexivity | unfold in_range; simpl; lia | unfold in_range; simpl; lia].
Defined.

Lemma jaccard_extreme_rows {rnd : Rounding} {rnd_sound : RoundingSound}
    (R : csr_matrix) (u1 u2 : Z) :
  csr_wf R = true → in_range R u1 → in_range R u2 → u1 ≠ u2 →
  (active_columns R u1 = active_columns R u2 → active_columns R u1 ≠ ∅ →
   ∃ q, jaccard_similarity_csr (Csr R) u1 u2 = Ok q ∧ (q == 1)%Q) ∧
  (active_columns R u1 ∩ active_columns R u2 = ∅ →
   jaccard_similarity_csr (Csr R) u1 u2 = Ok 0%Q).
Proof.
  intros Hwf Hu1 Hu2 Hne. split.
  - intros Heq Hnonempty.
    destruct (jaccard_similarity_csr_sets R u1 u2 Hwf Hu1 Hu2 Hne) as (q & Hq & Hval).
    exists q. split; [done|]. rewrite Hval, <- Heq, <- fl_one. apply fl_value.
    unfold jaccard_of_sets. set (S1 := active_columns R u1) in *.
    destruct (decide (S1 ∪ S1 = ∅)) as [He|_]; [set_solver|].
    replace (S1 ∩ S1) with S1 by set_solver.
    assert (Hsize : size S1 ≠ 0%nat).
    { intros H0. by apply size_empty_inv, leibniz_equiv in H0. }
    replace (Z.of_nat (size S1) + Z.of_nat (size S1) - Z.of_nat (size S1))
      with (Z.of_nat (size S1)) by lia.
    apply Qmult_inv_r. unfold Qeq. simpl. lia.
  - intros Hdisj.
    assert (Hgoal : ∀ a b, in_range R a → in_range R b → a < b →
              active_columns R a ∩ active_columns R b = ∅ →
              jaccard_similarity_csr (Csr R) a b = Ok 0%Q).
    { intros a b Ha Hb Hlt Hd.
      rewrite jaccard_similarity_csr_columns by (done || by apply csr_wf_bounds).
      rewrite !active_columns_in_range in Hd by done.
      unfold similarity_of_columns.
      rewrite two_pointer_counts_intersection, Hd, size_empty;
        [done | apply csr_wf_row_sorted; [done|unfold in_range in *; lia]..]. }
    destruct (Z.lt_total u1 u2) as [Hlt|[?|Hgt]]; [by apply Hgoal|done|].
    rewrite jaccard_swap. apply Hgoal; [done..|].
    by rewrite (comm_L (∩)).
Qed.

(** X3.  On a well-formed matrix, two distinct rows with the same non-empty
    set of active columns have similarity [1], and two distinct rows without a
    common column have similarity exactly [0]. *)
Theorem jaccard_identical_and_disjoint_rows {rnd : Rounding} {rnd_sound : RoundingSound}
    (R : csr_matrix) (u1 u2 : Z) :
  csr_wf R = true → in_range R u1 → in_range R u2 → u1 ≠ u2 →
  (active_columns R u1 = active_columns R u2 → active_columns R u1 ≠ ∅ →
   ∃ q, jaccard_similarity_csr (Csr R) u1 u2 = Ok q ∧ (q == 1)%Q) ∧
  (active_columns R u1 ∩ active_columns R u2 = ∅ →
   jaccard_similarity_csr (Csr R) u1 u2 = Ok 0%Q).
Proof. intros. eapply jaccard_extreme_rows; eassumption. Qed.

Lemma jaccard_identical_and_disjoint_rows_witness :
  (∃ q, jaccard_similarity_csr (rnd := exact_rounding) (Csr three_equal_rows) 0 2 = Ok q ∧
        (q == 1)%Q) ∧
  jaccard_similarity_csr (rnd := exact_rounding) (Csr empty_then_single) 0 1 = Ok 0%Q.
Proof.
  split.
  - apply (jaccard_identical_and_disjoint_rows (rnd_sound := exact_rounding_sound)
             three_equal_rows 0 2);
      [reflexivity | unfold in_range; simpl; lia | unfold in_range; simpl; lia | lia
      | reflexivity | by vm_compute].
  - apply (jaccard_identical_and_disjoint_rows (rnd_sound := exact_rounding_sound)
             empty_then_single 0 1);
      [reflexivity | unfold in_range; simpl; lia | unfold in_range; simpl; lia | lia
      | reflexivity].
Defined.

Lemma jaccard_refused {rnd : Rounding} (R : csr_matrix) (u1 u2 : Z) :
  length (indptr R) = S (n_rows R) → u1 ≠ u2 →
  index_refused R u1 ∨ index_refused R u2 →
  jaccard_similarity_csr (Csr R) u1 u2 = Err IndexError.
Proof.
  intros Hlen Hne Hbad.
  assert (Hgoal : ∀ a b, a < b → index_refused R a ∨ index_refused R b →
            jaccard_similarity_csr (Csr R) a b = Err IndexError).
  { clear u1 u2 Hne Hbad. intros a b Hlt Hbad. unfold jaccard_similarity_csr.
    destruct (Z.eqb_spec a b) as [|_]; [lia|]. destruct (Z.ltb_spec b a); [lia|].
    unfold index_refused in Hbad.
    destruct (decide (a < - (Z.of_nat (n_rows R) + 1))) as [Ha|Ha].
    { rewrite (np_index_refused _ a) by lia. done. }
    destruct (np_index_outcome (indptr R) a) as [[v1 ->]| ->]; [simpl|done].
    destruct (decide (Z.of_nat (n_rows R) ≤ a)) as [Ha'|Ha'].
    { rewrite (np_index_refused _ (a + 1)) by lia. done. }
    destruct (np_index_outcome (indptr R) (a + 1)) as [[v2 ->]| ->]; [simpl|done].
    destruct (np_index_outcome (indptr R) b) as [[v3 ->]| ->]; [simpl|done].
    rewrite (np_index_refused _ (b + 1)) by lia. done. }
  destruct (Z.lt_total u1 u2) as [Hlt|[?|Hgt]]; [by apply Hgoal|done|].
  rewrite jaccard_swap. apply Hgoal; [done|tauto].
Qed.

(** X4.  A row index outside [-(n_rows + 1), n_rows - 1], paired with any
    other index, makes [jaccard_similarity_csr] raise [IndexError]: nothing is
    clamped. *)
Theorem jaccard_index_refused {rnd : Rounding} (R : csr_matrix) (u1 u2 : Z) :
  length (indptr R) = S (n_rows R) → u1 ≠ u2 →
  index_refused R u1 ∨ index_refused R u2 →
  jaccard_similarity_csr (Csr R) u1 u2 = Err IndexError.
Proof. intros. eapply jaccard_refused; eassumption. Qed.

Lemma jaccard_index_refused_witness :
  jaccard_similarity_csr (rnd := exact_rounding) (Csr rows_A_B) 0 2 = Err IndexError ∧
  jaccard_similarity_csr (rnd := exact_rounding) (Csr rows_A_B) (-4) 1 = Err IndexError.
Proof.
  split.
  - apply (jaccard_index_refused (rnd := exact_rounding) rows_A_B 0 2);
      [reflexivity | lia | right; right; simpl; lia].
  - apply (jaccard_index_refused (rnd := exact_rounding) rows_A_B (-4) 1);
      [reflexivity | lia | left; left; simpl; lia].
Defined.

Lemma two_pointer_symmetric (fuel : nat) (cols1 cols2 : list Z) :
  ∀ i j acc, two_pointer fuel cols1 cols2 i j acc = two_pointer fuel cols2 cols1 j i acc.
Proof.
  induction fuel as [|fuel IH]; intros i j acc; [done|]. simpl.
  rewrite (andb_comm (j <? length cols2)%nat).
  destruct ((i <? length cols1)%nat && (j <? length cols2)%nat); [|done].
  rewrite (Z.eqb_sym (nth j cols2 0)).
  destruct (Z.eqb_spec (nth i cols1 0) (nth j cols2 0)) as [|Hne]; [apply IH|].
  destruct (Z.ltb_spec (nth i cols1 0) (nth j cols2 0)),
    (Z.ltb_spec (nth j cols2 0) (nth i cols1 0)); try lia; apply IH.
Qed.

Lemma similarity_of_columns_symmetric {rnd : Rounding} (cols1 cols2 : list Z) :
  similarity_of_columns cols1 cols2 = similarity_of_columns cols2 cols1.
Proof.
  unfold similarity_of_columns.
  rewrite (two_pointer_symmetric _ cols1 cols2), (Nat.add_comm (length cols1)),
    (Z.add_comm (Z.of_nat (length cols1))). done.
Qed.

(** A list walked against itself: both pointers advance together and every
    position counts. *)
Lemma two_pointer_same (cols : list Z) (fuel i : nat) (acc : Z) :
  (i ≤ length cols)%nat → (length cols - i ≤ fuel)%nat →
  two_pointer fuel cols cols i i acc = acc + Z.of_nat (length cols - i).
Proof.
  revert i acc. induction fuel as [|fuel IH]; intros i acc Hi Hfuel.
  - simpl. replace (length cols - i)%nat with 0%nat by lia. lia.
  - cbn [two_pointer]. destruct (Nat.ltb_spec i (length cols)) as [Hlt|Hge]; simpl.
    + rewrite Z.eqb_refl, IH by lia. lia.
    + replace (length cols - i)%nat with 0%nat by lia. lia.
Qed.

Lemma similarity_of_columns_same {rnd : Rounding} {rnd_sound : RoundingSound}
    (cols : list Z) :
  (cols = [] → similarity_of_columns cols cols = 0%Q) ∧
  (cols ≠ [] → (similarity_of_columns cols cols == 1)%Q).
Proof.
  unfold similarity_of_columns.
  rewrite two_pointer_same by lia. rewrite Nat.sub_0_r, Z.add_0_l. split.
  - by intros ->.
  - intros Hne. assert (Hlen : 0 < Z.of_nat (length cols)) by (destruct cols; simpl; [done|lia]).
    destruct (Z.eqb_spec (Z.of_nat (length cols)) 0); [lia|].
    destruct (Z.eqb_spec (Z.of_nat (length cols) + Z.of_nat (length cols)
                          - Z.of_nat (length cols)) 0); [lia|].
    rewrite <- fl_one. apply fl_value.
    replace (Z.of_nat (length cols) + Z.of_nat (length cols) - Z.of_nat (length cols))
      with (Z.of_nat (length cols)) by lia.
    apply Qmult_inv_r. unfold Qeq. simpl. lia.
Qed.

(** X5.  A negative row index is not refused: an index [u1] in
    [-(n_rows + 1), -2] is read as the row [u1 + n_rows + 1], counted from the
    end of [indptr].  When that row is not [u2], the result is the one for the
    pair of that row and [u2].  When that row is [u2] itself, the test
    [u1 == u2] does not see it, and the row is compared with itself: the
    result is [0] for a row without columns (the call with the index [u2]
    twice returns [1]), and equals [1] otherwise. *)
Theorem jaccard_negative_index_wraps {rnd : Rounding} {rnd_sound : RoundingSound}
    (R : csr_matrix) (u1 u2 : Z) :
  csr_bounds R = true →
  - (Z.of_nat (n_rows R) + 1) ≤ u1 ≤ -2 → in_range R u2 →
  (u1 + Z.of_nat (n_rows R) + 1 ≠ u2 →
   jaccard_similarity_csr (Csr R) u1 u2 =
   jaccard_similarity_csr (Csr R) (u1 + Z.of_nat (n_rows R) + 1) u2) ∧
  (u1 + Z.of_nat (n_rows R) + 1 = u2 →
   jaccard_similarity_csr (Csr R) u2 u2 = Ok 1%Q ∧
   ∃ q, jaccard_similarity_csr (Csr R) u1 u2 = Ok q ∧
        (row_cols R (Z.to_nat u2) = [] → q = 0%Q) ∧
        (row_cols R (Z.to_nat u2) ≠ [] → (q == 1)%Q)).
Proof.
  intros Hb Hu1 Hu2. pose proof (csr_bounds_length R Hb) as Hlen.
  set (w := u1 + Z.of_nat (n_rows R) + 1) in *.
  assert (Hw : in_range R w) by (unfold in_range in *; lia).
  destruct (indptr_lookup_bounds R w Hb Hw) as [Ha1 Hb1].
  destruct (indptr_lookup_bounds R u2 Hb Hu2) as [Ha2 Hb2].
  assert (Hn1 : np_index (indptr R) u1 = Ok (nth (Z.to_nat w) (indptr R) 0)).
  { unfold np_index. rewrite Hlen.
    destruct (Z.leb_spec 0 u1); [lia|]. simpl.
    destruct (Z.leb_spec (- Z.of_nat (S (n_rows R))) u1); [|lia].
    destruct (Z.ltb_spec u1 0); [|lia]. simpl. do 2 f_equal. lia. }
  assert (Hn2 : np_index (indptr R) (u1 + 1) = Ok (nth (S (Z.to_nat w)) (indptr R) 0)).
  { unfold np_index. rewrite Hlen.
    destruct (Z.leb_spec 0 (u1 + 1)); [lia|]. simpl.
    destruct (Z.leb_spec (- Z.of_nat (S (n_rows R))) (u1 + 1)); [|lia].
    destruct (Z.ltb_spec (u1 + 1) 0); [|lia]. simpl. do 2 f_equal. lia. }
  assert (Hleft : jaccard_similarity_csr (Csr R) u1 u2 =
                  Ok (similarity_of_columns (row_cols R (Z.to_nat w))
                        (row_cols R (Z.to_nat u2)))).
  { unfold jaccard_similarity_csr. unfold in_range in Hu2.
    destruct (Z.eqb_spec u1 u2) as [|_]; [lia|]. destruct (Z.ltb_spec u2 u1); [lia|].
    rewrite Hn1. simpl. rewrite Hn2. simpl. rewrite Ha2. simpl. rewrite Hb2. simpl.
    fold (row_cols R (Z.to_nat w)) (row_cols R (Z.to_nat u2)).
    unfold similarity_of_columns. by repeat case_match. }
  split.
  - intros Hne. rewrite Hleft. destruct (Z.lt_total w u2) as [Hlt|[?|Hgt]]; [|done|].
    + by rewrite jaccard_similarity_csr_columns.
    + rewrite jaccard_swap, jaccard_similarity_csr_columns by done.
      by rewrite similarity_of_columns_symmetric.
  - intros Heq. split.
    + unfold jaccard_similarity_csr. by rewrite Z.eqb_refl.
    + eexists. split; [exact Hleft|]. rewrite Heq.
      apply similarity_of_columns_same.
Qed.

Lemma jaccard_negative_index_wraps_witness :
  (- 3 + Z.of_nat (n_rows two_empty_rows) + 1 ≠ 0 →
   jaccard_similarity_csr (rnd := exact_rounding) (Csr two_empty_rows) (-3) 0 =
   jaccard_similarity_csr (rnd := exact_rounding) (Csr two_empty_rows)
     (- 3 + Z.of_nat (n_rows two_empty_rows) + 1) 0) ∧
  (- 3 + Z.of_nat (n_rows two_empty_rows) + 1 = 0 →
   jaccard_similarity_csr (rnd := exact_rounding) (Csr two_empty_rows) 0 0 = Ok 1%Q ∧
   ∃ q, jaccard_similarity_csr (rnd := exact_rounding) (Csr two_empty_rows) (-3) 0 = Ok q ∧
        (row_cols two_empty_rows (Z.to_nat 0) = [] → q = 0%Q) ∧
        (row_cols two_empty_rows (Z.to_nat 0) ≠ [] → (q == 1)%Q)).
Proof.
  apply (jaccard_negative_index_wraps (rnd := exact_rounding)
           (rnd_sound := exact_rounding_sound) two_empty_rows (-3) 0);
    [reflexivity | simpl; lia | unfold in_range; simpl; lia].
Defined.

(** On [rows_A_B] the index [-2] names row [1]; on [two_empty_rows] the index
    [-3] names row [0] and the pair [(-3, 0)] gets [0] where [(0, 0)] gets
    [1]. *)
Remark negative_index_examples :
  jaccard_similarity_csr (rnd := exact_rounding) (Csr rows_A_B) (-2) 0 =
  jaccard_similarity_csr (rnd := exact_rounding) (Csr rows_A_B) 1 0 ∧
  jaccard_similarity_csr (rnd := exact_rounding) (Csr two_empty_rows) (-3) 0 = Ok 0%Q ∧
  jaccard_similarity_csr (rnd := exact_rounding) (Csr two_empty_rows) 0 0 = Ok 1%Q.
Proof. by vm_compute. Qed.

(** *** [verify_candidates_and_write] on arbitrary arguments *)

(** One iteration of the loop. *)
Lemma verify_loop_cons {rnd : Rounding} (R : pyobj) (c : Z * Z) (rest : list (Z * Z))
    (threshold : Q) (file : list line) (n : Z) :
  verify_loop R (c :: rest) threshold file n =
  match jaccard_similarity_csr R c.1 c.2 with
  | Err e => (file, Err e)
  | Ok jacc =>
      if Qle_bool threshold jacc
      then verify_loop R rest threshold (file ++ [line_of_pair c]) (n + 1)
      else verify_loop R rest threshold file n
  end.
Proof.
  destruct c as [u1 u2]. cbn [verify_loop fst snd].
  destruct (jaccard_similarity_csr R u1 u2) as [jacc|e]; [|done].
  destruct (Qle_bool threshold jacc); [|done].
  pose proof (line_normalised u1 u2) as Hl.
  destruct (u2 + 1 <? u1 + 1); by rewrite Hl.
Qed.

Lemma verify_loop_lines {rnd : Rounding} (R : pyobj) (candidates : list (Z * Z))
    (threshold : Q) :
  ∀ file n,
    ∃ kept,
      kept `sublist_of` candidates ∧
      (verify_loop R candidates threshold file n).1 = file ++ map line_of_pair kept ∧
      ∀ m, (verify_loop R candidates threshold file n).2 = Ok m →
           m = n + Z.of_nat (length kept).
Proof.
  induction candidates as [|c rest IH]; intros file n.
  - exists []. simpl. rewrite app_nil_r. split; [done|]. split; [done|].
    intros m [= <-]. lia.
  - rewrite verify_loop_cons.
    destruct (jaccard_similarity_csr R c.1 c.2) as [jacc|e].
    + destruct (Qle_bool threshold jacc).
      * destruct (IH (file ++ [line_of_pair c]) (n + 1)) as (kept & Hsub & Hfile & Hcount).
        exists (c :: kept). split; [by apply sublist_skip|]. split.
        { rewrite Hfile, <- app_assoc. done. }
        intros m Hm. rewrite (Hcount m Hm). simpl length. lia.
      * destruct (IH file n) as (kept & Hsub & Hfile & Hcount).
        exists kept. split; [by apply sublist_cons|]. done.
    + exists []. simpl. rewrite app_nil_r. split; [apply sublist_nil_l|]. done.
Qed.

(** X6.  Whatever the matrix, the candidates and the threshold, and whether
    or not an error is raised, [verify_candidates_and_write] keeps the content
    the file had and appends the lines of a sub-sequence of the candidates, each
    with [uid1 <= uid2]; when it returns, the count it returns is the number of
    lines it appended. *)
Theorem verify_appends_candidate_lines {rnd : Rounding} (R : pyobj)
    (candidates : list (Z * Z)) (threshold : Q) (file : list line) :
  ∃ kept,
    kept `sublist_of` candidates ∧
    (verify_candidates_and_write R candidates threshold file).1
      = file ++ map line_of_pair kept ∧
    Forall (λ l, uid1 l ≤ uid2 l) (map line_of_pair kept) ∧
    ∀ num_written,
      (verify_candidates_and_write R candidates threshold file).2 = Ok num_written →
      num_written = Z.of_nat (length (map line_of_pair kept)).
Proof.
  unfold verify_candidates_and_write.
  destruct (verify_loop_lines R candidates threshold file 0) as (kept & Hsub & Hfile & Hcount).
  exists kept. split; [done|]. split; [done|]. split.
  - apply Forall_fmap, Forall_true. intros c. unfold line_of_pair. simpl. lia.
  - intros m Hm. rewrite (Hcount m Hm), length_map. lia.
Qed.

Lemma verify_loop_app {rnd : Rounding} (R : pyobj) (candidates1 candidates2 : list (Z * Z))
    (threshold : Q) :
  ∀ file n,
    verify_loop R (candidates1 ++ candidates2) threshold file n =
    match verify_loop R candidates1 threshold file n with
    | (file1, Ok n1) => verify_loop R candidates2 threshold file1 n1
    | (file1, Err e) => (file1, Err e)
    end.
Proof.
  induction candidates1 as [|c rest IH]; intros file n; [done|].
  rewrite <- app_comm_cons, !verify_loop_cons.
  destruct (jaccard_similarity_csr R c.1 c.2) as [jacc|e]; [|done].
  destruct (Qle_bool threshold jacc); apply IH.
Qed.

Lemma verify_loop_count {rnd : Rounding} (R : pyobj) (candidates : list (Z * Z))
    (threshold : Q) :
  ∀ file n,
    verify_loop R candidates threshold file n =
    ((verify_loop R candidates threshold file 0).1,
     match (verify_loop R candidates threshold file 0).2 with
     | Ok m => Ok (n + m)
     | Err e => Err e
     end).
Proof.
  induction candidates as [|c rest IH]; intros file n.
  - simpl. by rewrite Z.add_0_r.
  - rewrite !verify_loop_cons.
    destruct (jaccard_similarity_csr R c.1 c.2) as [jacc|e]; [|done].
    destruct (Qle_bool threshold jacc); [|apply IH].
    rewrite (IH _ (n + 1)), (IH _ (0 + 1)). simpl.
    destruct (verify_loop R rest threshold (file ++ [line_of_pair c]) 0).2; [|done].
    do 2 f_equal. lia.
Qed.

Lemma verify_concat {rnd : Rounding} (R : pyobj)
    (candidates1 candidates2 : list (Z * Z)) (threshold : Q) (file : list line) :
  verify_candidates_and_write R (candidates1 ++ candidates2) threshold file =
  match verify_candidates_and_write R candidates1 threshold file with
  | (file1, Err e) => (file1, Err e)
  | (file1, Ok n1) =>
      match verify_candidates_and_write R candidates2 threshold file1 with
      | (file2, Ok n2) => (file2, Ok (n1 + n2))
      | (file2, Err e) => (file2, Err e)
      end
  end.
Proof.
  unfold verify_candidates_and_write. rewrite verify_loop_app.
  destruct (verify_loop R candidates1 threshold file 0) as [file1 [n1|e]]; [|done].
  rewrite (verify_loop_count R candidates2 threshold file1 n1).
  destruct (verify_loop R candidates2 threshold file1 0) as [file2 [n2|e]]; done.
Qed.

(** X7.  Verifying a concatenation of candidates in one call is verifying the
    first part and then, on the file it leaves, the second part: the counts
    add up, and an error in the first part stops before the second part is
    looked at. *)
Theorem verify_in_two_calls {rnd : Rounding} (R : pyobj)
    (candidates1 candidates2 : list (Z * Z)) (threshold : Q) (file : list line) :
  verify_candidates_and_write R (candidates1 ++ candidates2) threshold file =
  match verify_candidates_and_write R candidates1 threshold file with
  | (file1, Err e) => (file1, Err e)
  | (file1, Ok n1) =>
      match verify_candidates_and_write R candidates2 threshold file1 with
      | (file2, Ok n2) => (file2, Ok (n1 + n2))
      | (file2, Err e) => (file2, Err e)
      end
  end.
Proof. apply verify_concat. Qed.

(** X8.  When a candidate names a refused row index, the loop stops there
    with [IndexError]: the lines of the accepted candidates before it are
    already in the file and stay there, the candidates after it are not
    looked at. *)
Theorem verify_stops_at_refused_index {rnd : Rounding} {rnd_sound : RoundingSound}
    (R : csr_matrix) (before after : list (Z * Z)) (bad : Z * Z)
    (threshold : Q) (file : list line) :
  csr_wf R = true → Forall (pair_in_range R) before →
  bad.1 ≠ bad.2 → index_refused R bad.1 ∨ index_refused R bad.2 →
  verify_candidates_and_write (Csr R) (before ++ bad :: after) threshold file =
  (file ++ map line_of_pair (List.filter (accepted R threshold) before), Err IndexError).
Proof.
  intros Hwf Hbefore Hne Hbad.
  rewrite verify_concat, verify_candidates_and_write_spec by done.
  unfold verify_candidates_and_write. rewrite verify_loop_cons.
  rewrite jaccard_refused; [done| |done|done].
  by apply csr_bounds_length, csr_wf_bounds.
Qed.

Lemma verify_stops_at_refused_index_witness :
  verify_candidates_and_write (rnd := exact_rounding) (Csr three_equal_rows)
    ([(0, 1)] ++ (1, 3) :: [(1, 2)]) (1 # 2) [] = ([mk_line 1 2], Err IndexError).
Proof.
  rewrite (verify_stops_at_refused_index (rnd_sound := exact_rounding_sound)
             three_equal_rows [(0, 1)] [(1, 2)] (1, 3) (1 # 2) []).
  - reflexivity.
  - reflexivity.
  - repeat constructor; simpl; lia.
  - simpl. lia.
  - right. right. simpl. lia.
Defined.

(** X9.  On a well-formed matrix and in-range candidates, raising the
    threshold can only remove lines: the lines written for the higher threshold
    are a sub-sequence of those written for the lower one. *)
Theorem verify_threshold_monotone {rnd : Rounding} {rnd_sound : RoundingSound}
    (R : csr_matrix) (candidates : list (Z * Z)) (threshold1 threshold2 : Q)
    (file : list line) :
  csr_wf R = true → Forall (pair_in_range R) candidates →
  (threshold1 <= threshold2)%Q →
  ∃ written1 written2,
    (verify_candidates_and_write (Csr R) candidates threshold1 file).1 = file ++ written1 ∧
    (verify_candidates_and_write (Csr R) candidates threshold2 file).1 = file ++ written2 ∧
    written2 `sublist_of` written1.
Proof.
  intros Hwf Hall Hle. rewrite !verify_candidates_and_write_spec by done.
  eexists _, _. split; [done|]. split; [done|].
  apply fmap_sublist. clear Hall.
  induction candidates as [|c rest IH]; [done|]. cbn [List.filter].
  destruct (accepted R threshold2 c) eqn:H2.
  - assert (H1 : accepted R threshold1 c = true).
    { unfold accepted in *. apply Qle_bool_iff in H2. apply Qle_bool_iff.
      by eapply Qle_trans. }
    rewrite H1. by apply sublist_skip.
  - destruct (accepted R threshold1 c); [by apply sublist_cons|done].
Qed.

Lemma verify_threshold_monotone_witness :
  ∃ written1 written2,
    (verify_candidates_and_write (rnd := exact_rounding) (Csr rows_A_B) [(0, 1)]
       (3 # 10) []).1 = [] ++ written1 ∧
    (verify_candidates_and_write (rnd := exact_rounding) (Csr rows_A_B) [(0, 1)]
       (1 # 2) []).1 = [] ++ written2 ∧
    written2 `sublist_of` written1.
Proof.
  apply (verify_threshold_monotone (rnd_sound := exact_rounding_sound)
           rows_A_B [(0, 1)] (3 # 10) (1 # 2) []).
  - reflexivity.
  - repeat constructor; simpl; lia.
  - by vm_compute.
Defined.

(** * Properties of [src/sparse_utils.py] *)

Lemma slice_bound_id (len i : Z) : 0 ≤ i ≤ len → slice_bound len i = i.
Proof. intros Hi. unfold slice_bound. destruct (Z.ltb_spec i 0); lia. Qed.

Lemma np_slice_length {A : Type} (arr : list A) (start stop : Z) :
  0 ≤ start → start ≤ stop → stop ≤ Z.of_nat (length arr) →
  Z.of_nat (length (np_slice arr start stop)) = stop - start.
Proof.
  intros H0 H1 H2. unfold np_slice.
  rewrite !slice_bound_id by lia. rewrite length_take, length_drop. lia.
Qed.

Lemma csr_bounds_row (R : csr_matrix) (u : nat) :
  csr_bounds R = true → (u < n_rows R)%nat →
  0 ≤ nth u (indptr R) 0 ∧ nth u (indptr R) 0 ≤ nth (S u) (indptr R) 0 ∧
  nth (S u) (indptr R) 0 ≤ Z.of_nat (length (indices R)).
Proof.
  intros [_ H]%andb_true_iff Hu. rewrite forallb_forall in H.
  specialize (H u ltac:(apply in_seq; lia)). unfold csr_row_bounds in H.
  apply andb_true_iff in H as [H _]. apply andb_true_iff in H as [H H3].
  apply andb_true_iff in H as [H1 H2]. lia.
Qed.

Lemma get_user_movies_bounds (R : csr_matrix) (u : Z) :
  csr_bounds R = true → in_range R u →
  get_user_movies (Csr R) u = Ok (row_cols R (Z.to_nat u)).
Proof.
  intros Hb Hu. destruct (indptr_lookup_bounds R u Hb Hu) as [H1 H2].
  unfold get_user_movies. destruct Hu as [Hu0 Hu1].
  destruct (Z.ltb_spec u 0); [lia|]. destruct (Z.leb_spec (Z.of_nat (n_rows R)) u); [lia|].
  simpl. rewrite H1. simpl. rewrite H2. done.
Qed.

Lemma get_user_movies_cases (R : csr_matrix) :
  csr_bounds R = true →
  (∀ user_index, get_user_movies NotCsr user_index = Err TypeError) ∧
  (∀ user_index,
     user_index < 0 ∨ Z.of_nat (n_rows R) ≤ user_index →
     get_user_movies (Csr R) user_index = Err IndexError) ∧
  (∀ user_index,
     in_range R user_index →
     ∃ movies,
       get_user_movies (Csr R) user_index = Ok movies ∧
       Z.of_nat (length movies) =
         nth (S (Z.to_nat user_index)) (indptr R) 0 - nth (Z.to_nat user_index) (indptr R) 0 ∧
       Forall (λ c, 0 ≤ c < Z.of_nat (n_cols R)) movies).
Proof.
  intros Hb. split; [done|]. split.
  - intros u Hu. unfold get_user_movies.
    destruct (Z.ltb_spec u 0), (Z.leb_spec (Z.of_nat (n_rows R)) u); try done. lia.
  - intros u Hu. exists (row_cols R (Z.to_nat u)).
    assert (Hnat : (Z.to_nat u < n_rows R)%nat) by (unfold in_range in Hu; lia).
    split; [by apply get_user_movies_bounds|]. split.
    + destruct (csr_bounds_row R _ Hb Hnat) as (H0 & H1 & H2).
      unfold row_cols. by apply np_slice_length.
    + apply Forall_forall. intros c Hc. by apply (csr_bounds_row_columns R (Z.to_nat u)).
Qed.

(** X10.  [get_user_movies] raises [TypeError] on anything but a
    [csr_matrix], and [IndexError] on every index below [0] or from [n_rows]
    on (a negative index is refused, not counted from the end); on an in-range
    row of a CSR matrix it returns the [indptr[u+1] - indptr[u]] columns of the
    row, all within [0, n_cols). *)
Theorem get_user_movies_behaviour (R : csr_matrix) :
  csr_bounds R = true →
  (∀ user_index, get_user_movies NotCsr user_index = Err TypeError) ∧
  (∀ user_index,
     user_index < 0 ∨ Z.of_nat (n_rows R) ≤ user_index →
     get_user_movies (Csr R) user_index = Err IndexError) ∧
  (∀ user_index,
     in_range R user_index →
     ∃ movies,
       get_user_movies (Csr R) user_index = Ok movies ∧
       Z.of_nat (length movies) =
         nth (S (Z.to_nat user_index)) (indptr R) 0 - nth (Z.to_nat user_index) (indptr R) 0 ∧
       Forall (λ c, 0 ≤ c < Z.of_nat (n_cols R)) movies).
Proof. intros. eapply get_user_movies_cases; eassumption. Qed.

Lemma get_user_movies_behaviour_witness :
  get_user_movies (Csr rows_A_B) (-1) = Err IndexError ∧
  get_user_movies (Csr rows_A_B) 2 = Err IndexError ∧
  ∃ movies,
    get_user_movies (Csr rows_A_B) 1 = Ok movies ∧
    Z.of_nat (length movies) = nth 2 (indptr rows_A_B) 0 - nth 1 (indptr rows_A_B) 0 ∧
    Forall (λ c, 0 ≤ c < Z.of_nat (n_cols rows_A_B)) movies.
Proof.
  destruct (get_user_movies_behaviour rows_A_B eq_refl) as (_ & Herr & Hok).
  split; [apply Herr; lia|]. split; [apply Herr; simpl; lia|].
  apply (Hok 1). unfold in_range. simpl. lia.
Defined.

Lemma wrap_bits_id (w x : Z) : 1 ≤ w → - 2 ^ (w - 1) ≤ x < 2 ^ (w - 1) → wrap_bits w x = x.
Proof.
  intros Hw Hx. unfold wrap_bits.
  assert (Hpow : 2 ^ w = 2 * 2 ^ (w - 1)).
  { replace w with (Z.succ (w - 1)) at 1 by lia. apply Z.pow_succ_r. lia. }
  rewrite Z.mod_small by lia. lia.
Qed.

Lemma np_diff_lookup (w : Z) (arr : list Z) (u : nat) :
  (S u < length arr)%nat →
  np_diff w arr !! u = Some (wrap_bits w (nth (S u) arr 0 - nth u arr 0)).
Proof.
  intros Hu. unfold np_diff. rewrite lookup_zip_with.
  destruct (lookup_lt_is_Some_2 arr u ltac:(lia)) as [a Ha].
  destruct (lookup_lt_is_Some_2 arr (S u) ltac:(lia)) as [b Hb'].
  rewrite lookup_tail, Ha, Hb'. simpl. by rewrite !nth_lookup, Ha, Hb'.
Qed.

Lemma np_diff_length (w : Z) (arr : list Z) : length (np_diff w arr) = pred (length arr).
Proof.
  unfold np_diff. destruct arr as [|x arr]; [done|].
  rewrite length_zip_with. cbn [tail length]. lia.
Qed.

(** The sum of the exact differences telescopes. *)
Lemma sum_differences (arr : list Z) :
  foldr Z.add 0 (zip_with (λ a b, b - a) arr (tail arr)) =
  nth (pred (length arr)) arr 0 - nth 0 arr 0.
Proof.
  induction arr as [|x arr IH]; [done|].
  destruct arr as [|y arr]; [simpl; lia|].
  cbn [tail zip_with foldr] in *. rewrite IH. simpl. lia.
Qed.

(** X11.  On a CSR matrix whose [indices] array is short enough for the
    integer type of [indptr], [user_movie_counts] returns one count per row,
    the count of row [u] is the number of movies [get_user_movies] returns for
    it, and the counts add up to [indptr[n_rows] - indptr[0]]. *)
Theorem user_movie_counts_are_row_lengths (index_bits : Z) (R : csr_matrix) :
  csr_bounds R = true → 1 ≤ index_bits →
  Z.of_nat (length (indices R)) < 2 ^ (index_bits - 1) →
  ∃ counts,
    user_movie_counts index_bits (Csr R) = Ok counts ∧
    length counts = n_rows R ∧
    (∀ u movies,
       get_user_movies (Csr R) (Z.of_nat u) = Ok movies →
       counts !! u = Some (Z.of_nat (length movies))) ∧
    foldr Z.add 0 counts = nth (n_rows R) (indptr R) 0 - nth 0 (indptr R) 0.
Proof.
  intros Hb Hw Hlen. pose proof (csr_bounds_length R Hb) as Hptr.
  exists (np_diff index_bits (indptr R)). split; [done|].
  split; [rewrite np_diff_length; lia|].
  assert (Hcount : ∀ u, (u < n_rows R)%nat →
            wrap_bits index_bits (nth (S u) (indptr R) 0 - nth u (indptr R) 0) =
            nth (S u) (indptr R) 0 - nth u (indptr R) 0).
  { intros u Hu. destruct (csr_bounds_row R u Hb Hu) as (H0 & H1 & H2).
    apply wrap_bits_id; [done|].
    pose proof (Z.pow_pos_nonneg 2 (index_bits - 1) ltac:(lia) ltac:(lia)). lia. }
  split.
  - intros u movies Hget.
    assert (Hu : (u < n_rows R)%nat).
    { destruct (decide (u < n_rows R)%nat) as [|Hge]; [done|].
      destruct (get_user_movies_cases R Hb) as (_ & Herr & _).
      rewrite (Herr (Z.of_nat u)) in Hget by lia. done. }
    rewrite get_user_movies_bounds in Hget by (done || unfold in_range; lia).
    injection Hget as <-. rewrite Nat2Z.id.
    rewrite np_diff_lookup by lia. rewrite (Hcount u Hu). f_equal.
    destruct (csr_bounds_row R u Hb Hu) as (H0 & H1 & H2).
    unfold row_cols. by rewrite np_slice_length.
  - assert (Hexact : np_diff index_bits (indptr R) =
                     zip_with (λ a b, b - a) (indptr R) (tail (indptr R))).
    { apply list_eq. intros u. unfold np_diff. rewrite !lookup_zip_with, lookup_tail.
      destruct (indptr R !! u) as [a|] eqn:Ha; [|done].
      destruct (indptr R !! S u) as [b|] eqn:Hb'; [|done]. simpl. f_equal.
      pose proof (lookup_lt_Some _ _ _ Hb') as Hlt.
      pose proof (Hcount u ltac:(lia)) as Hc.
      by rewrite !nth_lookup, Ha, Hb' in Hc. }
    rewrite Hexact, sum_differences, Hptr. done.
Qed.

Lemma user_movie_counts_are_row_lengths_witness :
  ∃ counts,
    user_movie_counts 32 (Csr rows_A_B) = Ok counts ∧
    length counts = n_rows rows_A_B ∧
    (∀ u movies,
       get_user_movies (Csr rows_A_B) (Z.of_nat u) = Ok movies →
       counts !! u = Some (Z.of_nat (length movies))) ∧
    foldr Z.add 0 counts = nth (n_rows rows_A_B) (indptr rows_A_B) 0 - nth 0 (indptr rows_A_B) 0.
Proof.
  apply (user_movie_counts_are_row_lengths 32 rows_A_B); [reflexivity | lia | by vm_compute].
Defined.

(** * Further properties of [src/lsh.py] *)

Lemma int32_bytes_eq_iff (x y : Z) :
  int32_bytes x = int32_bytes y ↔ x mod 2 ^ 32 = y mod 2 ^ 32.
Proof.
  unfold int32_bytes. split.
  - intros Heq. injection Heq as H0 H1 H2 H3.
    change (2 ^ 32) with 4294967296 in *. Z.div_mod_to_equations. lia.
  - by intros ->.
Qed.

Lemma wrap32_mod (x : Z) : wrap32 x mod 2 ^ 32 = x mod 2 ^ 32.
Proof.
  unfold wrap32. change (2 ^ 32) with 4294967296. change (2 ^ 31) with 2147483648.
  Z.div_mod_to_equations. lia.
Qed.

Lemma int32_bytes_range (x : Z) : Forall (λ b, 0 ≤ b ≤ 255) (int32_bytes x).
Proof.
  assert (Hbyte : ∀ a, 0 ≤ a mod 256 ≤ 255).
  { intros a. pose proof (Z.mod_pos_bound a 256). lia. }
  unfold int32_bytes. repeat (apply List.Forall_cons; [apply Hbyte|]). apply List.Forall_nil.
Qed.

(** X12.  [_band_key_to_bytes] produces four bytes per signature value, each
    in [0, 255], and two bands get the same key exactly when they have the same
    length and their values agree modulo [2^32]. *)
Theorem band_key_bytes (band1 band2 : list Z) :
  length (_band_key_to_bytes band1) = (4 * length band1)%nat ∧
  Forall (λ b, 0 ≤ b ≤ 255) (_band_key_to_bytes band1) ∧
  (_band_key_to_bytes band1 = _band_key_to_bytes band2 ↔
   map (λ x, x mod 2 ^ 32) band1 = map (λ x, x mod 2 ^ 32) band2).
Proof.
  unfold _band_key_to_bytes. split; [|split].
  - induction band1 as [|x band1 IH]; [done|].
    cbn [map flat_map]. rewrite length_app, IH. unfold int32_bytes. simpl length. lia.
  - induction band1 as [|x band1 IH]; [constructor|].
    cbn [map flat_map]. apply Forall_app. split; [apply int32_bytes_range|done].
  - revert band2. induction band1 as [|x band1 IH]; intros [|y band2]; cbn [map flat_map].
    + done.
    + split; [|done]. unfold int32_bytes. discriminate.
    + split; [|done]. unfold int32_bytes. discriminate.
    + split.
      * intros [Hxy Hrest]%int32_bytes_app_inj.
        apply int32_bytes_eq_iff in Hxy. rewrite !wrap32_mod in Hxy.
        apply IH in Hrest. by rewrite Hxy, Hrest.
      * intros [= Hxy Hrest]. apply IH in Hrest. rewrite Hrest. f_equal.
        apply int32_bytes_eq_iff. by rewrite !wrap32_mod.
Qed.

Lemma lsh_outcome (signatures : ndarray) (rows_per_band max_bucket_size : Z) :
  (∀ e, lsh_candidate_pairs signatures rows_per_band max_bucket_size = Err e →
        e = ValueError) ∧
  ((∃ candidates,
      lsh_candidate_pairs signatures rows_per_band max_bucket_size = Ok candidates) ↔
   ∃ n_users num_hashes rows,
     signatures = Array2 n_users num_hashes rows ∧
     1 ≤ rows_per_band ≤ Z.of_nat num_hashes).
Proof.
  unfold lsh_candidate_pairs. destruct signatures as [n h rows|d]; cycle 1.
  { split; [by intros e [= <-]|]. split; [by intros [? ?]|by intros (? & ? & ? & ? & _)]. }
  destruct (Z.leb_spec rows_per_band 0) as [Hr|Hr].
  { split; [by intros e [= <-]|]. split; [by intros [? ?]|].
    intros (? & ? & ? & [= <- <- <-] & ?). lia. }
  destruct (Z.eqb_spec (Z.of_nat h / rows_per_band) 0) as [Hz|Hz].
  { split; [by intros e [= <-]|]. split; [by intros [? ?]|].
    intros (? & ? & ? & [= <- <- <-] & ?).
    apply Z.div_small_iff in Hz; lia. }
  split; [done|]. split; [|eauto]. intros _. exists n, h, rows. split; [done|].
  split; [lia|]. destruct (Z.lt_ge_cases (Z.of_nat h) rows_per_band) as [Hlt|?]; [|done].
  exfalso. apply Hz, Z.div_small. lia.
Qed.

(** X13.  [lsh_candidate_pairs] raises [ValueError], and nothing else, exactly
    when the array is not two-dimensional, [rows_per_band] is not positive, or
    [rows_per_band] exceeds the number of hash columns; otherwise it returns a
    set. *)
Theorem lsh_candidate_pairs_errors (signatures : ndarray) (rows_per_band max_bucket_size : Z) :
  (∀ e, lsh_candidate_pairs signatures rows_per_band max_bucket_size = Err e →
        e = ValueError) ∧
  ((∃ candidates,
      lsh_candidate_pairs signatures rows_per_band max_bucket_size = Ok candidates) ↔
   ∃ n_users num_hashes rows,
     signatures = Array2 n_users num_hashes rows ∧
     1 ≤ rows_per_band ≤ Z.of_nat num_hashes).
Proof. apply lsh_outcome. Qed.

Lemma no_element_nil {A : Type} (l : list A) : (∀ x, x ∉ l) → l = [].
Proof. destruct l as [|x l]; [done|]. intros H. exfalso. apply (H x). left. Qed.

(** X14.  With [max_bucket_size] below [2] every bucket is skipped: the
    candidate set is empty, whatever the signatures. *)
Theorem lsh_no_candidates_below_two (n_users num_hashes : nat) (rows : list (list Z))
    (rows_per_band max_bucket_size : Z) :
  1 ≤ rows_per_band ≤ Z.of_nat num_hashes → max_bucket_size < 2 →
  lsh_candidate_pairs (Array2 n_users num_hashes rows) rows_per_band max_bucket_size = Ok [].
Proof.
  intros Hr Hmax. rewrite lsh_candidate_pairs_ok; [|lia|].
  - f_equal. apply no_element_nil.
    intros p (item & _ & Hk & Hle & _)%generate_candidates_elem_of. lia.
  - apply Z.div_le_lower_bound; lia.
Qed.

Lemma lsh_no_candidates_below_two_witness :
  lsh_candidate_pairs (Array2 4 2 four_signatures) 1 1 = Ok [].
Proof.
  apply (lsh_no_candidates_below_two 4 2 four_signatures 1 1); [simpl; lia | lia].
Defined.

(** X15.  Raising [max_bucket_size] never removes a candidate. *)
Theorem lsh_max_bucket_size_monotone (signatures : ndarray)
    (rows_per_band max_bucket_size1 max_bucket_size2 : Z) (candidates1 : list (nat * nat)) :
  max_bucket_size1 ≤ max_bucket_size2 →
  lsh_candidate_pairs signatures rows_per_band max_bucket_size1 = Ok candidates1 →
  ∃ candidates2,
    lsh_candidate_pairs signatures rows_per_band max_bucket_size2 = Ok candidates2 ∧
    candidates1 ⊆ candidates2.
Proof.
  intros Hle H1. destruct signatures as [n h rows|d]; [|done].
  pose proof (lsh_candidate_pairs_inv _ _ _ _ _ _ H1) as ->.
  destruct (proj1 (proj2 (lsh_outcome (Array2 n h rows) rows_per_band
                            max_bucket_size1)) (ex_intro _ _ H1))
    as (n' & h' & rows' & [= <- <- <-] & Hr).
  eexists. split.
  - apply lsh_candidate_pairs_ok; [lia|]. apply Z.div_le_lower_bound; lia.
  - intros p (item & Hin & Hk & Hmax & Hpair)%generate_candidates_elem_of.
    apply generate_candidates_elem_of. exists item. split_and!; [done|done|lia|done].
Qed.

Lemma lsh_max_bucket_size_monotone_witness :
  ∃ candidates2,
    lsh_candidate_pairs (Array2 4 2 four_signatures) 1 4 = Ok candidates2 ∧
    [(0, 1); (0, 3); (1, 3)]%nat ⊆ candidates2.
Proof.
  apply (lsh_max_bucket_size_monotone (Array2 4 2 four_signatures) 1 3 4); [lia|reflexivity].
Defined.

Lemma two_members_length {A : Type} (l : list A) (x y : A) :
  x ∈ l → y ∈ l → x ≠ y → (2 ≤ length l)%nat.
Proof.
  intros Hx Hy Hne. destruct l as [|a [|b l]]; simpl; [|exfalso|lia].
  - by apply elem_of_nil in Hx.
  - apply list_elem_of_singleton in Hx, Hy. congruence.
Qed.

Lemma lsh_share_band (n_users num_hashes : nat) (rows : list (list Z))
    (rows_per_band max_bucket_size : Z) :
  signature_matrix n_users num_hashes rows →
  1 ≤ rows_per_band ≤ Z.of_nat num_hashes → Z.of_nat n_users ≤ max_bucket_size →
  ∃ candidates,
    lsh_candidate_pairs (Array2 n_users num_hashes rows) rows_per_band max_bucket_size
      = Ok candidates ∧
    ∀ u1 u2, (u1 < u2 < n_users)%nat →
      (u1, u2) ∈ candidates ↔
      ∃ b, Z.of_nat b < Z.of_nat num_hashes / rows_per_band ∧
           band_of rows rows_per_band b u1 = band_of rows rows_per_band b u2.
Proof.
  intros (Hlen & Hshape & Hint) Hr Hmax.
  assert (Hbands : 1 ≤ Z.of_nat num_hashes / rows_per_band)
    by (apply Z.div_le_lower_bound; lia).
  eexists. split; [apply lsh_candidate_pairs_ok; lia|].
  intros u1 u2 Hu. rewrite ordered_candidate_iff by (done || (simpl; lia)). simpl. split.
  - intros (b & sub & Hb & _ & _ & H1 & H2). exists b. split; [lia|].
    unfold bucket_members in *.
    apply list_elem_of_filter in H1 as [H1 _]. apply list_elem_of_filter in H2 as [H2 _].
    congruence.
  - intros (b & Hb & Heq). exists b, (band_of rows rows_per_band b u1).
    assert (H1 : u1 ∈ bucket_members rows n_users rows_per_band b
                   (band_of rows rows_per_band b u1)).
    { apply list_elem_of_filter. split; [done|]. apply elem_of_seq. lia. }
    assert (H2 : u2 ∈ bucket_members rows n_users rows_per_band b
                   (band_of rows rows_per_band b u1)).
    { apply list_elem_of_filter. split; [done|]. apply elem_of_seq. lia. }
    split_and!; [lia| |  |done|done].
    + apply (two_members_length _ u1 u2); [done|done|lia].
    + unfold bucket_members.
      pose proof (length_filter (λ u, band_of rows rows_per_band b u =
                                      band_of rows rows_per_band b u1) (seq 0 n_users)) as Hf.
      rewrite length_seq in Hf. lia.
Qed.

(** X16.  When [max_bucket_size] is at least the number of rows no bucket is
    skipped: on a signature matrix two rows [u1 < u2] are candidates exactly
    when, for some band [b], their signatures hold the same value in each of
    the columns [b * rows_per_band + j], [j < rows_per_band]. *)
Theorem lsh_candidates_without_cutoff (n_users num_hashes : nat) (rows : list (list Z))
    (rows_per_band max_bucket_size : Z) :
  signature_matrix n_users num_hashes rows →
  1 ≤ rows_per_band ≤ Z.of_nat num_hashes → Z.of_nat n_users ≤ max_bucket_size →
  ∃ candidates,
    lsh_candidate_pairs (Array2 n_users num_hashes rows) rows_per_band max_bucket_size
      = Ok candidates ∧
    ∀ u1 u2, (u1 < u2 < n_users)%nat →
      (u1, u2) ∈ candidates ↔
      ∃ b, Z.of_nat b < Z.of_nat num_hashes / rows_per_band ∧
           ∀ j, (j < Z.to_nat rows_per_band)%nat →
                nth (b * Z.to_nat rows_per_band + j) (nth u1 rows []) 0 =
                nth (b * Z.to_nat rows_per_band + j) (nth u2 rows []) 0.
Proof.
  intros Hm Hr Hmax.
  destruct (lsh_share_band n_users num_hashes rows rows_per_band max_bucket_size Hm Hr Hmax)
    as (candidates & Hok & Hiff).
  exists candidates. split; [done|]. intros u1 u2 Hu. rewrite (Hiff u1 u2 Hu).
  split; intros (b & Hb & Heq); exists b; (split; [done|]).
  - apply spec_sub_signature_eq_iff.
    rewrite <- !(band_of_spec_sub_signature n_users num_hashes) by (done || lia). done.
  - apply spec_sub_signature_eq_iff in Heq.
    rewrite !(band_of_spec_sub_signature n_users num_hashes) by (done || lia). done.
Qed.

Lemma lsh_candidates_without_cutoff_witness :
  ∃ candidates,
    lsh_candidate_pairs (Array2 2 2 later_band_signatures) 1 2 = Ok candidates ∧
    ∀ u1 u2, (u1 < u2 < 2)%nat →
      (u1, u2) ∈ candidates ↔
      ∃ b, Z.of_nat b < Z.of_nat 2 / 1 ∧
           ∀ j, (j < Z.to_nat 1)%nat →
                nth (b * Z.to_nat 1 + j) (nth u1 later_band_signatures []) 0 =
                nth (b * Z.to_nat 1 + j) (nth u2 later_band_signatures []) 0.
Proof.
  apply (lsh_candidates_without_cutoff 2 2 later_band_signatures 1 2).
  - split; [reflexivity|]. split.
    + repeat constructor.
    + unfold int32_range. repeat constructor; simpl; lia.
  - simpl. lia.
  - simpl. lia.
Defined.

Lemma np_slice_take {A : Type} (l : list A) (K : nat) (start stop : Z) :
  0 ≤ start → start ≤ stop → stop ≤ Z.of_nat K →
  np_slice (take K l) start stop = np_slice l start stop.
Proof.
  intros H0 H1 H2. unfold np_slice, slice_bound. rewrite length_take.
  destruct (Z.ltb_spec start 0); [lia|]. destruct (Z.ltb_spec stop 0); [lia|].
  replace (Z.min start (Z.of_nat (K `min` length l))) with (Z.min start (Z.of_nat (length l)))
    by lia.
  replace (Z.min stop (Z.of_nat (K `min` length l))) with (Z.min stop (Z.of_nat (length l)))
    by lia.
  set (s := Z.to_nat (Z.min start (Z.of_nat (length l)))).
  set (n := Z.to_nat (Z.min stop (Z.of_nat (length l)) - Z.min start (Z.of_nat (length l)))).
  rewrite !take_drop_commute, take_take. do 2 f_equal. lia.
Qed.

Lemma fold_left_ext_in {A B : Type} (f g : B → A → B) (l : list A) :
  (∀ x, x ∈ l → ∀ acc, f acc x = g acc x) →
  ∀ acc, fold_left f l acc = fold_left g l acc.
Proof.
  induction l as [|x l IH]; intros Hfg acc; [done|]. simpl.
  rewrite Hfg by left. apply IH. intros y Hy. apply Hfg. by right.
Qed.

(** X17.  The hash columns after the last complete band are never read: two
    arrays of the same shape that agree on the first [num_bands *
    rows_per_band] columns of every row give the same result. *)
Theorem lsh_ignores_leftover_columns (n_users num_hashes : nat) (rows rows' : list (list Z))
    (rows_per_band max_bucket_size : Z) :
  (∀ u, (u < n_users)%nat →
        take (Z.to_nat (Z.of_nat num_hashes / rows_per_band * rows_per_band)) (nth u rows [])
        = take (Z.to_nat (Z.of_nat num_hashes / rows_per_band * rows_per_band))
            (nth u rows' [])) →
  lsh_candidate_pairs (Array2 n_users num_hashes rows) rows_per_band max_bucket_size =
  lsh_candidate_pairs (Array2 n_users num_hashes rows') rows_per_band max_bucket_size.
Proof.
  intros Hagree. unfold lsh_candidate_pairs.
  destruct (Z.leb_spec rows_per_band 0) as [|Hr]; [done|].
  destruct (Z.of_nat num_hashes / rows_per_band =? 0); [done|].
  do 2 f_equal. unfold build_buckets. apply fold_left_ext_in.
  intros b Hb%elem_of_seq acc. unfold fill_band. apply fold_left_ext_in.
  intros u Hu%elem_of_seq buckets. cbv zeta. do 3 f_equal.
  set (K := Z.to_nat (Z.of_nat num_hashes / rows_per_band * rows_per_band)) in *.
  assert (Hfit : Z.of_nat b * rows_per_band + rows_per_band ≤ Z.of_nat K).
  { unfold K. pose proof (Z.div_pos (Z.of_nat num_hashes) rows_per_band ltac:(lia) ltac:(lia)).
    nia. }
  unfold band_of.
  rewrite <- (np_slice_take (nth u rows []) K), <- (np_slice_take (nth u rows' []) K) by nia.
  rewrite Hagree by lia. done.
Qed.

Lemma lsh_ignores_leftover_columns_witness :
  lsh_candidate_pairs (Array2 2 3 leftover_signatures) 2 10 =
  lsh_candidate_pairs (Array2 2 3 leftover_signatures') 2 10.
Proof.
  apply (lsh_ignores_leftover_columns 2 3 leftover_signatures leftover_signatures' 2 10).
  intros [|[|u]] Hu; [reflexivity | reflexivity | lia].
Defined.

(** * Further properties of [src/minhash.py] *)

Lemma fold_min_spec (l : list Z) :
  ∀ x, fold_left Z.min l x ∈ x :: l ∧ ∀ y, y ∈ x :: l → fold_left Z.min l x ≤ y.
Proof.
  induction l as [|z l IH]; intros x; simpl.
  - split; [left|]. intros y ->%list_elem_of_singleton. lia.
  - destruct (IH (Z.min x z)) as [Hin Hle]. split.
    + apply elem_of_cons in Hin as [Heq|Hin]; [|by do 2 right].
      rewrite Heq. destruct (Z.min_spec x z) as [[_ ->]|[_ ->]]; [left|right; left].
    + intros y Hy. apply elem_of_cons in Hy as [->|Hy].
      * specialize (Hle (Z.min x z) ltac:(left)). lia.
      * apply elem_of_cons in Hy as [->|Hy].
        -- specialize (Hle (Z.min x z) ltac:(left)). lia.
        -- apply Hle. by right.
Qed.

Lemma row_min_spec (l : list Z) :
  l ≠ [] → row_min l ∈ l ∧ ∀ y, y ∈ l → row_min l ≤ y.
Proof. destruct l as [|x l]; [done|]. intros _. apply fold_min_spec. Qed.

Lemma hash_table_lookup (p : Z) (a b movie_ids : list Z) (i : nat) (ai bi : Z) :
  a !! i = Some ai → b !! i = Some bi →
  hash_table p a b movie_ids !! i = Some (map (h_val p ai bi) movie_ids).
Proof. intros Ha Hb. unfold hash_table. by rewrite lookup_zip_with, Ha, Hb. Qed.

Lemma hash_row_nth (p ai bi : Z) (n_movies : nat) (m : Z) :
  0 ≤ m < Z.of_nat n_movies →
  nth (Z.to_nat m) (map (h_val p ai bi) (map Z.of_nat (seq 0 n_movies))) 0 = h_val p ai bi m.
Proof.
  intros Hm. rewrite nth_lookup, !list_lookup_fmap, lookup_seq_lt by lia. simpl.
  f_equal. lia.
Qed.

(** An entry of a non-empty row is the least hash value of its columns. *)
Lemma stored_row_entry (R : csr_matrix) (num_hashes p : Z) (a b : list Z)
    (u i : nat) (ai bi entry : Z) :
  csr_bounds R = true → (u < n_rows R)%nat → row_cols R u ≠ [] →
  a !! i = Some ai → b !! i = Some bi →
  stored_row R num_hashes p (hash_table p a b (map Z.of_nat (seq 0 (n_cols R)))) u !! i
    = Some entry →
  (∃ m, m ∈ row_cols R u ∧ entry = h_val p ai bi m) ∧
  (∀ m, m ∈ row_cols R u → entry ≤ h_val p ai bi m).
Proof.
  intros Hb Hu Hne Ha Hbi Hentry. unfold stored_row in Hentry.
  destruct (decide (row_cols R u = [])); [done|].
  unfold minhash_values in Hentry.
  rewrite list_lookup_fmap, (hash_table_lookup _ _ _ _ _ ai bi) in Hentry by done.
  simpl in Hentry. injection Hentry as <-.
  assert (Hvalues : map (λ c, nth c (map (h_val p ai bi) (map Z.of_nat (seq 0 (n_cols R)))) 0)
                      (map Z.to_nat (row_cols R u))
                    = map (h_val p ai bi) (row_cols R u)).
  { rewrite map_map. apply map_ext_in. intros m Hm%list_elem_of_In.
    apply hash_row_nth. by apply (csr_bounds_row_columns R u). }
  rewrite Hvalues.
  destruct (row_min_spec (map (h_val p ai bi) (row_cols R u))) as [Hin Hle].
  { by destruct (row_cols R u). }
  split.
  - apply list_elem_of_fmap in Hin as (m & Hm & Hin). by exists m.
  - intros m Hm. apply Hle, list_elem_of_fmap. by exists m.
Qed.

Lemma h_val_affine (p a b m : Z) :
  0 ≤ a * m → 0 ≤ b → a * m + b < 2 ^ 63 → h_val p a b m = (a * m + b) mod p.
Proof.
  intros H0 H1 H2. unfold h_val.
  assert (Hw : ∀ x, 0 ≤ x < 2 ^ 63 → wrap64 x = x).
  { intros x Hx. unfold wrap64. rewrite Z.mod_small; lia. }
  rewrite (Hw (a * m)) by lia. by rewrite Hw by lia.
Qed.

(** X18.  On a CSR matrix with fewer than [2^63 / 2_000_003] columns (so that
    no [int64] product overflows), every entry [i] of the signature of a
    non-empty row is the minimum over the row's active columns [m] of
    [(a_i * m + b_i) mod p], for the coefficients drawn from the seeded
    generator: it is attained at an active column and is below the value at
    every active column. *)
Theorem signature_is_minimum_hash {G : Type} `{GeneratorSound G}
    (R : csr_matrix) (num_hashes seed : Z) :
  csr_bounds R = true → 0 ≤ num_hashes → 0 ≤ seed →
  Z.of_nat (n_cols R) * 2000003 < 2 ^ 63 →
  ∃ a b rng1 rng2 rows,
    (a, rng1) = draw_integers (Z.to_nat num_hashes) (seed_state seed) 1 2000003 ∧
    (b, rng2) = draw_integers (Z.to_nat num_hashes) rng1 0 2000003 ∧
    compute_minhash_signatures (Csr R) num_hashes seed =
      Ok (Array2 (n_rows R) (Z.to_nat num_hashes) rows) ∧
    ∀ u i row entry ai bi,
      rows !! u = Some row → row !! i = Some entry →
      a !! i = Some ai → b !! i = Some bi → row_cols R u ≠ [] →
      (∃ m, m ∈ row_cols R u ∧ entry = (ai * m + bi) mod 2000003) ∧
      (∀ m, m ∈ row_cols R u → entry ≤ (ai * m + bi) mod 2000003).
Proof.
  intros Hb Hn Hseed Hsmall.
  destruct (compute_minhash_signatures_ok R num_hashes seed Hb Hn Hseed)
    as (a & b & rng1 & rng2 & Ha & Hb' & Hla & Hlb & Hsig).
  exists a, b, rng1, rng2. eexists. split; [done|]. split; [done|]. split; [exact Hsig|].
  intros u i row entry ai bi Hrow Hentry Hai Hbi Hne.
  rewrite list_lookup_fmap in Hrow.
  destruct (seq 0 (n_rows R) !! u) as [u'|] eqn:Hu; [|done].
  apply lookup_seq in Hu as [-> Hu]. simpl in Hrow. injection Hrow as <-.
  assert (Hra : 1 ≤ ai ≤ 2000003 - 1).
  { pose proof (draw_integers_range (Z.to_nat num_hashes) (seed_state seed) 1 2000003
                  ltac:(lia)) as Hr.
    rewrite <- Ha in Hr. simpl in Hr. rewrite Forall_forall in Hr.
    specialize (Hr ai ltac:(by eapply list_elem_of_lookup_2)). lia. }
  assert (Hrb : 0 ≤ bi ≤ 2000003 - 1).
  { pose proof (draw_integers_range (Z.to_nat num_hashes) rng1 0 2000003 ltac:(lia)) as Hr.
    rewrite <- Hb' in Hr. simpl in Hr. rewrite Forall_forall in Hr.
    specialize (Hr bi ltac:(by eapply list_elem_of_lookup_2)). lia. }
  assert (Haff : ∀ m, m ∈ row_cols R u → h_val 2000003 ai bi m = (ai * m + bi) mod 2000003).
  { intros m Hm. pose proof (csr_bounds_row_columns R u m Hb Hu Hm) as Hc.
    apply h_val_affine; nia. }
  destruct (stored_row_entry R num_hashes 2000003 a b u i ai bi entry Hb Hu Hne Hai Hbi Hentry)
    as [(m & Hm & Heq) Hle].
  split.
  - exists m. split; [done|]. by rewrite <- Haff.
  - intros m' Hm'. rewrite <- Haff by done. by apply Hle.
Qed.

Lemma signature_is_minimum_hash_witness :
  ∃ a b rng1 rng2 rows,
    (a, rng1) = draw_integers (G:=Z) (Z.to_nat 3) (seed_state 42) 1 2000003 ∧
    (b, rng2) = draw_integers (Z.to_nat 3) rng1 0 2000003 ∧
    compute_minhash_signatures (G:=Z) (Csr rows_A_B) 3 42 = Ok (Array2 2 (Z.to_nat 3) rows) ∧
    ∀ u i row entry ai bi,
      rows !! u = Some row → row !! i = Some entry →
      a !! i = Some ai → b !! i = Some bi → row_cols rows_A_B u ≠ [] →
      (∃ m, m ∈ row_cols rows_A_B u ∧ entry = (ai * m + bi) mod 2000003) ∧
      (∀ m, m ∈ row_cols rows_A_B u → entry ≤ (ai * m + bi) mod 2000003).
Proof.
  apply (signature_is_minimum_hash (G:=Z) rows_A_B 3 42); [reflexivity|lia|lia|by vm_compute].
Defined.

Lemma stored_row_range (R : csr_matrix) (num_hashes : Z) (a b : list Z) (u : nat) :
  let row := stored_row R num_hashes 2000003
               (hash_table 2000003 a b (map Z.of_nat (seq 0 (n_cols R)))) u in
  (row_cols R u = [] → row = replicate (Z.to_nat num_hashes) 2000004) ∧
  (row_cols R u ≠ [] → Forall (λ x, 0 ≤ x ≤ 2000003 - 1) row).
Proof.
  simpl. unfold stored_row. destruct (decide (row_cols R u = [])) as [He|Hne].
  - split; [done|]. intros Hne. done.
  - split; [done|]. intros _. apply minhash_values_range; [lia| |].
    + by destruct (row_cols R u).
    + apply hash_table_range. lia.
Qed.

(** The computed matrix has the shape and the entries of a signature
    matrix. *)
Lemma computed_signature_matrix {G : Type} `{GeneratorSound G}
    (R : csr_matrix) (num_hashes seed : Z) (signatures : ndarray) :
  csr_bounds R = true →
  compute_minhash_signatures (Csr R) num_hashes seed = Ok signatures →
  ∃ a b rows,
    signatures = Array2 (n_rows R) (Z.to_nat num_hashes) rows ∧
    rows = map (stored_row R num_hashes 2000003
                  (hash_table 2000003 a b (map Z.of_nat (seq 0 (n_cols R)))))
               (seq 0 (n_rows R)) ∧
    length a = Z.to_nat num_hashes ∧ length b = Z.to_nat num_hashes ∧
    signature_matrix (n_rows R) (Z.to_nat num_hashes) rows.
Proof.
  intros Hb Hsig.
  assert (Hn : 0 ≤ num_hashes).
  { destruct (Z.lt_ge_cases num_hashes 0) as [Hneg|]; [|done].
    unfold compute_minhash_signatures in Hsig.
    destruct (default_rng seed) as [rng|e]; [|done]. simpl in Hsig.
    by rewrite generate_hash_functions_negative in Hsig. }
  assert (Hseed : 0 ≤ seed).
  { destruct (Z.lt_ge_cases seed 0) as [Hneg|]; [|done].
    unfold compute_minhash_signatures, default_rng in Hsig.
    destruct (Z.ltb_spec seed 0); [done|lia]. }
  destruct (compute_minhash_signatures_ok R num_hashes seed Hb Hn Hseed)
    as (a & b & rng1 & rng2 & _ & _ & Hla & Hlb & Hok).
  rewrite Hok in Hsig. injection Hsig as <-.
  exists a, b. eexists. split; [done|]. split; [done|]. split; [done|]. split; [done|].
  split; [by rewrite length_map, length_seq|]. split.
  - apply Forall_fmap, Forall_true. intros u. simpl.
    apply stored_row_length. rewrite hash_table_length; lia.
  - apply Forall_fmap, Forall_true. intros u. simpl.
    destruct (stored_row_range R num_hashes a b u) as [He Hne]. simpl in He, Hne.
    destruct (decide (row_cols R u = [])) as [Hempty|Hnonempty].
    + rewrite (He Hempty). apply Forall_replicate. unfold int32_range. lia.
    + eapply Forall_impl; [exact (Hne Hnonempty)|]. unfold int32_range. simpl. lia.
Qed.

Lemma signature_same_set {G : Type} `{GeneratorSound G}
    (R : csr_matrix) (num_hashes seed : Z) (n_users num_cols : nat) (rows : list (list Z))
    (u1 u2 : nat) :
  csr_bounds R = true →
  compute_minhash_signatures (Csr R) num_hashes seed = Ok (Array2 n_users num_cols rows) →
  (u1 < n_rows R)%nat → (u2 < n_rows R)%nat →
  (list_to_set (row_cols R u1) : gset Z) = list_to_set (row_cols R u2) →
  rows !! u1 = rows !! u2 ∧ is_Some (rows !! u1).
Proof.
  intros Hb Hsig Hu1 Hu2 Hset.
  destruct (computed_signature_matrix R num_hashes seed _ Hb Hsig)
    as (a & b & rows' & [= -> -> <-] & Hrows & Hla & Hlb & _).
  rewrite Hrows, !list_lookup_fmap, !lookup_seq_lt by done. simpl. split; [|eauto].
  f_equal. set (h_vals := hash_table 2000003 a b (map Z.of_nat (seq 0 (n_cols R)))).
  assert (Hlen : length h_vals = Z.to_nat num_hashes).
  { unfold h_vals. rewrite hash_table_length; lia. }
  destruct (decide (row_cols R u1 = [])) as [He1|Hne1].
  - assert (He2 : row_cols R u2 = []).
    { rewrite He1 in Hset. simpl in Hset. symmetry in Hset.
      destruct (row_cols R u2) as [|c l]; [done|]. set_solver. }
    unfold stored_row. by rewrite !decide_True.
  - assert (Hne2 : row_cols R u2 ≠ []).
    { intros He2. rewrite He2 in Hset. simpl in Hset.
      destruct (row_cols R u1) as [|c l]; [done|]. set_solver. }
    apply list_eq_same_length with (Z.to_nat num_hashes);
      [by apply stored_row_length..|].
    intros i e1 e2 Hi He1 He2.
    destruct (lookup_lt_is_Some_2 a i ltac:(lia)) as [ai Hai].
    destruct (lookup_lt_is_Some_2 b i ltac:(lia)) as [bi Hbi].
    destruct (stored_row_entry R num_hashes 2000003 a b u1 i ai bi e1 Hb Hu1 Hne1 Hai Hbi He1)
      as [(m1 & Hm1 & ->) Hle1].
    destruct (stored_row_entry R num_hashes 2000003 a b u2 i ai bi e2 Hb Hu2 Hne2 Hai Hbi He2)
      as [(m2 & Hm2 & ->) Hle2].
    assert (m1 ∈ row_cols R u2) by set_solver.
    assert (m2 ∈ row_cols R u1) by set_solver.
    specialize (Hle1 m2 ltac:(done)). specialize (Hle2 m1 ltac:(done)). lia.
Qed.

(** X19.  The signature of a row depends only on its set of active columns:
    two rows of a CSR matrix with the same set of columns (in any order, with or
    without repetitions) get the same signature. *)
Theorem signature_depends_on_column_set {G : Type} `{GeneratorSound G}
    (R : csr_matrix) (num_hashes seed : Z) (n_users num_cols : nat) (rows : list (list Z))
    (u1 u2 : nat) :
  csr_bounds R = true →
  compute_minhash_signatures (Csr R) num_hashes seed = Ok (Array2 n_users num_cols rows) →
  (u1 < n_rows R)%nat → (u2 < n_rows R)%nat →
  (list_to_set (row_cols R u1) : gset Z) = list_to_set (row_cols R u2) →
  rows !! u1 = rows !! u2 ∧ is_Some (rows !! u1).
Proof. intros. eapply signature_same_set; eassumption. Qed.

Lemma signature_depends_on_column_set_witness :
  ∃ rows,
    compute_minhash_signatures (G:=Z) (Csr same_set_rows) 3 42 = Ok (Array2 2 3 rows) ∧
    rows !! 0%nat = rows !! 1%nat ∧ is_Some (rows !! 0%nat).
Proof.
  eexists. split; [reflexivity|].
  eapply (signature_depends_on_column_set (G:=Z) same_set_rows 3 42 2 3 _ 0 1);
    [reflexivity | reflexivity | simpl; lia | simpl; lia | by vm_compute].
Defined.

Lemma np_slice_elem_of {A : Type} (l : list A) (start stop : Z) (x : A) :
  x ∈ np_slice l start stop → x ∈ l.
Proof.
  unfold np_slice. intros Hx. by apply subseteq_take, subseteq_drop in Hx.
Qed.

(** X20.  A row without active columns carries the value [p + 1] in every
    position and a row with active columns carries values below [p], so on the
    computed signatures [lsh_candidate_pairs] never pairs an empty row with a
    non-empty one. *)
Theorem empty_row_never_paired_with_nonempty {G : Type} `{GeneratorSound G}
    (R : csr_matrix) (num_hashes seed rows_per_band max_bucket_size : Z)
    (signatures : ndarray) (candidates : list (nat * nat)) (u1 u2 : nat) :
  csr_bounds R = true →
  compute_minhash_signatures (Csr R) num_hashes seed = Ok signatures →
  lsh_candidate_pairs signatures rows_per_band max_bucket_size = Ok candidates →
  (u1 < n_rows R)%nat → (u2 < n_rows R)%nat →
  row_cols R u1 = [] → row_cols R u2 ≠ [] →
  ((u1, u2) ∉ candidates) ∧ ((u2, u1) ∉ candidates).
Proof.
  intros Hb Hsig Hlsh Hu1 Hu2 He Hne.
  destruct (computed_signature_matrix R num_hashes seed _ Hb Hsig)
    as (a & b & rows & -> & Hrows & Hla & Hlb & Hm).
  destruct (proj1 (proj2 (lsh_outcome _ _ _)) (ex_intro _ _ Hlsh))
    as (n' & h' & rows' & [= <- <- <-] & Hr).
  apply lsh_candidate_pairs_inv in Hlsh as ->.
  assert (Hdiff : ∀ b0, Z.of_nat b0 < Z.of_nat (Z.to_nat num_hashes) / rows_per_band →
            band_of rows rows_per_band b0 u1 ≠ band_of rows rows_per_band b0 u2).
  { intros b0 Hb0 Heq.
    pose proof (band_of_length _ _ rows rows_per_band b0 u1 Hm ltac:(lia) Hb0 Hu1) as Hl.
    destruct (band_of rows rows_per_band b0 u1) as [|x band] eqn:Hband; [simpl in Hl; lia|].
    assert (Hx1 : x ∈ nth u1 rows []).
    { apply (np_slice_elem_of _ (Z.of_nat b0 * rows_per_band)
               (Z.of_nat b0 * rows_per_band + rows_per_band)).
      fold (band_of rows rows_per_band b0 u1). rewrite Hband. left. }
    assert (Hx2 : x ∈ nth u2 rows []).
    { apply (np_slice_elem_of _ (Z.of_nat b0 * rows_per_band)
               (Z.of_nat b0 * rows_per_band + rows_per_band)).
      fold (band_of rows rows_per_band b0 u2). rewrite <- Heq. left. }
    rewrite Hrows in Hx1, Hx2.
    rewrite !nth_lookup, !list_lookup_fmap, !lookup_seq_lt in Hx1, Hx2 by done.
    simpl in Hx1, Hx2.
    destruct (stored_row_range R num_hashes a b u1) as [He1 _].
    destruct (stored_row_range R num_hashes a b u2) as [_ Hne2].
    simpl in He1, Hne2. rewrite (He1 He) in Hx1. apply elem_of_replicate in Hx1 as [-> _].
    specialize (Hne2 Hne). rewrite Forall_forall in Hne2. specialize (Hne2 _ Hx2). lia. }
  destruct Hm as (_ & _ & Hint).
  split; intros (b0 & kb & Hb0 & _ & _ & H1 & H2 & _)%generated_candidates_by_key;
    simpl in H1, H2;
    apply list_elem_of_filter in H1 as [H1 _]; apply list_elem_of_filter in H2 as [H2 _];
    rewrite <- H2 in H1; apply key_of_eq in H1 as [_ H1]; try done;
    apply (Hdiff b0); [lia|done|lia|done].
Qed.

Lemma empty_row_never_paired_with_nonempty_witness :
  ∃ signatures candidates,
    compute_minhash_signatures (G:=Z) (Csr empty_then_single) 4 42 = Ok signatures ∧
    lsh_candidate_pairs signatures 2 100 = Ok candidates ∧
    ((0, 1)%nat ∉ candidates) ∧ ((1, 0)%nat ∉ candidates).
Proof.
  eexists _, _. split; [reflexivity|]. split; [reflexivity|].
  eapply (empty_row_never_paired_with_nonempty (G:=Z) empty_then_single 4 42 2 100);
    [reflexivity | reflexivity | reflexivity | simpl; lia | simpl; lia | reflexivity
    | by vm_compute].
Defined.

(** * Properties of the pipeline of [run_full.py] and [main.py] *)

(** X21.  When [rows_per_band] is not positive or exceeds [num_hashes], the
    pipeline ends in an error and the output file is left as it was: no line
    is written. *)
Theorem pipeline_refuses_band_size {G : Type} `{Generator G} {rnd : Rounding}
    (set_iteration : list (nat * nat) → list (nat * nat))
    (R : pyobj) (seed num_hashes rows_per_band max_bucket_size : Z) (threshold : Q)
    (file : list line) :
  rows_per_band ≤ 0 ∨ num_hashes < rows_per_band →
  ∃ e, pipeline set_iteration R seed num_hashes rows_per_band max_bucket_size threshold file
       = (file, Err e).
Proof.
  intros Hbad. unfold pipeline.
  destruct (compute_minhash_signatures R num_hashes seed) as [signatures|e] eqn:Hsig;
    [|eauto].
  apply compute_minhash_signatures_shape in Hsig as (R' & rows & -> & ->).
  destruct (lsh_candidate_pairs _ rows_per_band max_bucket_size) as [candidates|e] eqn:Hlsh;
    [|eauto].
  destruct (proj1 (proj2 (lsh_outcome _ _ _)) (ex_intro _ _ Hlsh))
    as (n' & h' & rows' & [= <- <- <-] & Hr). lia.
Qed.

Lemma pipeline_refuses_band_size_witness :
  ∃ e, pipeline (G:=Z) (rnd := exact_rounding) (λ s, s) (Csr three_equal_rows)
         1 4 5 100 (1 # 2) [mk_line 7 9] = ([mk_line 7 9], Err e).
Proof.
  apply (pipeline_refuses_band_size (G:=Z) (rnd := exact_rounding)). right. lia.
Defined.

Lemma List_filter_sublist {A : Type} (f : A → bool) (l : list A) :
  List.filter f l `sublist_of` l.
Proof.
  induction l as [|x l IH]; [done|]. simpl.
  destruct (f x); [by apply sublist_skip|by apply sublist_cons].
Qed.

(** The candidates as the verifier receives them. *)
Lemma pipeline_candidates {G : Type} `{GeneratorSound G}
    (set_iteration : list (nat * nat) → list (nat * nat))
    (R : csr_matrix) (seed num_hashes rows_per_band max_bucket_size : Z) :
  (∀ s, set_iteration s ≡ₚ s) →
  csr_bounds R = true → 0 ≤ seed → 1 ≤ rows_per_band ≤ num_hashes →
  ∃ signatures candidates,
    compute_minhash_signatures (Csr R) num_hashes seed = Ok signatures ∧
    lsh_candidate_pairs signatures rows_per_band max_bucket_size = Ok candidates ∧
    NoDup (set_iteration candidates) ∧
    (∀ p, p ∈ set_iteration candidates ↔ p ∈ candidates) ∧
    (∀ p, p ∈ candidates → (p.1 < p.2 < n_rows R)%nat).
Proof.
  intros Hperm Hb Hseed Hr.
  destruct (compute_minhash_signatures_ok R num_hashes seed Hb ltac:(lia) Hseed)
    as (a & b & rng1 & rng2 & _ & _ & _ & _ & Hsig).
  eexists _, _. split; [exact Hsig|]. split.
  { apply lsh_candidate_pairs_ok; [lia|]. apply Z.div_le_lower_bound; lia. }
  split; [|split].
  - rewrite Hperm. apply generate_candidates_NoDup.
  - intros p. by rewrite Hperm.
  - intros p. apply generated_pair_in_range.
Qed.

(** X22.  On a well-formed matrix, with [1 <= rows_per_band <= num_hashes]
    and a set iterated once per element, the pipeline raises nothing and
    returns the number of lines it appended; no line is written twice; every
    line has [1 <= uid1 < uid2 <= n_rows]; and the two rows it names have a
    similarity that reaches the threshold. *)
Theorem pipeline_output_sound {G : Type} `{GeneratorSound G}
    {rnd : Rounding} {rnd_sound : RoundingSound}
    (set_iteration : list (nat * nat) → list (nat * nat))
    (R : csr_matrix) (seed num_hashes rows_per_band max_bucket_size : Z) (threshold : Q)
    (file : list line) :
  (∀ s, set_iteration s ≡ₚ s) →
  csr_wf R = true → 0 ≤ seed → 1 ≤ rows_per_band ≤ num_hashes →
  ∃ written,
    pipeline set_iteration (Csr R) seed num_hashes rows_per_band max_bucket_size threshold file
      = (file ++ written, Ok (Z.of_nat (length written))) ∧
    NoDup written ∧
    ∀ l, l ∈ written →
      1 ≤ uid1 l ∧ uid1 l < uid2 l ∧ uid2 l ≤ Z.of_nat (n_rows R) ∧
      ∃ q, jaccard_similarity_csr (Csr R) (uid1 l - 1) (uid2 l - 1) = Ok q ∧
           (threshold <= q)%Q.
Proof.
  intros Hperm Hwf Hseed Hr.
  destruct (pipeline_candidates set_iteration R seed num_hashes rows_per_band max_bucket_size
              Hperm (csr_wf_bounds R Hwf) Hseed Hr)
    as (signatures & candidates & Hsig & Hlsh & Hnd & Hiff & Hrange).
  unfold pipeline. rewrite Hsig, Hlsh.
  set (to_Z := λ c : nat * nat, (Z.of_nat c.1, Z.of_nat c.2)).
  assert (Hall : Forall (pair_in_range R) (map to_Z (set_iteration candidates))).
  { apply Forall_fmap, Forall_forall. intros p Hp%Hiff%Hrange.
    unfold pair_in_range, in_range, to_Z. simpl. lia. }
  rewrite verify_candidates_and_write_spec by done.
  eexists. split; [by rewrite length_map|]. split.
  - apply NoDup_fmap_2_strong.
    + intros c1 c2 Hc1 Hc2 Heq.
      apply (sublist_subseteq _ _ (List_filter_sublist _ _)) in Hc1, Hc2.
      apply list_elem_of_fmap in Hc1 as (p1 & -> & Hp1%Hiff%Hrange).
      apply list_elem_of_fmap in Hc2 as (p2 & -> & Hp2%Hiff%Hrange).
      unfold line_of_pair, to_Z in *. simpl in *. injection Heq as H1 H2.
      f_equal; lia.
    + eapply sublist_NoDup; [|apply List_filter_sublist].
      apply NoDup_fmap_2_strong; [|done].
      intros [a1 b1] [a2 b2] _ _ [= H1 H2]. f_equal; lia.
  - intros l (c & -> & Hc)%list_elem_of_fmap.
    apply list_elem_of_In, filter_In in Hc as [Hc Hacc].
    apply list_elem_of_In, list_elem_of_fmap in Hc as (p & -> & Hp%Hiff%Hrange).
    unfold line_of_pair, to_Z. simpl.
    replace (Z.of_nat p.1 `min` Z.of_nat p.2 + 1 - 1) with (Z.of_nat p.1) by lia.
    replace (Z.of_nat p.1 `max` Z.of_nat p.2 + 1 - 1) with (Z.of_nat p.2) by lia.
    split; [lia|]. split; [lia|]. split; [lia|].
    unfold accepted, similarity, to_Z in Hacc. cbn [fst snd] in Hacc.
    destruct (jaccard_similarity_csr_total R (Z.of_nat p.1) (Z.of_nat p.2) Hwf)
      as (q & Hq & _); [unfold in_range; lia..|].
    rewrite Hq in Hacc. exists q. split; [done|]. by apply Qle_bool_iff.
Qed.

Lemma pipeline_output_sound_witness :
  ∃ written,
    pipeline (G:=Z) (rnd := exact_rounding) (λ s, s) (Csr three_equal_rows)
      1 4 2 100 (1 # 2) [] = ([] ++ written, Ok (Z.of_nat (length written))) ∧
    NoDup written ∧
    ∀ l, l ∈ written →
      1 ≤ uid1 l ∧ uid1 l < uid2 l ∧ uid2 l ≤ Z.of_nat (n_rows three_equal_rows) ∧
      ∃ q, jaccard_similarity_csr (rnd := exact_rounding) (Csr three_equal_rows)
             (uid1 l - 1) (uid2 l - 1) = Ok q ∧
           (1 # 2 <= q)%Q.
Proof.
  apply (pipeline_output_sound (G:=Z) (rnd_sound := exact_rounding_sound) (λ s, s)
           three_equal_rows 1 4 2 100 (1 # 2) []);
    [done | reflexivity | lia | lia].
Defined.

(** X23.  On a well-formed matrix, when no bucket can be skipped
    ([max_bucket_size >= n_rows]), [1 <= rows_per_band <= num_hashes] and the
    threshold is at most [1], two distinct rows with the same non-empty set of
    active columns are always reported: their line is among the lines the
    pipeline appends. *)
Theorem pipeline_reports_identical_rows {G : Type} `{GeneratorSound G}
    {rnd : Rounding} {rnd_sound : RoundingSound}
    (set_iteration : list (nat * nat) → list (nat * nat))
    (R : csr_matrix) (seed num_hashes rows_per_band max_bucket_size : Z) (threshold : Q)
    (file : list line) (u1 u2 : nat) :
  (∀ s, set_iteration s ≡ₚ s) →
  csr_wf R = true → 0 ≤ seed → 1 ≤ rows_per_band ≤ num_hashes →
  Z.of_nat (n_rows R) ≤ max_bucket_size → (threshold <= 1)%Q →
  (u1 < u2 < n_rows R)%nat →
  active_columns R (Z.of_nat u1) = active_columns R (Z.of_nat u2) →
  active_columns R (Z.of_nat u1) ≠ ∅ →
  ∃ written num_written,
    pipeline set_iteration (Csr R) seed num_hashes rows_per_band max_bucket_size threshold file
      = (file ++ written, Ok num_written) ∧
    mk_line (Z.of_nat u1 + 1) (Z.of_nat u2 + 1) ∈ written.
Proof.
  intros Hperm Hwf Hseed Hr Hmax Hthr Hu Hsame Hnonempty.
  pose proof (csr_wf_bounds R Hwf) as Hb.
  destruct (pipeline_candidates set_iteration R seed num_hashes rows_per_band max_bucket_size
              Hperm Hb Hseed Hr)
    as (signatures & candidates & Hsig & Hlsh & Hnd & Hiff & Hrange).
  assert (Hr1 : in_range R (Z.of_nat u1)) by (unfold in_range; lia).
  assert (Hr2 : in_range R (Z.of_nat u2)) by (unfold in_range; lia).
  assert (Hcand : (u1, u2) ∈ candidates).
  { destruct (computed_signature_matrix R num_hashes seed _ Hb Hsig)
      as (a & b & rows & -> & Hrows & Hla & Hlb & Hm).
    destruct (lsh_share_band (n_rows R) (Z.to_nat num_hashes) rows rows_per_band
                max_bucket_size Hm ltac:(lia) Hmax) as (candidates' & Hlsh' & Hshare).
    rewrite Hlsh in Hlsh'. injection Hlsh' as <-.
    apply Hshare; [lia|]. exists 0%nat. split.
    { apply Z.div_str_pos. lia. }
    unfold band_of. f_equal.
    rewrite !active_columns_in_range, !Nat2Z.id in Hsame by done.
    destruct (signature_same_set R num_hashes seed _ _ rows u1 u2 Hb Hsig
                ltac:(lia) ltac:(lia) Hsame) as [Heq _].
    by rewrite !nth_lookup, Heq. }
  unfold pipeline. rewrite Hsig, Hlsh.
  set (to_Z := λ c : nat * nat, (Z.of_nat c.1, Z.of_nat c.2)).
  assert (Hall : Forall (pair_in_range R) (map to_Z (set_iteration candidates))).
  { apply Forall_fmap, Forall_forall. intros p Hp%Hiff%Hrange.
    unfold pair_in_range, in_range, to_Z. simpl. lia. }
  rewrite verify_candidates_and_write_spec by done.
  eexists _, _. split; [done|].
  apply list_elem_of_fmap. exists (to_Z (u1, u2)). split.
  { unfold line_of_pair, to_Z. simpl. f_equal; lia. }
  apply list_elem_of_In, filter_In. split.
  { apply list_elem_of_In, list_elem_of_fmap. exists (u1, u2). split; [done|]. by apply Hiff. }
  unfold accepted, similarity, to_Z. cbn [fst snd].
  destruct (jaccard_extreme_rows R (Z.of_nat u1) (Z.of_nat u2) Hwf Hr1 Hr2 ltac:(lia))
    as [Hone _].
  destruct (Hone Hsame Hnonempty) as (q & -> & Hq).
  apply Qle_bool_iff. by rewrite Hq.
Qed.

Lemma pipeline_reports_identical_rows_witness :
  ∃ written num_written,
    pipeline (G:=Z) (rnd := exact_rounding) (λ s, s) (Csr three_equal_rows)
      1 4 2 100 (1 # 2) [] = ([] ++ written, Ok num_written) ∧
    mk_line (Z.of_nat 0 + 1) (Z.of_nat 2 + 1) ∈ written.
Proof.
  apply (pipeline_reports_identical_rows (G:=Z) (rnd_sound := exact_rounding_sound) (λ s, s)
           three_equal_rows 1 4 2 100 (1 # 2) [] 0 2);
    [done | reflexivity | lia | lia | simpl; lia | by vm_compute | simpl; lia | reflexivity
    | by vm_compute].
Defined.

(** * Properties of [src/data_loader.py] *)

(** *** The constructor used on concrete inputs meets the contract *)

Lemma insert_column_elem_of (c : Z) (l : list Z) (x : Z) :
  x ∈ insert_column c l ↔ x = c ∨ x ∈ l.
Proof.
  induction l as [|y l IH]; simpl.
  - rewrite list_elem_of_singleton. set_solver.
  - destruct (Z.ltb_spec c y); [set_solver|].
    destruct (Z.eqb_spec c y) as [->|]; [set_solver|].
    rewrite !elem_of_cons, IH. tauto.
Qed.

Lemma strictly_increasing_cons (x : Z) (l : list Z) :
  strictly_increasing (x :: l) = true ↔
  strictly_increasing l = true ∧ ∀ y, y ∈ l → x < y.
Proof.
  split.
  - intros Hs. split.
    + simpl in Hs. destruct l; [done|]. by apply andb_true_iff in Hs as [_ ?].
    + intros y [i Hi]%list_elem_of_lookup.
      apply (strictly_increasing_lookup _ Hs 0%nat (S i)); [done|done|lia].
  - intros [Hs Hlt]. simpl. destruct l as [|y l]; [done|].
    apply andb_true_iff. split; [|done]. apply Z.ltb_lt, Hlt. left.
Qed.

Lemma insert_column_increasing (c : Z) (l : list Z) :
  strictly_increasing l = true → strictly_increasing (insert_column c l) = true.
Proof.
  induction l as [|y l IH]; intros Hs; [done|]. cbn [insert_column].
  destruct (Z.ltb_spec c y) as [Hlt|Hge].
  - apply strictly_increasing_cons. split; [done|].
    apply strictly_increasing_cons in Hs as [_ Hy].
    intros z [->|Hz]%elem_of_cons; [done|]. specialize (Hy z Hz). lia.
  - destruct (Z.eqb_spec c y) as [->|Hne]; [done|].
    apply strictly_increasing_cons in Hs as [Hs Hy].
    apply strictly_increasing_cons. split; [by apply IH|].
    intros z [->|Hz]%insert_column_elem_of; [lia|by apply Hy].
Qed.

Lemma coo_row_increasing (rows cols : list Z) (u : Z) :
  strictly_increasing (coo_row rows cols u) = true.
Proof.
  unfold coo_row. induction (_.*2) as [|c l IH]; [done|].
  simpl. by apply insert_column_increasing.
Qed.

Lemma coo_row_elem_of (rows cols : list Z) (u c : Z) :
  c ∈ coo_row rows cols u ↔ (u, c) ∈ zip rows cols.
Proof.
  unfold coo_row.
  assert (Hfold : ∀ l : list Z, c ∈ foldr insert_column [] l ↔ c ∈ l).
  { induction l as [|x l IH]; [done|]. simpl. rewrite insert_column_elem_of, elem_of_cons, IH.
    done. }
  rewrite Hfold, list_elem_of_fmap. split.
  - intros ([r c'] & -> & Hin). apply list_elem_of_In, filter_In in Hin as [Hin Hr].
    simpl in *. apply Z.eqb_eq in Hr as ->. by apply list_elem_of_In.
  - intros Hin. exists (u, c). split; [done|].
    apply list_elem_of_In, filter_In. split; [by apply list_elem_of_In|]. simpl.
    apply Z.eqb_refl.
Qed.

Lemma offsets_length (start : Z) (rs : list (list Z)) :
  length (offsets start rs) = S (length rs).
Proof. revert start. induction rs as [|r rs IH]; intros start; simpl; [done|]. by rewrite IH. Qed.

Lemma offsets_nth (rs : list (list Z)) :
  ∀ start u, (u ≤ length rs)%nat →
    nth u (offsets start rs) 0 = start + Z.of_nat (length (concat (take u rs))).
Proof.
  induction rs as [|r rs IH]; intros start u Hu.
  - simpl in Hu. replace u with 0%nat by lia. simpl. lia.
  - destruct u as [|u]; [simpl; lia|]. cbn [offsets nth].
    rewrite IH by (simpl in Hu; lia). cbn [take concat]. rewrite length_app. lia.
Qed.

(** The segment between two consecutive row pointers is the row. *)
Lemma slice_of_concat (rs : list (list Z)) :
  ∀ (pre : list Z) (u : nat), (u < length rs)%nat →
    np_slice (pre ++ concat rs)
      (nth u (offsets (Z.of_nat (length pre)) rs) 0)
      (nth (S u) (offsets (Z.of_nat (length pre)) rs) 0)
    = nth u rs [].
Proof.
  induction rs as [|r rs IH]; intros pre u Hu; [simpl in Hu; lia|].
  destruct u as [|u].
  - cbn [offsets nth concat].
    assert (Hnext : nth 0 (offsets (Z.of_nat (length pre) + Z.of_nat (length r)) rs) 0
                    = Z.of_nat (length pre) + Z.of_nat (length r)) by (by destruct rs).
    rewrite Hnext. unfold np_slice. rewrite !slice_bound_id by (rewrite !length_app; lia).
    replace (Z.to_nat (Z.of_nat (length pre) + Z.of_nat (length r) - Z.of_nat (length pre)))
      with (length r) by lia.
    rewrite Nat2Z.id, drop_app_length. by rewrite take_app_length.
  - cbn [offsets concat]. change (nth (S ?k) (?x :: ?l) 0) with (nth k l 0).
    specialize (IH (pre ++ r) u ltac:(simpl in Hu; lia)).
    rewrite length_app, Nat2Z.inj_add, <- app_assoc in IH. exact IH.
Qed.

Lemma concat_take_length (rs : list (list Z)) :
  ∀ u, (length (concat (take u rs)) ≤ length (concat (take (S u) rs)) ∧
        length (concat (take u rs)) ≤ length (concat rs))%nat.
Proof.
  induction rs as [|r rs IH]; intros [|u]; cbn [take concat]; rewrite ?length_app;
    try specialize (IH u); simpl; lia.
Qed.

Lemma index_outside_false (n : Z) (l : list Z) :
  Forall (λ r, 0 ≤ r < n) l → existsb (index_outside n) l = false.
Proof.
  induction 1 as [|r l Hr _ IH]; [done|]. simpl. rewrite IH. unfold index_outside.
  destruct (Z.ltb_spec r 0), (Z.leb_spec n r); try done; lia.
Qed.

Lemma index_outside_true (n : Z) (l : list Z) :
  Exists (λ r, r < 0 ∨ n ≤ r) l → existsb (index_outside n) l = true.
Proof.
  induction 1 as [r l Hr|r l _ IH]; simpl.
  - unfold index_outside. destruct (Z.ltb_spec r 0), (Z.leb_spec n r); try done; lia.
  - rewrite IH. apply orb_true_r.
Qed.

Lemma coo_builder_sound : SparseConstructorSound (ctor := coo_builder).
Proof.
  split.
  - intros rows cols n m [H|H]; unfold csr_from_coo, coo_builder.
    + by rewrite (index_outside_true _ _ H).
    + rewrite (index_outside_true _ _ H). by rewrite orb_true_r.
  - intros rows cols n m Hlen Hn Hm Hrows Hcols. unfold csr_from_coo, coo_builder.
    rewrite (index_outside_false _ _ Hrows), (index_outside_false _ _ Hcols). simpl.
    set (rs := map (λ u, coo_row rows cols (Z.of_nat u)) (seq 0 (Z.to_nat n))).
    assert (Hrs : length rs = Z.to_nat n) by (unfold rs; by rewrite length_map, length_seq).
    assert (Hrow : ∀ u, (u < Z.to_nat n)%nat →
              np_slice (concat rs) (nth u (offsets 0 rs) 0) (nth (S u) (offsets 0 rs) 0)
              = coo_row rows cols (Z.of_nat u)).
    { intros u Hu. pose proof (slice_of_concat rs [] u ltac:(lia)) as Hs.
      cbn [app length] in Hs. change (Z.of_nat 0) with 0 in Hs. rewrite Hs.
      unfold rs. rewrite nth_lookup, list_lookup_fmap, lookup_seq_lt by done. done. }
    eexists. split; [done|]. split; [done|]. split; [done|]. split.
    + unfold csr_wf. cbn [indptr n_rows]. rewrite offsets_length, Hrs, Nat.eqb_refl. simpl.
      apply forallb_forall. intros u Hu%in_seq.
      unfold csr_row_ok, csr_row_bounds. cbn [indptr indices n_cols].
      rewrite Hrow by lia. rewrite coo_row_increasing, andb_true_r.
      rewrite !offsets_nth by lia.
      assert (Hmono : (length (concat (take u rs)) ≤ length (concat (take (S u) rs))
                       ∧ length (concat (take (S u) rs)) ≤ length (concat rs))%nat).
      { pose proof (concat_take_length rs u). pose proof (concat_take_length rs (S u)). lia. }
      repeat (apply andb_true_iff; split); try (apply Z.leb_le; lia).
      apply forallb_forall. intros c Hc%list_elem_of_In%coo_row_elem_of.
      apply elem_of_zip_r in Hc. rewrite Forall_forall in Hcols. specialize (Hcols c Hc).
      apply andb_true_iff. split; [apply Z.leb_le|apply Z.ltb_lt]; lia.
    + intros u c Hu. unfold row_cols. cbn [indptr indices n_rows] in *.
      rewrite Hrow by done. apply coo_row_elem_of.
Qed.

(** *** The loader *)

Lemma fold_max_spec (l : list Z) :
  ∀ x, fold_left Z.max l x ∈ x :: l ∧ ∀ y, y ∈ x :: l → y ≤ fold_left Z.max l x.
Proof.
  induction l as [|z l IH]; intros x; simpl.
  - split; [left|]. intros y ->%list_elem_of_singleton. lia.
  - destruct (IH (Z.max x z)) as [Hin Hle]. split.
    + apply elem_of_cons in Hin as [Heq|Hin]; [|by do 2 right].
      rewrite Heq. destruct (Z.max_spec x z) as [[_ ->]|[_ ->]]; [right; left|left].
    + intros y Hy. apply elem_of_cons in Hy as [->|Hy].
      * specialize (Hle (Z.max x z) ltac:(left)). lia.
      * apply elem_of_cons in Hy as [->|Hy].
        -- specialize (Hle (Z.max x z) ltac:(left)). lia.
        -- apply Hle. by right.
Qed.

Lemma np_max_spec (arr : list Z) :
  arr ≠ [] → ∃ mx, np_max arr = Ok mx ∧ mx ∈ arr ∧ ∀ y, y ∈ arr → y ≤ mx.
Proof.
  destruct arr as [|x arr]; [done|]. intros _. eexists. split; [done|]. apply fold_max_spec.
Qed.

Lemma wrap32_range (x : Z) : int32_range (wrap32 x).
Proof.
  unfold int32_range, wrap32. pose proof (Z.mod_pos_bound (x + 2 ^ 31) (2 ^ 32)). lia.
Qed.

(** The identifiers read from the converted array. *)
Lemma converted_column (n : nat) (rows : list (list Z)) (j : nat) :
  (j < 3)%nat →
  column (Array2 n 3 (map (map wrap32) rows)) j = Ok (map (λ row, wrap32 (nth j row 0)) rows).
Proof.
  intros Hj. unfold column. destruct (Nat.ltb_spec j 3); [|lia]. f_equal.
  rewrite map_map. apply map_ext. intros row. apply (map_nth wrap32 row 0 j).
Qed.

Lemma zip_fmap_same {A B C : Type} (f : A → B) (g : A → C) (l : list A) :
  zip (f <$> l) (g <$> l) = (λ x, (f x, g x)) <$> l.
Proof.
  induction l as [|x l IH]; [done|].
  rewrite !fmap_cons. cbn [zip zip_with]. by rewrite IH.
Qed.

(** X24.  [load_user_movie_matrix] ends in [ValueError] when the loaded array
    is not two-dimensional with three columns, when it has no row (the maximum
    of an empty column is refused), and when some user or movie identifier is
    not positive (its index [id - 1] falls outside the shape inferred from the
    maxima). *)
Theorem load_user_movie_matrix_errors {ctor : SparseConstructor}
    {ctor_sound : SparseConstructorSound} :
  (∀ ndim, load_user_movie_matrix (ArrayOther ndim) = Err ValueError) ∧
  (∀ n columns rows,
     columns ≠ 3%nat → load_user_movie_matrix (Array2 n columns rows) = Err ValueError) ∧
  (∀ n, load_user_movie_matrix (Array2 n 3 []) = Err ValueError) ∧
  (∀ n rows,
     Exists (λ row, wrap32 (nth 0 row 0) ≤ 0 ∨ wrap32 (nth 1 row 0) ≤ 0) rows →
     load_user_movie_matrix (Array2 n 3 rows) = Err ValueError).
Proof.
  split; [done|]. split; [|split].
  - intros n columns rows Hc. unfold load_user_movie_matrix, load_ratings_npy.
    by destruct (Nat.eqb_spec columns 3).
  - done.
  - intros n rows Hbad. unfold load_user_movie_matrix, load_ratings_npy.
    cbn [Nat.eqb mbind result_bind]. unfold infer_num_users_movies, build_user_movie_matrix.
    rewrite !converted_column by lia. cbn [mbind result_bind].
    set (user_ids := map (λ row, wrap32 (nth 0 row 0)) rows).
    set (movie_ids := map (λ row, wrap32 (nth 1 row 0)) rows).
    assert (Hne : rows ≠ []) by (intros ->; by apply Exists_nil in Hbad).
    destruct (np_max_spec user_ids) as (n_users & -> & Hu_in & Hu_max).
    { unfold user_ids. by destruct rows. }
    destruct (np_max_spec movie_ids) as (n_movies & -> & Hm_in & Hm_max).
    { unfold movie_ids. by destruct rows. }
    cbn [mbind result_bind]. rewrite csr_from_coo_refused; [done|].
    assert (Hshift : ∀ x mx, int32_range x → int32_range mx → x ≤ 0 →
              wrap32 (x - 1) < 0 ∨ mx ≤ wrap32 (x - 1)).
    { intros x mx Hx Hmx Hle. unfold int32_range, wrap32 in *.
      change (2 ^ 31) with 2147483648 in *. change (2 ^ 32) with 4294967296.
      Z.div_mod_to_equations. lia. }
    assert (Hu_range : int32_range n_users).
    { apply list_elem_of_fmap in Hu_in as (row & -> & _). apply wrap32_range. }
    assert (Hm_range : int32_range n_movies).
    { apply list_elem_of_fmap in Hm_in as (row & -> & _). apply wrap32_range. }
    apply Exists_exists in Hbad as (row & Hrow & [Hbad|Hbad]).
    + left. apply Exists_exists. exists (wrap32 (wrap32 (nth 0 row 0) - 1)). split.
      * apply list_elem_of_fmap. eexists. split; [done|].
        apply list_elem_of_fmap. by exists row.
      * apply Hshift; [apply wrap32_range|done|done].
    + right. apply Exists_exists. exists (wrap32 (wrap32 (nth 1 row 0) - 1)). split.
      * apply list_elem_of_fmap. eexists. split; [done|].
        apply list_elem_of_fmap. by exists row.
      * apply Hshift; [apply wrap32_range|done|done].
Qed.

Lemma load_user_movie_matrix_errors_witness :
  load_user_movie_matrix (ctor := coo_builder) (Array2 2 4 [[1; 1; 1; 1]; [2; 2; 2; 2]])
    = Err ValueError ∧
  load_user_movie_matrix (ctor := coo_builder) (Array2 0 3 []) = Err ValueError ∧
  load_user_movie_matrix (ctor := coo_builder) (Array2 2 3 [[1; 2; 5]; [0; 1; 4]])
    = Err ValueError.
Proof.
  destruct (load_user_movie_matrix_errors (ctor_sound := coo_builder_sound))
    as (_ & Hshape & Hempty & Hid).
  split; [by apply Hshape|]. split; [apply Hempty|].
  apply Hid. apply Exists_cons_tl, Exists_cons_hd. left. by vm_compute.
Defined.

(** X25.  On a non-empty array of ratings whose user and movie identifiers
    are positive [int32] values, [load_user_movie_matrix] returns a well-formed
    matrix whose shape is the largest user identifier by the largest movie
    identifier, and in which [get_user_movies] of row [u - 1] holds [m - 1]
    exactly when the ratings contain the pair of user [u] and movie [m]. *)
Theorem load_user_movie_matrix_content {ctor : SparseConstructor}
    {ctor_sound : SparseConstructorSound} (n : nat) (rows : list (list Z)) :
  rows ≠ [] →
  Forall (λ row, 1 ≤ nth 0 row 0 < 2 ^ 31 ∧ 1 ≤ nth 1 row 0 < 2 ^ 31) rows →
  ∃ R n_users n_movies,
    load_user_movie_matrix (Array2 n 3 rows) = Ok (R, n_users, n_movies) ∧
    csr_wf R = true ∧
    n_rows R = Z.to_nat n_users ∧ n_cols R = Z.to_nat n_movies ∧
    (∃ row, row ∈ rows ∧ nth 0 row 0 = n_users) ∧
    (∃ row, row ∈ rows ∧ nth 1 row 0 = n_movies) ∧
    (∀ row, row ∈ rows → nth 0 row 0 ≤ n_users ∧ nth 1 row 0 ≤ n_movies) ∧
    ∀ u, 1 ≤ u ≤ n_users →
      ∃ movies,
        get_user_movies (Csr R) (u - 1) = Ok movies ∧
        ∀ m, m - 1 ∈ movies ↔ ∃ row, row ∈ rows ∧ nth 0 row 0 = u ∧ nth 1 row 0 = m.
Proof.
  intros Hne Hids. unfold load_user_movie_matrix, load_ratings_npy.
  cbn [Nat.eqb mbind result_bind]. unfold infer_num_users_movies, build_user_movie_matrix.
  rewrite !converted_column by lia. cbn [mbind result_bind].
  assert (Hid32 : ∀ x, 1 ≤ x < 2 ^ 31 → wrap32 x = x ∧ wrap32 (x - 1) = x - 1).
  { intros x Hx. split; apply wrap32_id; unfold int32_range; lia. }
  assert (Hu : map (λ row, wrap32 (nth 0 row 0)) rows = map (λ row, nth 0 row 0) rows).
  { apply map_ext_in. intros row Hrow%list_elem_of_In.
    rewrite Forall_forall in Hids. by apply Hid32, Hids. }
  assert (Hm : map (λ row, wrap32 (nth 1 row 0)) rows = map (λ row, nth 1 row 0) rows).
  { apply map_ext_in. intros row Hrow%list_elem_of_In.
    rewrite Forall_forall in Hids. by apply Hid32, Hids. }
  rewrite Hu, Hm.
  destruct (np_max_spec (map (λ row, nth 0 row 0) rows)) as (n_users & -> & Hu_in & Hu_max).
  { by destruct rows. }
  destruct (np_max_spec (map (λ row, nth 1 row 0) rows)) as (n_movies & -> & Hm_in & Hm_max).
  { by destruct rows. }
  cbn [mbind result_bind].
  apply list_elem_of_fmap in Hu_in as (row_u & Hrow_u & Hin_u).
  apply list_elem_of_fmap in Hm_in as (row_m & Hrow_m & Hin_m).
  rewrite Forall_forall in Hids.
  assert (Hbound : ∀ row, row ∈ rows → nth 0 row 0 ≤ n_users ∧ nth 1 row 0 ≤ n_movies).
  { intros row Hrow. split; [apply Hu_max|apply Hm_max]; apply list_elem_of_fmap; eauto. }
  rewrite !map_map.
  set (row_indices := map (λ row, wrap32 (nth 0 row 0 - 1)) rows).
  set (col_indices := map (λ row, wrap32 (nth 1 row 0 - 1)) rows).
  destruct (csr_from_coo_built row_indices col_indices n_users n_movies)
    as (R & -> & Hnr & Hnc & Hwf & Hcontent).
  { unfold row_indices, col_indices. by rewrite !length_map. }
  { pose proof (Hids row_u Hin_u). lia. }
  { pose proof (Hids row_m Hin_m). lia. }
  { apply Forall_fmap, Forall_forall. intros row Hrow. simpl.
    destruct (Hid32 (nth 0 row 0)) as [_ ->]; [by apply Hids|].
    pose proof (Hids row Hrow). pose proof (Hbound row Hrow). lia. }
  { apply Forall_fmap, Forall_forall. intros row Hrow. simpl.
    destruct (Hid32 (nth 1 row 0)) as [_ ->]; [by apply Hids|].
    pose proof (Hids row Hrow). pose proof (Hbound row Hrow). lia. }
  cbn [mbind result_bind]. exists R, n_users, n_movies.
  split; [done|]. split; [done|]. split; [done|]. split; [done|].
  split; [by exists row_u|]. split; [by exists row_m|]. split; [done|].
  intros u Hu_range.
  assert (Hin_range : in_range R (u - 1)) by (unfold in_range; lia).
  exists (row_cols R (Z.to_nat (u - 1))).
  split; [by apply get_user_movies_bounds; [apply csr_wf_bounds|]|].
  intros m. rewrite Hcontent by lia. unfold row_indices, col_indices.
  rewrite zip_fmap_same, list_elem_of_fmap. split.
  - intros (row & [= H1 H2] & Hrow). exists row. split; [done|].
    destruct (Hid32 (nth 0 row 0)) as [_ E1]; [by apply Hids|].
    destruct (Hid32 (nth 1 row 0)) as [_ E2]; [by apply Hids|].
    rewrite E1 in H1. rewrite E2 in H2. lia.
  - intros (row & Hrow & <- & <-). exists row. split; [|done].
    destruct (Hid32 (nth 0 row 0)) as [_ ->]; [by apply Hids|].
    destruct (Hid32 (nth 1 row 0)) as [_ ->]; [by apply Hids|].
    f_equal. lia.
Qed.

Lemma load_user_movie_matrix_content_witness :
  ∃ R n_users n_movies,
    load_user_movie_matrix (ctor := coo_builder)
      (Array2 4 3 [[1; 3; 5]; [2; 1; 4]; [1; 1; 2]; [2; 3; 3]]) = Ok (R, n_users, n_movies) ∧
    csr_wf R = true ∧
    n_rows R = Z.to_nat n_users ∧ n_cols R = Z.to_nat n_movies ∧
    (∃ row, row ∈ [[1; 3; 5]; [2; 1; 4]; [1; 1; 2]; [2; 3; 3]] ∧ nth 0 row 0 = n_users) ∧
    (∃ row, row ∈ [[1; 3; 5]; [2; 1; 4]; [1; 1; 2]; [2; 3; 3]] ∧ nth 1 row 0 = n_movies) ∧
    (∀ row, row ∈ [[1; 3; 5]; [2; 1; 4]; [1; 1; 2]; [2; 3; 3]] →
            nth 0 row 0 ≤ n_users ∧ nth 1 row 0 ≤ n_movies) ∧
    ∀ u, 1 ≤ u ≤ n_users →
      ∃ movies,
        get_user_movies (Csr R) (u - 1) = Ok movies ∧
        ∀ m, m - 1 ∈ movies ↔
             ∃ row, row ∈ [[1; 3; 5]; [2; 1; 4]; [1; 1; 2]; [2; 3; 3]] ∧
                    nth 0 row 0 = u ∧ nth 1 row 0 = m.
Proof.
  apply (load_user_movie_matrix_content (ctor_sound := coo_builder_sound) 4
           [[1; 3; 5]; [2; 1; 4]; [1; 1; 2]; [2; 3; 3]]); [done|].
  repeat (apply List.Forall_cons; [simpl; lia|]). apply List.Forall_nil.
Defined.
